(** * 2D nesting: panels, sheets, skyline, free rectangles, guillotine cuts

    A shallow embedding of the packing engine of the repository
    ([optimized_nesting_hybrid.py], [optimized_nesting_v2.py],
    [optimized_nesting_planar.py]) and of the guillotine variant
    ([test_nesting.py]).

    Numbers.  Python floats are modelled as exact rationals [Q]; decimal
    literals such as [1e-6] and [0.1] denote the rational they are written as.
    Comparisons of floats are the boolean tests [Qleb], [Qltb], [Qeqb].
    Python integers are [Z], list positions are [nat].

    Exceptions.  A Python exception is the [Raise] branch of [result]. *)

From Stdlib Require Import QArith Qround Qabs ZArith List Bool Lia Lqa Arith.
From Stdlib Require Import Sorted Permutation.
From Stdlib Require String.
Import ListNotations.

Local Open Scope Q_scope.

(* ------------------------------------------------------------------ *)
(** ** Float comparisons *)

Definition Qleb (a b : Q) : bool := Qle_bool a b.
Definition Qltb (a b : Q) : bool := negb (Qle_bool b a).
Definition Qeqb (a b : Q) : bool := Qeq_bool a b.

Definition Qmax (a b : Q) : Q := if Qltb a b then b else a.
Definition Qmin (a b : Q) : Q := if Qltb b a then b else a.

(* ------------------------------------------------------------------ *)
(** ** Exceptions *)

Inductive exn : Type :=
| ZeroDivisionError
| IndexError
| UnboundLocalError.

Inductive result (A : Type) : Type :=
| Ok (a : A)
| Raise (e : exn).

Arguments Ok {A} a.
Arguments Raise {A} e.

Definition bind {A B : Type} (m : result A) (k : A -> result B) : result B :=
  match m with
  | Ok a => k a
  | Raise e => Raise e
  end.

Notation "x <- m ;; k" := (bind m (fun x => k))
  (at level 61, m at next level, right associativity).
Notation "' pat <- m ;; k" := (bind m (fun x => match x with pat => k end))
  (at level 61, pat pattern, m at next level, right associativity).

(** [a / b] on floats: Python raises when the divisor is zero. *)
Definition py_div (a b : Q) : result Q :=
  if Qeqb b 0 then Raise ZeroDivisionError else Ok (a / b).

(** [int(q)]: truncation toward zero. *)
Definition py_int (q : Q) : Z := Z.quot (Qnum q) (Z.pos (Qden q)).

(* ------------------------------------------------------------------ *)
(** ** Rectangular panels ([class Panel], hybrid and v2)

    The memo fields [_placed_w_cache] and [_placed_h_cache] are cleared by
    every [rotate] and refilled with [w + kerf] and [h + kerf]; [kerf] is fixed
    for a run, so the getters are modelled as recomputation. *)

Record Panel : Type := mkPanel {
  orig_w : Q;
  orig_h : Q;
  pw_ : Q;          (* self.w *)
  ph_ : Q;          (* self.h *)
  parea : Q;        (* self.area *)
  rotated : bool;
  pid : nat;
  ptag : option String.string
}.

Definition Panel_init (w h : Q) (id : nat) (tag : option String.string) : Panel :=
  mkPanel w h w h (w * h) false id tag.

Definition rotate (p : Panel) : Panel :=
  mkPanel (orig_w p) (orig_h p) (ph_ p) (pw_ p) (parea p)
          (negb (rotated p)) (pid p) (ptag p).

Definition get_placed_width (kerf : Q) (p : Panel) : Q := pw_ p + kerf.
Definition get_placed_height (kerf : Q) (p : Panel) : Q := ph_ p + kerf.

Definition copy (p : Panel) : Panel :=
  let q := Panel_init (orig_w p) (orig_h p) (pid p) (ptag p) in
  if rotated p then rotate q else q.

(** ** Shape-bearing panels ([class PlanarPanel])

    The surface, its boundary curve and the bounding box come from the CAD
    kernel; the record keeps what the engine reads from them: the bounding-box
    size, the area reported by the kernel and the boundary polyline.  The
    rotation about the origin by 90 degrees maps [(x, y)] to [(-y, x)]. *)

Record PlanarPanel : Type := mkPlanarPanel {
  pl_w : Q;
  pl_h : Q;
  pl_area : Q;
  rotation_angle : Z;
  pl_rotated : bool;
  boundary_points : list (Q * Q);
  pl_id : nat
}.

Definition PlanarPanel_init (w h area : Q) (pts : list (Q * Q)) (id : nat)
  : PlanarPanel :=
  mkPlanarPanel w h area 0%Z false pts id.

Definition rotate_point (pt : Q * Q) : Q * Q := (- snd pt, fst pt).

Definition planar_rotate (p : PlanarPanel) : PlanarPanel :=
  let angle := ((rotation_angle p + 90) mod 360)%Z in
  mkPlanarPanel (pl_h p) (pl_w p) (pl_area p) angle
                (negb (angle =? 0)%Z)
                (map rotate_point (boundary_points p)) (pl_id p).

Definition planar_placed_width (kerf : Q) (p : PlanarPanel) : Q := pl_w p + kerf.
Definition planar_placed_height (kerf : Q) (p : PlanarPanel) : Q := pl_h p + kerf.

(* ------------------------------------------------------------------ *)
(** ** Free rectangles ([class FreeRectangle]) *)

Record FreeRectangle : Type := mkFree {
  fx : Q; fy : Q; fw : Q; fh : Q
}.

Definition intersects (self other : FreeRectangle) : bool :=
  negb (Qleb (fx self + fw self) (fx other)
        || Qleb (fx other + fw other) (fx self)
        || Qleb (fy self + fh self) (fy other)
        || Qleb (fy other + fh other) (fy self)).

Definition contains (self other : FreeRectangle) : bool :=
  Qleb (fx self) (fx other)
  && Qleb (fy self) (fy other)
  && Qleb (fx other + fw other) (fx self + fw self)
  && Qleb (fy other + fh other) (fy self + fh self).

(** [enumerate(l)] *)
Fixpoint enumerate_from {A : Type} (n : nat) (l : list A) : list (nat * A) :=
  match l with
  | [] => []
  | a :: l' => (n, a) :: enumerate_from (S n) l'
  end.

Definition enumerate {A : Type} (l : list A) : list (nat * A) :=
  enumerate_from 0 l.

(** [Sheet._prune_free_rects]: the inner loop looks for an [other] at a
    different position that contains [rect]. *)
Definition is_contained (rects : list FreeRectangle) (i : nat)
  (rect : FreeRectangle) : bool :=
  existsb (fun jo => negb (Nat.eqb i (fst jo)) && contains (snd jo) rect)
          (enumerate rects).

Definition _prune_free_rects (rects : list FreeRectangle) : list FreeRectangle :=
  if (length rects <=? 1)%nat then rects
  else map snd (filter (fun ir => negb (is_contained rects (fst ir) (snd ir)))
                       (enumerate rects)).

(* ------------------------------------------------------------------ *)
(** ** Sorting

    [sorted(l, key=...)] and [list.sort(key=...)] are stable.  [sort_by le]
    is the stable insertion sort for the order [le] induced by the key; with
    [reverse=True] the order is the reversed one and equal keys still keep
    their input order. *)

Fixpoint insert_by {A : Type} (le : A -> A -> bool) (x : A) (l : list A)
  : list A :=
  match l with
  | [] => [x]
  | y :: l' => if le x y then x :: y :: l' else y :: insert_by le x l'
  end.

Definition sort_by {A : Type} (le : A -> A -> bool) (l : list A) : list A :=
  fold_right (insert_by le) [] l.

(** Order of the tuples [(a1, b1) <= (a2, b2)] of floats. *)
Definition pair_le (a1 b1 a2 b2 : Q) : bool :=
  Qltb a1 a2 || (Qeqb a1 a2 && Qleb b1 b2).

(* ------------------------------------------------------------------ *)
(** ** Skyline ([Sheet._update_skyline], hybrid, v2 and planar)

    A segment is the tuple [(x, y, width)].  The constants [100] and [0.1] are
    [CONFIG.MAX_SKYLINE_SEGMENTS] and [CONFIG.SKYLINE_MERGE_TOLERANCE] in v2. *)

Definition Segment : Type := (Q * Q * Q)%type.

Definition seg_x (s : Segment) : Q := fst (fst s).
Definition seg_y (s : Segment) : Q := snd (fst s).
Definition seg_w (s : Segment) : Q := snd s.

Definition MAX_SKYLINE_SEGMENTS : nat := 100.
Definition SKYLINE_MERGE_TOLERANCE : Q := 1 # 10.

(** The [for] loop over [self.skyline]: returns the kept segments, in order,
    and the final [new_segment[0]] and [new_segment[2]].  [x], [w] are the
    arguments, [ny] is [new_segment[1]]. *)
Fixpoint skyline_scan (x w ny : Q) (segs : list Segment)
  (nx nw : Q) (merged : bool) : list Segment * Q * Q :=
  match segs with
  | [] => ([], nx, nw)
  | s :: rest =>
      let keep :=
        let '(kept, nx', nw') := skyline_scan x w ny rest nx nw merged in
        (s :: kept, nx', nw') in
      if Qltb x (seg_x s + seg_w s) && Qltb (seg_x s) (x + w) then
        if Qltb (Qabs (seg_y s - ny)) SKYLINE_MERGE_TOLERANCE then
          if merged then skyline_scan x w ny rest nx nw merged
          else
            let nx' := Qmin nx (seg_x s) in
            let nw' := Qmax (nx' + nw) (seg_x s + seg_w s) - nx' in
            skyline_scan x w ny rest nx' nw' true
        else if Qltb (seg_y s) ny then skyline_scan x w ny rest nx nw merged
        else keep
      else keep
  end.

Definition seg_le (s t : Segment) : bool :=
  pair_le (seg_y s) (seg_x s) (seg_y t) (seg_x t).

(** The list before the final truncation: kept segments, the new segment
    appended, sorted by [(s[1], s[0])]. *)
Definition skyline_sorted (skyline : list Segment) (x y w h : Q)
  : list Segment :=
  let '(kept, nx, nw) := skyline_scan x w (y + h) skyline x w false in
  sort_by seg_le (kept ++ [(nx, y + h, nw)]).

Definition _update_skyline (skyline : list Segment) (x y w h : Q)
  : list Segment :=
  let updated := skyline_sorted skyline x y w h in
  if (MAX_SKYLINE_SEGMENTS <? length updated)%nat
  then firstn MAX_SKYLINE_SEGMENTS updated
  else updated.

(* ------------------------------------------------------------------ *)
(** ** Free-rectangle index ([Sheet._update_free_rects]) *)

Definition split_free_rect (placed_x placed_y placed_w placed_h : Q)
  (rect : FreeRectangle) : list FreeRectangle :=
  if negb (intersects rect (mkFree placed_x placed_y placed_w placed_h))
  then [rect]
  else
    (if Qltb (fx rect) placed_x
     then [mkFree (fx rect) (fy rect) (placed_x - fx rect) (fh rect)] else [])
    ++ (if Qltb (placed_x + placed_w) (fx rect + fw rect)
        then [mkFree (placed_x + placed_w) (fy rect)
                     (fx rect + fw rect - (placed_x + placed_w)) (fh rect)]
        else [])
    ++ (if Qltb (fy rect) placed_y
        then [mkFree (fx rect) (fy rect) (fw rect) (placed_y - fy rect)] else [])
    ++ (if Qltb (placed_y + placed_h) (fy rect + fh rect)
        then [mkFree (fx rect) (placed_y + placed_h) (fw rect)
                     (fy rect + fh rect - (placed_y + placed_h))]
        else []).

Definition _update_free_rects (free : list FreeRectangle)
  (placed_x placed_y placed_w placed_h : Q) : list FreeRectangle :=
  _prune_free_rects
    (flat_map (split_free_rect placed_x placed_y placed_w placed_h) free).

(* ------------------------------------------------------------------ *)
(** ** Sheets ([class Sheet])

    The record is shared by the rectangular engine ([P := Panel]) and the
    shape-bearing one ([P := PlanarPanel]); [grid] is [self.grid[row][col]],
    a list of positions into [panels]. *)

Record Sheet (P : Type) : Type := mkSheet {
  s_orig_w : Q;
  s_orig_h : Q;
  s_w : Q;
  s_h : Q;
  panels : list (P * Q * Q);
  type_id : nat;
  filled_area : Q;
  grid_cols : Z;
  grid_rows : Z;
  cell_w : Q;
  cell_h : Q;
  grid : list (list (list nat));
  skyline : list Segment;
  free_rects : list FreeRectangle
}.

Arguments mkSheet {P}.
Arguments s_orig_w {P}.
Arguments s_orig_h {P}.
Arguments s_w {P}.
Arguments s_h {P}.
Arguments panels {P}.
Arguments type_id {P}.
Arguments filled_area {P}.
Arguments grid_cols {P}.
Arguments grid_rows {P}.
Arguments cell_w {P}.
Arguments cell_h {P}.
Arguments grid {P}.
Arguments skyline {P}.
Arguments free_rects {P}.

(** [if avg_panel_size:] holds for a float other than [None] and [0.0]. *)
Definition truthy (avg : option Q) : option Q :=
  match avg with
  | Some a => if Qeqb a 0 then None else Some a
  | None => None
  end.

Definition grid_dim (extent : Q) (avg : option Q) : Z :=
  match truthy avg with
  | Some a => Z.max 5 (Z.min 50 (py_int (extent / (a * 5))))
  | None => 20%Z
  end.

Definition Sheet_init (P : Type) (w h : Q) (tid : nat) (avg : option Q)
  : Sheet P :=
  let cols := grid_dim w avg in
  let rows := grid_dim h avg in
  mkSheet w h w h [] tid 0 cols rows
          (w / inject_Z cols) (h / inject_Z rows)
          (repeat (repeat [] (Z.to_nat cols)) (Z.to_nat rows))
          [(0, 0, w)]
          [mkFree 0 0 w h].

Definition clamp_index (n : Z) (v : Z) : nat :=
  Z.to_nat (Z.max 0 (Z.min (n - 1) v)).

(** [range(lo, hi + 1)] *)
Definition range_incl (lo hi : nat) : list nat := seq lo (S hi - lo).

Definition cells_between (rows cols : Z) (y0 y1 x0 x1 : nat)
  : list (nat * nat) :=
  flat_map
    (fun row =>
       flat_map
         (fun col =>
            if ((Z.of_nat row <? rows) && (Z.of_nat col <? cols))%Z
            then [(row, col)] else [])
         (range_incl x0 x1))
    (range_incl y0 y1).

Definition _get_grid_cells {P : Type} (s : Sheet P) (x y w h : Q)
  : result (list (nat * nat)) :=
  qx0 <- py_div x (cell_w s) ;;
  qy0 <- py_div y (cell_h s) ;;
  qx1 <- py_div (x + w) (cell_w s) ;;
  qy1 <- py_div (y + h) (cell_h s) ;;
  let x0 := clamp_index (grid_cols s) (Qfloor qx0) in
  let y0 := clamp_index (grid_rows s) (Qfloor qy0) in
  let x1 := clamp_index (grid_cols s) (Qceiling qx1) in
  let y1 := clamp_index (grid_rows s) (Qceiling qy1) in
  Ok (cells_between (grid_rows s) (grid_cols s) y0 y1 x0 x1).

(** [l[i]] for reading and [l[i] = f(l[i])] for updating; both raise
    [IndexError] outside the list. *)
Definition list_get {A : Type} (l : list A) (i : nat) : result A :=
  match nth_error l i with
  | Some a => Ok a
  | None => Raise IndexError
  end.

Fixpoint list_update {A : Type} (l : list A) (i : nat) (f : A -> result A)
  : result (list A) :=
  match l, i with
  | [], _ => Raise IndexError
  | a :: l', O => a' <- f a ;; Ok (a' :: l')
  | a :: l', S i' => l'' <- list_update l' i' f ;; Ok (a :: l'')
  end.

Definition grid_get (g : list (list (list nat))) (row col : nat)
  : result (list nat) :=
  r <- list_get g row ;; list_get r col.

(** [self.grid[row][col].append(panel_idx)] *)
Definition grid_append (g : list (list (list nat))) (row col idx : nat)
  : result (list (list (list nat))) :=
  list_update g row
    (fun r => list_update r col (fun cell => Ok (cell ++ [idx]))).

Fixpoint register_cells (g : list (list (list nat)))
  (cells : list (nat * nat)) (idx : nat) : result (list (list (list nat))) :=
  match cells with
  | [] => Ok g
  | (row, col) :: rest =>
      g' <- grid_append g row col idx ;;
      register_cells g' rest idx
  end.

(* ------------------------------------------------------------------ *)
(** ** The rectangular engine ([optimized_nesting_hybrid.py]) *)

Definition epsilon : Q := 1 # 1000000.

(** The rectangle test of [Sheet.fits]:
    [not (x + pw <= px or x >= px + p_pw or y + ph <= py or y >= py + p_ph)]. *)
Definition rect_overlap (x y pw ph px py p_pw p_ph : Q) : bool :=
  negb (Qleb (x + pw) px || Qleb (px + p_pw) x
        || Qleb (y + ph) py || Qleb (py + p_ph) y).

Definition out_of_bounds (sw sh x y pw ph : Q) : bool :=
  Qltb (sw + epsilon) (x + pw) || Qltb (sh + epsilon) (y + ph)
  || Qltb x (- epsilon) || Qltb y (- epsilon).

Section Hybrid.

Variable kerf : Q.

Definition HSheet : Type := Sheet Panel.

(** The loop over [self.grid[row][col]]: [Ok (false, _)] is the early
    [return False], otherwise the updated [checked] set is handed on. *)
Fixpoint fits_indices (ps : list (Panel * Q * Q)) (x y pw ph : Q)
  (idxs : list nat) (checked : list nat) : result (bool * list nat) :=
  match idxs with
  | [] => Ok (true, checked)
  | panel_idx :: rest =>
      if existsb (Nat.eqb panel_idx) checked
      then fits_indices ps x y pw ph rest checked
      else
        let checked' := panel_idx :: checked in
        '(p, px, py) <- list_get ps panel_idx ;;
        if rect_overlap x y pw ph px py
                        (get_placed_width kerf p) (get_placed_height kerf p)
        then Ok (false, checked')
        else fits_indices ps x y pw ph rest checked'
  end.

Fixpoint fits_cells (s : HSheet) (x y pw ph : Q)
  (cells : list (nat * nat)) (checked : list nat) : result bool :=
  match cells with
  | [] => Ok true
  | (row, col) :: rest =>
      idxs <- grid_get (grid s) row col ;;
      '(ok, checked') <- fits_indices (panels s) x y pw ph idxs checked ;;
      if ok then fits_cells s x y pw ph rest checked' else Ok false
  end.

Definition fits (s : HSheet) (panel : Panel) (x y : Q) : result bool :=
  let pw := get_placed_width kerf panel in
  let ph := get_placed_height kerf panel in
  if out_of_bounds (s_w s) (s_h s) x y pw ph then Ok false
  else
    cells <- _get_grid_cells s x y pw ph ;;
    fits_cells s x y pw ph cells [].

Definition place (s : HSheet) (panel : Panel) (x y : Q) : result HSheet :=
  let panel_idx := length (panels s) in
  let panels' := panels s ++ [(panel, x, y)] in
  let pw := get_placed_width kerf panel in
  let ph := get_placed_height kerf panel in
  cells <- _get_grid_cells s x y pw ph ;;
  grid' <- register_cells (grid s) cells panel_idx ;;
  Ok (mkSheet (s_orig_w s) (s_orig_h s) (s_w s) (s_h s) panels'
              (type_id s) (filled_area s + pw * ph)
              (grid_cols s) (grid_rows s) (cell_w s) (cell_h s) grid'
              (_update_skyline (skyline s) x y pw ph)
              (_update_free_rects (free_rects s) x y pw ph)).

(** *** Candidate positions *)

Definition Position : Type := (Q * Q)%type.

Definition pos_eqb (a b : Position) : bool :=
  Qeqb (fst a) (fst b) && Qeqb (snd a) (snd b).

(** [positions.add(p)] on the set, kept in insertion order. *)
Definition set_add (p : Position) (l : list Position) : list Position :=
  if existsb (pos_eqb p) l then l else l ++ [p].

Definition add_skyline_positions (sw : Q) (acc : list Position)
  (seg : Segment) : list Position :=
  let acc1 := set_add (seg_x seg, seg_y seg) acc in
  if Qltb (seg_x seg + seg_w seg) sw
  then set_add (seg_x seg + seg_w seg, seg_y seg) acc1
  else acc1.

Definition add_corner_positions (acc : list Position)
  (e : Panel * Q * Q) : list Position :=
  let '(p, px, py) := e in
  let pw := get_placed_width kerf p in
  let ph := get_placed_height kerf p in
  set_add (px + pw, 0)
    (set_add (0, py + ph)
      (set_add (px + pw, py + ph)
        (set_add (px, py + ph)
          (set_add (px + pw, py) acc)))).

Definition pos_valid (sw sh : Q) (p : Position) : bool :=
  Qleb 0 (fst p) && Qleb 0 (snd p) && Qltb (fst p) sw && Qltb (snd p) sh.

(** key [(p[1], p[0])] *)
Definition pos_le (a b : Position) : bool :=
  pair_le (snd a) (fst a) (snd b) (fst b).

Definition get_candidate_positions (s : HSheet) : list Position :=
  match panels s with
  | [] => [(0, 0)]
  | _ =>
      let from_skyline :=
        fold_left (add_skyline_positions (s_w s)) (firstn 30 (skyline s)) [] in
      let positions := fold_left add_corner_positions (panels s) from_skyline in
      sort_by pos_le (filter (pos_valid (s_w s) (s_h s)) positions)
  end.

(** [l[::step]] *)
Fixpoint stride_aux {A : Type} (step k : nat) (l : list A) : list A :=
  match l with
  | [] => []
  | a :: l' =>
      match k with
      | O => a :: stride_aux step (step - 1) l'
      | S k' => stride_aux step k' l'
      end
  end.

Definition stride {A : Type} (step : nat) (l : list A) : list A :=
  stride_aux step 0 l.

Definition sample_positions (positions : list Position) : list Position :=
  let n := length positions in
  if (50 <? n)%nat then
    firstn 50
      (firstn 20 positions
       ++ skipn (n - 10) positions
       ++ stride (Nat.max 1 ((n - 30) / 20))
                 (firstn (n - 30) (skipn 20 positions)))
  else positions.

(** [waste < best_waste], where [None] is [float('inf')]. *)
Definition better (waste : Q) (best_waste : option Q) : bool :=
  match best_waste with
  | None => true
  | Some b => Qltb waste b
  end.

Record Best : Type := mkBest {
  best_position : option Position;
  best_waste : option Q;
  best_rotated : bool
}.

Definition consider (fit : bool) (panel : Panel) (pos : Position)
  (rot : bool) (b : Best) : Best :=
  if fit then
    let waste := snd pos + get_placed_height kerf panel in
    if better waste (best_waste b) then mkBest (Some pos) (Some waste) rot
    else b
  else b.

(** The loop of [try_add_panel]; the panel object is rotated and rotated
    back at every position, and handed on. *)
Fixpoint try_positions (s : HSheet) (panel : Panel)
  (positions : list Position) (b : Best) : result (Best * Panel) :=
  match positions with
  | [] => Ok (b, panel)
  | pos :: rest =>
      f1 <- fits s panel (fst pos) (snd pos) ;;
      let b1 := consider f1 panel pos false b in
      let panel_r := rotate panel in
      f2 <- fits s panel_r (fst pos) (snd pos) ;;
      let b2 := consider f2 panel_r pos true b1 in
      try_positions s (rotate panel_r) rest b2
  end.

Definition try_add_panel (s : HSheet) (panel : Panel)
  : result (bool * Q * Q * bool * Panel) :=
  let positions := sample_positions (get_candidate_positions s) in
  '(b, panel') <- try_positions s panel positions (mkBest None None false) ;;
  match best_position b with
  | Some pos => Ok (true, fst pos, snd pos, best_rotated b, panel')
  | None => Ok (false, 0, 0, false, panel')
  end.

(** [Sheet.add]: returns the success flag, the sheet and the panel object
    as they are after the call. *)
Definition add (s : HSheet) (panel : Panel)
  : result (bool * HSheet * Panel) :=
  '(success, x, y, rot, panel') <- try_add_panel s panel ;;
  if success then
    let panel'' := if rot then rotate panel' else panel' in
    s' <- place s panel'' x y ;;
    Ok (true, s', panel'')
  else Ok (false, s, panel').

Definition efficiency (s : HSheet) : result Q :=
  match panels s with
  | [] => Ok 0
  | _ => py_div (filled_area s) (s_w s * s_h s)
  end.

Definition should_stop_adding (s : HSheet) : result bool :=
  e <- efficiency s ;; Ok (Qltb (95 # 100) e).

End Hybrid.

(* ------------------------------------------------------------------ *)
(** ** The shape-bearing engine: [Sheet.place] of
    [optimized_nesting_planar.py] *)

Section Planar.

Variable kerf : Q.

Definition planar_place (s : Sheet PlanarPanel) (panel : PlanarPanel)
  (x y : Q) : result (Sheet PlanarPanel) :=
  let panel_idx := length (panels s) in
  let panels' := panels s ++ [(panel, x, y)] in
  let pw := planar_placed_width kerf panel in
  let ph := planar_placed_height kerf panel in
  cells <- _get_grid_cells s x y pw ph ;;
  grid' <- register_cells (grid s) cells panel_idx ;;
  Ok (mkSheet (s_orig_w s) (s_orig_h s) (s_w s) (s_h s) panels'
              (type_id s) (filled_area s + pl_area panel)
              (grid_cols s) (grid_rows s) (cell_w s) (cell_h s) grid'
              (_update_skyline (skyline s) x y pw ph)
              (_update_free_rects (free_rects s) x y pw ph)).

(** *** Polygon collision ([Sheet._check_polygon_collision]) *)

Definition Point : Type := (Q * Q)%type.

(** [ccw(A, B, C)]:
    [(C.Y - A.Y) * (B.X - A.X) > (B.Y - A.Y) * (C.X - A.X)] *)
Definition ccw (A B C : Point) : bool :=
  Qltb ((snd B - snd A) * (fst C - fst A)) ((snd C - snd A) * (fst B - fst A)).

Definition _line_segments_intersect (p1 p2 p3 p4 : Point) : bool :=
  negb (Bool.eqb (ccw p1 p3 p4) (ccw p2 p3 p4))
  && negb (Bool.eqb (ccw p1 p2 p3) (ccw p1 p2 p4)).

(** One turn of the ray-casting loop.  The state is [p1], [inside] and the
    local [xinters], which is unbound until first assigned. *)
Definition pip_step (x y : Q) (st : Point * bool * option Q) (p2 : Point)
  : result (Point * bool * option Q) :=
  let '(p1, inside, xinters) := st in
  if Qltb (Qmin (snd p1) (snd p2)) y
     && Qleb y (Qmax (snd p1) (snd p2))
     && Qleb x (Qmax (fst p1) (fst p2))
  then
    xinters' <-
      (if negb (Qeqb (snd p1) (snd p2)) then
         q <- py_div ((y - snd p1) * (fst p2 - fst p1)) (snd p2 - snd p1) ;;
         Ok (Some (q + fst p1))
       else Ok xinters) ;;
    if Qeqb (fst p1) (fst p2) then Ok (p2, negb inside, xinters')
    else
      match xinters' with
      | None => Raise UnboundLocalError
      | Some xi =>
          Ok (p2, if Qleb x xi then negb inside else inside, xinters')
      end
  else Ok (p2, inside, xinters).

Fixpoint pip_loop (x y : Q) (st : Point * bool * option Q)
  (ends : list Point) : result bool :=
  match ends with
  | [] => Ok (snd (fst st))
  | p2 :: rest => st' <- pip_step x y st p2 ;; pip_loop x y st' rest
  end.

(** [p2] runs over [polygon_points[i % n]] for [i = 1 .. n]. *)
Definition _point_in_polygon (point : Point) (polygon_points : list Point)
  : result bool :=
  match polygon_points with
  | [] => Raise IndexError
  | first :: others =>
      pip_loop (fst point) (snd point) (first, false, None) (others ++ [first])
  end.

Fixpoint any_point_inside (pts : list Point) (polygon : list Point)
  : result bool :=
  match pts with
  | [] => Ok false
  | pt :: rest =>
      b <- _point_in_polygon pt polygon ;;
      if b then Ok true else any_point_inside rest polygon
  end.

(** The sampled edges [(poly[i], poly[(i + 1) % n])], [i] in
    [range(0, n, max(1, n // 20))]. *)
Definition sampled_edges (poly : list Point) : list (Point * Point) :=
  let n := length poly in
  map (fun i => (nth i poly (0, 0), nth ((i + 1) mod n) poly (0, 0)))
      (stride (Nat.max 1 (n / 20)) (seq 0 n)).

Definition _edges_intersect (poly1_points poly2_points : list Point) : bool :=
  existsb
    (fun e1 =>
       existsb
         (fun e2 => _line_segments_intersect (fst e1) (snd e1) (fst e2) (snd e2))
         (sampled_edges poly2_points))
    (sampled_edges poly1_points).

Definition _check_polygon_collision (panel1_points panel2_points : list Point)
  : result bool :=
  b1 <- any_point_inside (firstn 5 panel1_points) panel2_points ;;
  if b1 then Ok true
  else
    b2 <- any_point_inside (firstn 5 panel2_points) panel1_points ;;
    if b2 then Ok true
    else Ok (_edges_intersect panel1_points panel2_points).

Definition get_transformed_boundary_points (p : PlanarPanel) (x y : Q)
  : list Point :=
  map (fun pt => (fst pt + x, snd pt + y)) (boundary_points p).

(** *** [Sheet.fits], [Sheet.try_add_panel] and [Sheet.add] *)

Definition PSheet : Type := Sheet PlanarPanel.

Fixpoint planar_fits_indices (ps : list (PlanarPanel * Q * Q))
  (x y pw ph : Q) (panel_points : list Point)
  (idxs : list nat) (checked : list nat) : result (bool * list nat) :=
  match idxs with
  | [] => Ok (true, checked)
  | panel_idx :: rest =>
      if existsb (Nat.eqb panel_idx) checked
      then planar_fits_indices ps x y pw ph panel_points rest checked
      else
        let checked' := panel_idx :: checked in
        '(p, px, py) <- list_get ps panel_idx ;;
        if rect_overlap x y pw ph px py
                        (planar_placed_width kerf p) (planar_placed_height kerf p)
        then
          hit <- _check_polygon_collision
                   panel_points (get_transformed_boundary_points p px py) ;;
          if hit then Ok (false, checked')
          else planar_fits_indices ps x y pw ph panel_points rest checked'
        else planar_fits_indices ps x y pw ph panel_points rest checked'
  end.

Fixpoint planar_fits_cells (s : PSheet) (x y pw ph : Q)
  (panel_points : list Point) (cells : list (nat * nat)) (checked : list nat)
  : result bool :=
  match cells with
  | [] => Ok true
  | (row, col) :: rest =>
      idxs <- grid_get (grid s) row col ;;
      '(ok, checked') <-
        planar_fits_indices (panels s) x y pw ph panel_points idxs checked ;;
      if ok then planar_fits_cells s x y pw ph panel_points rest checked'
      else Ok false
  end.

Definition planar_fits (s : PSheet) (panel : PlanarPanel) (x y : Q)
  : result bool :=
  let pw := planar_placed_width kerf panel in
  let ph := planar_placed_height kerf panel in
  if out_of_bounds (s_w s) (s_h s) x y pw ph then Ok false
  else
    cells <- _get_grid_cells s x y pw ph ;;
    planar_fits_cells s x y pw ph (get_transformed_boundary_points panel x y)
                      cells [].

Definition planar_add_corner_positions (acc : list Position)
  (e : PlanarPanel * Q * Q) : list Position :=
  let '(p, px, py) := e in
  let pw := planar_placed_width kerf p in
  let ph := planar_placed_height kerf p in
  set_add (px + pw, 0)
    (set_add (0, py + ph)
      (set_add (px + pw, py + ph)
        (set_add (px, py + ph)
          (set_add (px + pw, py) acc)))).

Definition planar_get_candidate_positions (s : PSheet) : list Position :=
  match panels s with
  | [] => [(0, 0)]
  | _ =>
      let from_skyline :=
        fold_left (add_skyline_positions (s_w s)) (firstn 30 (skyline s)) [] in
      let positions :=
        fold_left planar_add_corner_positions (panels s) from_skyline in
      sort_by pos_le (filter (pos_valid (s_w s) (s_h s)) positions)
  end.

Record PlanarBest : Type := mkPlanarBest {
  pb_position : option Position;
  pb_waste : option Q;
  pb_rotated : nat
}.

(** The inner loop over the positions for one value of [rotation_count]. *)
Fixpoint planar_scan (s : PSheet) (panel : PlanarPanel) (rotation_count : nat)
  (positions : list Position) (b : PlanarBest) : result PlanarBest :=
  match positions with
  | [] => Ok b
  | pos :: rest =>
      f <- planar_fits s panel (fst pos) (snd pos) ;;
      let b' :=
        if f then
          let waste := snd pos + planar_placed_height kerf panel in
          if better waste (pb_waste b)
          then mkPlanarBest (Some pos) (Some waste) rotation_count
          else b
        else b in
      planar_scan s panel rotation_count rest b'
  end.

(** The outer loop [for rotation_count in range(4)], rotating the panel
    after each scan. *)
Fixpoint planar_rotations (s : PSheet) (panel : PlanarPanel)
  (counts : list nat) (positions : list Position) (b : PlanarBest)
  : result (PlanarBest * PlanarPanel) :=
  match counts with
  | [] => Ok (b, panel)
  | rotation_count :: rest =>
      b' <- planar_scan s panel rotation_count positions b ;;
      planar_rotations s (planar_rotate panel) rest positions b'
  end.

Definition planar_try_add_panel (s : PSheet) (panel : PlanarPanel)
  : result (bool * Q * Q * nat * PlanarPanel) :=
  let positions := sample_positions (planar_get_candidate_positions s) in
  '(b, panel') <-
    planar_rotations s panel (seq 0 4) positions (mkPlanarBest None None 0) ;;
  match pb_position b with
  | Some pos => Ok (true, fst pos, snd pos, pb_rotated b, panel')
  | None => Ok (false, 0, 0, 0%nat, panel')
  end.

Definition planar_add (s : PSheet) (panel : PlanarPanel)
  : result (bool * PSheet * PlanarPanel) :=
  '(success, x, y, rotations_needed, panel') <- planar_try_add_panel s panel ;;
  if success then
    let current_rotation := (rotation_angle panel' / 90)%Z in
    let additional_rotations :=
      ((Z.of_nat rotations_needed - current_rotation) mod 4)%Z in
    let panel'' :=
      Nat.iter (Z.to_nat additional_rotations) planar_rotate panel' in
    s' <- planar_place s panel'' x y ;;
    Ok (true, s', panel'')
  else Ok (false, s, panel').

End Planar.

(* ------------------------------------------------------------------ *)
(** ** The guillotine variant ([test_nesting.py]) *)

Module Guillotine.

Inductive RotationConstraint := NO_ROTATION | ROTATION_90_ALLOWED.
Inductive PanelGrainDirection := MATCH_SHEET | FIXED_HORIZONTAL | FIXED_VERTICAL.
Inductive SheetGrainDirection := SHEET_HORIZONTAL | SHEET_VERTICAL.
Inductive CutOrientation := CUT_HORIZONTAL | CUT_VERTICAL.
Inductive PanelSortStrategy :=
  LARGEST_FIRST | SMALLEST_FIRST | AREA_DESCENDING | AREA_ASCENDING.

(** The strings ["Horizontal"] and ["Vertical"] of [final_grain_direction]. *)
Inductive GrainName := Horizontal | Vertical.

Record Panel : Type := mkPanel {
  width : Q;
  height : Q;
  rotation_constraint : RotationConstraint;
  grain_direction : PanelGrainDirection;
  id : nat;
  tag : String.string
}.

Definition area (p : Panel) : Q := width p * height p.
Definition max_dimension (p : Panel) : Q := Qmax (width p) (height p).
Definition min_dimension (p : Panel) : Q := Qmin (width p) (height p).

Record PlacedPanel : Type := mkPlacedPanel {
  pp_panel : Panel;
  pp_x : Q;
  pp_y : Q;
  pp_width : Q;
  pp_height : Q;
  rotation_degrees : Z;
  pp_final_grain_direction : GrainName;
  pp_sheet_index : nat
}.

Record SubSheet : Type := mkSubSheet {
  ss_x : Q;
  ss_y : Q;
  ss_width : Q;
  ss_height : Q;
  level : nat;
  parent_cut_id : Z;
  ss_sheet_index : nat
}.

Definition ss_area (s : SubSheet) : Q := ss_width s * ss_height s.

Definition can_fit (s : SubSheet) (panel_width panel_height : Q) : bool :=
  Qleb panel_width (ss_width s + epsilon)
  && Qleb panel_height (ss_height s + epsilon).

Record CutLine : Type := mkCutLine {
  cut_id : nat;
  orientation : CutOrientation;
  position : Q;
  cut_start : Q;
  cut_end : Q;
  cut_kerf_thickness : Q;
  cut_sheet_index : nat
}.

Record PanelPlacement : Type := mkPanelPlacement {
  pl_panel : Panel;
  pl_sub_sheet : SubSheet;
  pl_rotated : bool;
  pl_width : Q;
  pl_height : Q;
  pl_final_grain_direction : GrainName
}.

(** The object state of [BeamSawNestingAlgorithm]. *)
Record BeamSawNestingAlgorithm : Type := mkAlgo {
  sheet_width : Q;
  sheet_height : Q;
  sheet_grain : SheetGrainDirection;
  kerf_thickness : Q;
  preferred_cut_orientation : CutOrientation;
  sort_strategy : PanelSortStrategy;
  placed_panels : list PlacedPanel;
  remaining_sub_sheets : list SubSheet;
  cut_lines : list CutLine;
  current_sheet_index : nat;
  next_cut_id : nat
}.

Definition init (sheet_width sheet_height : Q)
  (sheet_grain : SheetGrainDirection) (kerf_thickness : Q)
  (preferred_cut : CutOrientation) (sort_strategy : PanelSortStrategy)
  : BeamSawNestingAlgorithm :=
  mkAlgo sheet_width sheet_height sheet_grain kerf_thickness preferred_cut
         sort_strategy [] [] [] 0 0.

Definition set_state (a : BeamSawNestingAlgorithm)
  (pp : list PlacedPanel) (rs : list SubSheet) (cl : list CutLine)
  (csi nci : nat) : BeamSawNestingAlgorithm :=
  mkAlgo (sheet_width a) (sheet_height a) (sheet_grain a) (kerf_thickness a)
         (preferred_cut_orientation a) (sort_strategy a) pp rs cl csi nci.

Definition _sort_panels (a : BeamSawNestingAlgorithm) (ps : list Panel)
  : list Panel :=
  match sort_strategy a with
  | LARGEST_FIRST =>
      sort_by (fun p q => Qleb (max_dimension q) (max_dimension p)) ps
  | SMALLEST_FIRST =>
      sort_by (fun p q => Qleb (max_dimension p) (max_dimension q)) ps
  | AREA_DESCENDING => sort_by (fun p q => Qleb (area q) (area p)) ps
  | AREA_ASCENDING => sort_by (fun p q => Qleb (area p) (area q)) ps
  end.

Definition _add_new_sheet (a : BeamSawNestingAlgorithm)
  : BeamSawNestingAlgorithm :=
  let csi :=
    if ((0 <? length (remaining_sub_sheets a))
        || (0 <? length (placed_panels a)))%nat
    then S (current_sheet_index a) else current_sheet_index a in
  let new_sheet :=
    mkSubSheet 0 0 (sheet_width a) (sheet_height a) 0 (-1) csi in
  set_state a (placed_panels a) (remaining_sub_sheets a ++ [new_sheet])
            (cut_lines a) csi (next_cut_id a).

Definition is_horizontal (panel : Panel) (rotated : bool) : bool :=
  (negb rotated && Qleb (height panel) (width panel))
  || (rotated && Qleb (width panel) (height panel)).

Definition _validate_grain_direction (a : BeamSawNestingAlgorithm)
  (panel : Panel) (rotated : bool) : option GrainName :=
  let horizontal := is_horizontal panel rotated in
  match grain_direction panel with
  | MATCH_SHEET =>
      match sheet_grain a with
      | SHEET_HORIZONTAL => if negb horizontal then None else Some Horizontal
      | SHEET_VERTICAL => if horizontal then None else Some Vertical
      end
  | FIXED_HORIZONTAL => if negb horizontal then None else Some Horizontal
  | FIXED_VERTICAL => if horizontal then None else Some Vertical
  end.

Definition _can_place_panel_in_sub_sheet (a : BeamSawNestingAlgorithm)
  (panel : Panel) (sub_sheet : SubSheet) (rotate : bool)
  : option PanelPlacement :=
  let panel_w := if rotate then height panel else width panel in
  let panel_h := if rotate then width panel else height panel in
  if negb (can_fit sub_sheet panel_w panel_h) then None
  else
    match _validate_grain_direction a panel rotate with
    | None => None
    | Some final_grain_dir =>
        Some (mkPanelPlacement panel sub_sheet rotate panel_w panel_h
                               final_grain_dir)
    end.

(** Equality of the dataclass [SubSheet], field by field. *)
Definition sub_sheet_eqb (s t : SubSheet) : bool :=
  Qeqb (ss_x s) (ss_x t) && Qeqb (ss_y s) (ss_y t)
  && Qeqb (ss_width s) (ss_width t) && Qeqb (ss_height s) (ss_height t)
  && Nat.eqb (level s) (level t)
  && Z.eqb (parent_cut_id s) (parent_cut_id t)
  && Nat.eqb (ss_sheet_index s) (ss_sheet_index t).

(** [list.remove(x)]: drops the first element equal to [x]; Python raises
    [ValueError] when there is none ([None] here). *)
Fixpoint list_remove (x : SubSheet) (l : list SubSheet)
  : option (list SubSheet) :=
  match l with
  | [] => None
  | y :: l' =>
      if sub_sheet_eqb y x then Some l'
      else match list_remove x l' with
           | Some l'' => Some (y :: l'')
           | None => None
           end
  end.

Definition h_cut_top (a : BeamSawNestingAlgorithm) (sub_sheet : SubSheet)
  (used_height remaining_height span_end top_width : Q)
  : CutLine * SubSheet :=
  let cut_y := ss_y sub_sheet + used_height in
  let h_cut :=
    mkCutLine (next_cut_id a) CUT_HORIZONTAL cut_y (ss_x sub_sheet) span_end
              (kerf_thickness a) (ss_sheet_index sub_sheet) in
  (h_cut,
   mkSubSheet (ss_x sub_sheet) (cut_y + kerf_thickness a) top_width
              remaining_height (S (level sub_sheet))
              (Z.of_nat (cut_id h_cut)) (ss_sheet_index sub_sheet)).

Definition v_cut_right (a : BeamSawNestingAlgorithm) (sub_sheet : SubSheet)
  (used_width remaining_width span_end right_height : Q)
  : CutLine * SubSheet :=
  let cut_x := ss_x sub_sheet + used_width in
  let v_cut :=
    mkCutLine (next_cut_id a) CUT_VERTICAL cut_x (ss_y sub_sheet) span_end
              (kerf_thickness a) (ss_sheet_index sub_sheet) in
  (v_cut,
   mkSubSheet (cut_x + kerf_thickness a) (ss_y sub_sheet) remaining_width
              right_height (S (level sub_sheet))
              (Z.of_nat (cut_id v_cut)) (ss_sheet_index sub_sheet)).

(** [self.cut_lines.append(cut); self.next_cut_id += 1;
    self.remaining_sub_sheets.append(sheet)] *)
Definition record_cut (a : BeamSawNestingAlgorithm)
  (cs : CutLine * SubSheet) : BeamSawNestingAlgorithm :=
  set_state a (placed_panels a) (remaining_sub_sheets a ++ [snd cs])
            (cut_lines a ++ [fst cs]) (current_sheet_index a)
            (S (next_cut_id a)).

Definition _perform_guillotine_cut (a : BeamSawNestingAlgorithm)
  (sub_sheet : SubSheet) (used_width used_height : Q)
  : BeamSawNestingAlgorithm :=
  let remaining_width := ss_width sub_sheet - used_width - kerf_thickness a in
  let remaining_height := ss_height sub_sheet - used_height - kerf_thickness a in
  let cut_horizontal_first :=
    if Qltb epsilon (Qabs (remaining_width - remaining_height))
    then Qltb remaining_width remaining_height
    else match preferred_cut_orientation a with
         | CUT_HORIZONTAL => true
         | CUT_VERTICAL => false
         end in
  if cut_horizontal_first then
    let a1 :=
      if Qltb epsilon remaining_height
      then record_cut a
             (h_cut_top a sub_sheet used_height remaining_height
                        (ss_x sub_sheet + ss_width sub_sheet)
                        (ss_width sub_sheet))
      else a in
    if Qltb epsilon remaining_width
    then record_cut a1
           (v_cut_right a1 sub_sheet used_width remaining_width
                        (ss_y sub_sheet + used_height) used_height)
    else a1
  else
    let a1 :=
      if Qltb epsilon remaining_width
      then record_cut a
             (v_cut_right a sub_sheet used_width remaining_width
                          (ss_y sub_sheet + ss_height sub_sheet)
                          (ss_height sub_sheet))
      else a in
    if Qltb epsilon remaining_height
    then record_cut a1
           (h_cut_top a1 sub_sheet used_height remaining_height
                      (ss_x sub_sheet + used_width) used_width)
    else a1.

(** [None] is the [ValueError] of [remove]. *)
Definition _place_panel (a : BeamSawNestingAlgorithm) (panel : Panel)
  (sub_sheet : SubSheet) (placement : PanelPlacement)
  : option BeamSawNestingAlgorithm :=
  let placed :=
    mkPlacedPanel panel (ss_x sub_sheet) (ss_y sub_sheet)
                  (pl_width placement) (pl_height placement)
                  (if pl_rotated placement then 90 else 0)%Z
                  (pl_final_grain_direction placement)
                  (ss_sheet_index sub_sheet) in
  match list_remove sub_sheet (remaining_sub_sheets a) with
  | None => None
  | Some rs =>
      let a1 := set_state a (placed_panels a ++ [placed]) rs (cut_lines a)
                          (current_sheet_index a) (next_cut_id a) in
      Some (_perform_guillotine_cut a1 sub_sheet (pl_width placement)
                                    (pl_height placement))
  end.

(** The loop of [_try_place_panel] over the sorted sub-sheets: the chosen
    sub-sheet and placement, if any. *)
Fixpoint find_placement (a : BeamSawNestingAlgorithm) (panel : Panel)
  (sorted_sub_sheets : list SubSheet) : option (SubSheet * PanelPlacement) :=
  match sorted_sub_sheets with
  | [] => None
  | sub_sheet :: rest =>
      match _can_place_panel_in_sub_sheet a panel sub_sheet false with
      | Some placement => Some (sub_sheet, placement)
      | None =>
          match rotation_constraint panel with
          | ROTATION_90_ALLOWED =>
              match _can_place_panel_in_sub_sheet a panel sub_sheet true with
              | Some placement => Some (sub_sheet, placement)
              | None => find_placement a panel rest
              end
          | NO_ROTATION => find_placement a panel rest
          end
      end
  end.

Definition candidate_sub_sheets (a : BeamSawNestingAlgorithm)
  : list SubSheet :=
  sort_by (fun s t => Qleb (ss_area s) (ss_area t))
    (filter (fun s => Nat.eqb (ss_sheet_index s) (current_sheet_index a))
            (remaining_sub_sheets a)).

Definition _try_place_panel (a : BeamSawNestingAlgorithm) (panel : Panel)
  : option (bool * BeamSawNestingAlgorithm) :=
  match find_placement a panel (candidate_sub_sheets a) with
  | Some (sub_sheet, placement) =>
      match _place_panel a panel sub_sheet placement with
      | Some a' => Some (true, a')
      | None => None
      end
  | None => Some (false, a)
  end.

Fixpoint nest_loop (a : BeamSawNestingAlgorithm) (sorted_panels : list Panel)
  : option BeamSawNestingAlgorithm :=
  match sorted_panels with
  | [] => Some a
  | panel :: rest =>
      match _try_place_panel a panel with
      | None => None
      | Some (true, a1) => nest_loop a1 rest
      | Some (false, a1) =>
          match _try_place_panel (_add_new_sheet a1) panel with
          | None => None
          | Some (_, a2) => nest_loop a2 rest
          end
      end
  end.

Definition nest (a : BeamSawNestingAlgorithm) (ps : list Panel)
  : option BeamSawNestingAlgorithm :=
  nest_loop (_add_new_sheet a) (_sort_panels a ps).

End Guillotine.

(* ------------------------------------------------------------------ *)
(** ** The nesting driver ([nest_panels], hybrid)

    [print] calls are recorded in a log.  [sqrt_float] stands for the float
    operation [** 0.5]. *)

Inductive Msg : Type :=
| ErrCouldNotPlace (sheet_w sheet_h : Q)
| WarnCannotPlace (panel_id : nat)
| ErrTooManyIterations (unplaced : nat).

Section Driver.

Variable kerf : Q.
Variable sqrt_float : Q -> Q.

Definition SheetSize : Type := (Q * Q * nat)%type.

Record DriverState : Type := mkDriver {
  sheets : list (HSheet);
  remaining : list Panel;
  iteration : nat;
  log : list Msg
}.

(** [l.pop(i)] *)
Fixpoint list_pop {A : Type} (l : list A) (i : nat) : result (list A) :=
  match l, i with
  | [], _ => Raise IndexError
  | _ :: l', O => Ok l'
  | a :: l', S i' => l'' <- list_pop l' i' ;; Ok (a :: l'')
  end.

(** [for i in reversed(sorted(placed_indices)): remaining.pop(i)] *)
Fixpoint pop_all {A : Type} (l : list A) (idxs : list nat) : result (list A) :=
  match idxs with
  | [] => Ok l
  | i :: rest => l' <- list_pop l i ;; pop_all l' rest
  end.

Definition remove_placed {A : Type} (l : list A) (placed_indices : list nat)
  : result (list A) :=
  pop_all l (rev (sort_by Nat.leb placed_indices)).

(** The loop [for i, panel in enumerate(remaining)] that fills one sheet;
    [skip] holds the positions placed on earlier sheets ([[]] for a new
    sheet).  Returns the sheet, the list [remaining] with the placed
    copies written back, and the positions placed on this sheet. *)
Fixpoint fill_sheet (sheet : HSheet) (items : list (nat * Panel))
  (rem : list Panel) (skip sheet_placed : list nat)
  : result (HSheet * list Panel * list nat) :=
  match items with
  | [] => Ok (sheet, rem, sheet_placed)
  | (i, panel) :: rest =>
      if existsb (Nat.eqb i) skip
      then fill_sheet sheet rest rem skip sheet_placed
      else
        '(ok, sheet', panel_copy) <- add kerf sheet (copy panel) ;;
        if ok then
          rem' <- list_update rem i (fun _ => Ok panel_copy) ;;
          let sheet_placed' := sheet_placed ++ [i] in
          stop <- should_stop_adding sheet' ;;
          if stop then Ok (sheet', rem', sheet_placed')
          else fill_sheet sheet' rest rem' skip sheet_placed'
        else fill_sheet sheet' rest rem skip sheet_placed
  end.

(** The loop [for sheet in sheets] of one iteration. *)
Fixpoint fill_existing (todo : list HSheet) (done : list HSheet)
  (rem : list Panel) (placed_indices : list nat)
  : result (list HSheet * list Panel * list nat) :=
  match todo with
  | [] => Ok (done, rem, placed_indices)
  | sheet :: rest =>
      stop <- should_stop_adding sheet ;;
      if stop then fill_existing rest (done ++ [sheet]) rem placed_indices
      else
        '(sheet', rem', sheet_placed) <-
          fill_sheet sheet (enumerate rem) rem placed_indices [] ;;
        fill_existing rest (done ++ [sheet']) rem'
                      (placed_indices ++ sheet_placed)
  end.

(** The trial loop over [remaining[:test_limit]] on a fresh test sheet. *)
Fixpoint test_config (test_sheet : HSheet) (sheet_w sheet_h : Q)
  (ps : list Panel) (test_area : Q) (test_count : nat) : result (Q * nat) :=
  match ps with
  | [] => Ok (test_area, test_count)
  | panel :: rest =>
      '(success, _, _, _, test_panel) <-
        try_add_panel kerf test_sheet (copy panel) ;;
      if success then
        let test_count' := S test_count in
        let test_area' := test_area + parea test_panel in
        ratio <- py_div test_area' (sheet_w * sheet_h) ;;
        if Qltb (9 # 10) ratio then Ok (test_area', test_count')
        else test_config test_sheet sheet_w sheet_h rest test_area' test_count'
      else test_config test_sheet sheet_w sheet_h rest test_area test_count
  end.

Definition Config : Type := (Q * Q * nat)%type.

Definition score_orientation (avg : Q) (rem : list Panel) (test_limit : nat)
  (w h sheet_w sheet_h : Q) (tid : nat) (best : option Config * Q)
  : result (option Config * Q) :=
  if Qeqb sheet_w sheet_h && negb (Qeqb w sheet_w && Qeqb h sheet_h)
  then Ok best
  else
    let test_sheet := Sheet_init Panel sheet_w sheet_h tid (Some avg) in
    '(test_area, test_count) <-
      test_config test_sheet sheet_w sheet_h (firstn test_limit rem) 0 0 ;;
    if (0 <? test_count)%nat then
      fill_ratio <- py_div test_area (sheet_w * sheet_h) ;;
      let panel_ratio :=
        inject_Z (Z.of_nat test_count)
        / inject_Z (Z.of_nat (Nat.max 1 (Nat.min (length rem) test_limit))) in
      let score :=
        (fill_ratio * 2 + panel_ratio) * inject_Z (Z.of_nat test_count) in
      if Qltb (snd best) score
      then Ok (Some (sheet_w, sheet_h, tid), score)
      else Ok best
    else Ok best.

Fixpoint find_best_config (avg : Q) (rem : list Panel) (test_limit : nat)
  (sizes : list SheetSize) (best : option Config * Q)
  : result (option Config * Q) :=
  match sizes with
  | [] => Ok best
  | (w, h, tid) :: rest =>
      best1 <- score_orientation avg rem test_limit w h w h tid best ;;
      best2 <- score_orientation avg rem test_limit w h h w tid best1 ;;
      find_best_config avg rem test_limit rest best2
  end.

(** The last-resort loop over the sheet sizes sorted by area: the new
    sheet holding [remaining[0]], if one accepts it. *)
Fixpoint last_resort (avg : Q) (panel : Panel) (sizes : list SheetSize)
  : result (option HSheet) :=
  match sizes with
  | [] => Ok None
  | (w, h, tid) :: rest =>
      if Qleb (pw_ panel) w && Qleb (ph_ panel) h then
        let new_sheet := Sheet_init Panel w h tid (Some avg) in
        '(ok, new_sheet', _) <- add kerf new_sheet (copy panel) ;;
        if ok then Ok (Some new_sheet') else last_resort avg panel rest
      else if Qleb (ph_ panel) w && Qleb (pw_ panel) h then
        let panel_copy := rotate (copy panel) in
        let new_sheet := Sheet_init Panel w h tid (Some avg) in
        '(ok, new_sheet', _) <- add kerf new_sheet panel_copy ;;
        if ok then Ok (Some new_sheet') else last_resort avg panel rest
      else last_resort avg panel rest
  end.

Inductive Flow : Type :=
| Continue (d : DriverState)
| Break (d : DriverState).

(** One pass of the [while] body up to, and without, the safety check. *)
Definition loop_work (avg : Q) (sheet_sizes : list SheetSize)
  (d : DriverState) : result Flow :=
  let iteration' := S (iteration d) in
  '(sheets1, rem1, placed_indices) <-
    fill_existing (sheets d) [] (remaining d) [] ;;
  rem2 <- match placed_indices with
          | [] => Ok rem1
          | _ => remove_placed rem1 placed_indices
          end ;;
  match rem2 with
  | [] => Ok (Break (mkDriver sheets1 rem2 iteration' (log d)))
  | first :: _ =>
      let n := length rem2 in
      let test_limit := Nat.min n (if (50 <? n)%nat then 20%nat else n) in
      '(best_config, _) <-
        find_best_config avg rem2 test_limit sheet_sizes (None, - (1)) ;;
      match best_config with
      | Some (sheet_w, sheet_h, tid) =>
          let new_sheet := Sheet_init Panel sheet_w sheet_h tid (Some avg) in
          '(new_sheet', rem3, placed) <-
            fill_sheet new_sheet (enumerate rem2) rem2 [] [] ;;
          match placed with
          | [] =>
              Ok (Break (mkDriver sheets1 rem3 iteration'
                           (log d ++ [ErrCouldNotPlace sheet_w sheet_h])))
          | _ =>
              rem4 <- remove_placed rem3 placed ;;
              Ok (Continue (mkDriver (sheets1 ++ [new_sheet']) rem4
                              iteration' (log d)))
          end
      | None =>
          let sorted_sizes :=
            sort_by (fun s t : SheetSize =>
                       Qleb (fst (fst s) * snd (fst s))
                            (fst (fst t) * snd (fst t)))
                    sheet_sizes in
          r <- last_resort avg first sorted_sizes ;;
          rem3 <- list_pop rem2 0 ;;
          match r with
          | Some new_sheet =>
              Ok (Continue (mkDriver (sheets1 ++ [new_sheet]) rem3
                              iteration' (log d)))
          | None =>
              Ok (Continue (mkDriver sheets1 rem3 iteration'
                              (log d ++ [WarnCannotPlace (pid first)])))
          end
      end
  end.

(** [if iteration > len(panels) * 2: print(...); break] *)
Definition safety_check (n_panels : nat) (d : DriverState) : Flow :=
  if (n_panels * 2 <? iteration d)%nat
  then Break (mkDriver (sheets d) (remaining d) (iteration d)
                (log d ++ [ErrTooManyIterations (length (remaining d))]))
  else Continue d.

Definition loop_body (avg : Q) (sheet_sizes : list SheetSize)
  (n_panels : nat) (d : DriverState) : result Flow :=
  f <- loop_work avg sheet_sizes d ;;
  match f with
  | Continue d' => Ok (safety_check n_panels d')
  | Break d' => Ok (Break d')
  end.

(** The [while remaining:] loop.  [None] means the fuel ran out; otherwise
    the number of passes started and how the loop ended. *)
Fixpoint nest_loop (fuel : nat) (avg : Q) (sheet_sizes : list SheetSize)
  (n_panels : nat) (passes : nat) (d : DriverState)
  : option (nat * result DriverState) :=
  match fuel with
  | O => None
  | S fuel' =>
      match remaining d with
      | [] => Some (passes, Ok d)
      | _ =>
          match loop_body avg sheet_sizes n_panels d with
          | Raise e => Some (S passes, Raise e)
          | Ok (Break d') => Some (S passes, Ok d')
          | Ok (Continue d') =>
              nest_loop fuel' avg sheet_sizes n_panels (S passes) d'
          end
      end
  end.

Definition sum_area (ps : list Panel) : Q :=
  fold_left (fun acc p => acc + parea p) ps 0.

Definition panel_key_ge (p q : Panel) : bool :=
  pair_le (ph_ q) (pw_ q) (ph_ p) (pw_ p).

Definition nest_panels (fuel : nat) (ps : list Panel)
  (sheet_sizes : list SheetSize) : option (nat * result DriverState) :=
  match ps with
  | [] => Some (O, Ok (mkDriver [] [] 0 []))
  | _ =>
      let total_area := sum_area ps in
      let avg_panel_size :=
        sqrt_float (total_area / inject_Z (Z.of_nat (length ps))) in
      let sorted := sort_by panel_key_ge ps in
      nest_loop fuel avg_panel_size sheet_sizes (length sorted) O
                (mkDriver [] sorted 0 [])
  end.

End Driver.

(* ================================================================== *)
(** * Properties *)

(** ** Float comparisons as order facts *)

Lemma Qleb_le (a b : Q) : Qleb a b = true <-> a <= b.
Proof. apply Qle_bool_iff. Qed.

Lemma Qleb_gt (a b : Q) : Qleb a b = false <-> b < a.
Proof.
  unfold Qleb. split; intro H.
  - apply Qnot_le_lt. intro L. apply Qle_bool_iff in L. congruence.
  - destruct (Qle_bool a b) eqn:E; [|reflexivity].
    apply Qle_bool_iff in E. exfalso. apply (Qlt_not_le _ _ H E).
Qed.

Lemma Qltb_lt (a b : Q) : Qltb a b = true <-> a < b.
Proof.
  unfold Qltb. rewrite negb_true_iff. apply (Qleb_gt b a).
Qed.

Lemma Qltb_ge (a b : Q) : Qltb a b = false <-> b <= a.
Proof.
  unfold Qltb. rewrite negb_false_iff. apply (Qleb_le b a).
Qed.

Lemma Qeqb_eq (a b : Q) : Qeqb a b = true <-> a == b.
Proof. apply Qeq_bool_iff. Qed.

Lemma Qeqb_neq (a b : Q) : Qeqb a b = false <-> ~ a == b.
Proof.
  unfold Qeqb. split; intro H.
  - intro E. apply Qeq_bool_iff in E. congruence.
  - destruct (Qeq_bool a b) eqn:E; [|reflexivity].
    apply Qeq_bool_iff in E. contradiction.
Qed.

(** Turn every boolean comparison in the context and the goal into the
    corresponding order fact, so that [lra] can finish. *)
Ltac qbool :=
  repeat match goal with
  | H : _ && _ = true |- _ => apply andb_true_iff in H; destruct H
  | H : _ || _ = false |- _ => apply orb_false_iff in H; destruct H
  | H : negb _ = true |- _ => apply negb_true_iff in H
  | H : negb _ = false |- _ => apply negb_false_iff in H
  | H : Qleb _ _ = true |- _ => apply Qleb_le in H
  | H : Qleb _ _ = false |- _ => apply Qleb_gt in H
  | H : Qltb _ _ = true |- _ => apply Qltb_lt in H
  | H : Qltb _ _ = false |- _ => apply Qltb_ge in H
  | H : Qeqb _ _ = true |- _ => apply Qeqb_eq in H
  | H : Qeqb _ _ = false |- _ => apply Qeqb_neq in H
  end.

Lemma Qmax_ub_l (a b : Q) : a <= Qmax a b.
Proof. unfold Qmax. destruct (Qltb a b) eqn:E; qbool; lra. Qed.

Lemma Qmax_ub_r (a b : Q) : b <= Qmax a b.
Proof. unfold Qmax. destruct (Qltb a b) eqn:E; qbool; lra. Qed.

(* ------------------------------------------------------------------ *)
(** ** Rotation *)

Lemma rotate_rotate (p : Panel) : rotate (rotate p) = p.
Proof.
  destruct p as [ow oh w h a r i t]. unfold rotate; simpl.
  now rewrite negb_involutive.
Qed.

(** After any number of quarter turns from a fresh shape-bearing panel the
    angle is one of 0, 90, 180, 270 and the flag says whether it is not 0. *)
Definition planar_ok (p : PlanarPanel) : Prop :=
  (0 <= rotation_angle p < 360)%Z /\
  pl_rotated p = negb (rotation_angle p =? 0)%Z.

Lemma planar_rotate_ok (p : PlanarPanel) : planar_ok (planar_rotate p).
Proof.
  unfold planar_ok, planar_rotate; simpl. split; [|reflexivity].
  apply Z.mod_pos_bound. lia.
Qed.

Lemma planar_iter_ok (w h area : Q) (pts : list (Q * Q)) (id n : nat) :
  planar_ok (Nat.iter n planar_rotate (PlanarPanel_init w h area pts id)).
Proof.
  destruct n as [|n]; simpl.
  - unfold planar_ok; simpl. split; [lia | reflexivity].
  - apply planar_rotate_ok.
Qed.

Lemma quarter_turns_angle (a : Z) :
  (0 <= a < 360)%Z ->
  (((((a + 90) mod 360 + 90) mod 360 + 90) mod 360 + 90) mod 360 = a)%Z.
Proof.
  intro Ha. Z.div_mod_to_equations. lia.
Qed.

(** C9. Rotating a panel four times in a row restores it: a rectangular panel
    is the same record again, and a shape-bearing panel, in any state it can
    reach from its constructor, has the width, height, rotated flag and
    rotation angle it had before the four calls. *)
Theorem rotation_round_trip :
  (forall p : Panel, rotate (rotate (rotate (rotate p))) = p) /\
  (forall (w h area : Q) (pts : list (Q * Q)) (id n : nat),
      let p := Nat.iter n planar_rotate (PlanarPanel_init w h area pts id) in
      let q := planar_rotate (planar_rotate (planar_rotate (planar_rotate p))) in
      pl_w q = pl_w p /\ pl_h q = pl_h p /\
      pl_rotated q = pl_rotated p /\ rotation_angle q = rotation_angle p).
Proof.
  split.
  - intro p. now rewrite !rotate_rotate.
  - intros w h area pts id n p q.
    destruct (planar_iter_ok w h area pts id n) as [Hr Hf].
    fold p in Hr, Hf.
    assert (Ha : rotation_angle q = rotation_angle p).
    { unfold q, planar_rotate; simpl. now apply quarter_turns_angle. }
    repeat split; try reflexivity; try exact Ha.
    rewrite Hf, <- Ha. reflexivity.
Qed.

(* ------------------------------------------------------------------ *)
(** ** Pruning of free rectangles *)

Definition same_rect (r q : FreeRectangle) : Prop :=
  fx r == fx q /\ fy r == fy q /\ fw r == fw q /\ fh r == fh q.


Lemma in_enumerate_from {A : Type} (l : list A) (n k : nat) (a : A) :
  In (k, a) (enumerate_from n l) <->
  exists m, k = (n + m)%nat /\ nth_error l m = Some a.
Proof.
  revert n. induction l as [|b l IH]; intro n; simpl.
  - split; [tauto | intros (m & _ & H); destruct m; discriminate].
  - split.
    + intros [H | H].
      * inversion H; subst. exists 0%nat. split; [lia | reflexivity].
      * apply IH in H. destruct H as (m & -> & Hm).
        exists (S m). split; [lia | exact Hm].
    + intros (m & -> & Hm). destruct m as [|m]; simpl in Hm.
      * left. inversion Hm; subst. f_equal. lia.
      * right. apply IH. exists m. split; [lia | exact Hm].
Qed.

Lemma in_enumerate {A : Type} (l : list A) (k : nat) (a : A) :
  In (k, a) (enumerate l) <-> nth_error l k = Some a.
Proof.
  unfold enumerate. rewrite in_enumerate_from. split.
  - intros (m & -> & H). exact H.
  - intro H. exists k. split; [reflexivity | exact H].
Qed.










Definition dup_rect : FreeRectangle := mkFree 0 0 10 5.


(** The two copies of a 10 x 5 region prune to the empty index. *)
Example prune_pair_is_empty :
  _prune_free_rects [dup_rect; dup_rect] = [] /\
  _prune_free_rects [dup_rect; mkFree 20 0 5 5; dup_rect] = [mkFree 20 0 5 5].
Proof. split; reflexivity. Qed.

(* ------------------------------------------------------------------ *)
(** ** Stable insertion sort *)

Section SortFacts.

Context {A : Type}.
Variable le : A -> A -> bool.
Hypothesis le_total : forall a b, le a b = false -> le b a = true.
Hypothesis le_trans : forall a b c, le a b = true -> le b c = true -> le a c = true.

Let R (a b : A) : Prop := le a b = true.

Lemma insert_by_perm (x : A) (l : list A) :
  Permutation (x :: l) (insert_by le x l).
Proof.
  induction l as [|y l IH]; simpl.
  - apply Permutation_refl.
  - destruct (le x y).
    + apply Permutation_refl.
    + eapply Permutation_trans; [apply perm_swap|].
      now apply perm_skip.
Qed.

Lemma sort_by_perm (l : list A) : Permutation l (sort_by le l).
Proof.
  induction l as [|x l IH]; simpl.
  - apply Permutation_refl.
  - eapply Permutation_trans; [|apply insert_by_perm].
    now apply perm_skip.
Qed.

Lemma insert_by_sorted (x : A) (l : list A) :
  StronglySorted R l -> StronglySorted R (insert_by le x l).
Proof.
  induction 1 as [|y l Hs IH Hall]; simpl.
  - constructor; constructor.
  - destruct (le x y) eqn:E.
    + constructor.
      * now constructor.
      * constructor; [exact E|].
        apply Forall_forall. intros z Hz.
        rewrite Forall_forall in Hall.
        apply (le_trans x y z E). now apply Hall.
    + constructor; [exact IH|].
      apply Forall_forall. intros z Hz.
      apply (Permutation_in _ (Permutation_sym (insert_by_perm x l))) in Hz.
      destruct Hz as [<- | Hz].
      * now apply le_total.
      * rewrite Forall_forall in Hall. now apply Hall.
Qed.

Lemma sort_by_sorted (l : list A) : StronglySorted R (sort_by le l).
Proof.
  induction l as [|x l IH]; simpl.
  - constructor.
  - now apply insert_by_sorted.
Qed.

Lemma sort_by_length (l : list A) : length (sort_by le l) = length l.
Proof. symmetry. apply Permutation_length, sort_by_perm. Qed.

End SortFacts.

Lemma strongly_sorted_impl {A : Type} (R S : A -> A -> Prop) (l : list A) :
  (forall a b, R a b -> S a b) -> StronglySorted R l -> StronglySorted S l.
Proof.
  intros HRS. induction 1 as [|a l Hs IH Hall]; constructor.
  - exact IH.
  - eapply Forall_impl; [|exact Hall]. intros b. apply HRS.
Qed.

Lemma strongly_sorted_firstn {A : Type} (R : A -> A -> Prop) (n : nat)
  (l : list A) : StronglySorted R l -> StronglySorted R (firstn n l).
Proof.
  revert n. induction l as [|a l IH]; intros n Hs.
  - rewrite firstn_nil. constructor.
  - destruct n as [|n]; simpl; [constructor|].
    inversion Hs; subst. constructor.
    + now apply IH.
    + apply Forall_forall. intros z Hz.
      match goal with H : Forall _ l |- _ => rewrite Forall_forall in H; apply H end.
      rewrite <- (firstn_skipn n l). apply in_or_app. now left.
Qed.

Lemma strongly_sorted_split {A : Type} (R : A -> A -> Prop) (n : nat)
  (l : list A) (a b : A) :
  StronglySorted R l -> In a (firstn n l) -> In b (skipn n l) -> R a b.
Proof.
  revert n. induction l as [|c l IH]; intros n Hs Ha Hb.
  - rewrite firstn_nil in Ha. contradiction.
  - destruct n as [|n]; simpl in *; [contradiction|].
    inversion Hs as [|? ? Hs' Hall]; subst.
    destruct Ha as [<- | Ha].
    + rewrite Forall_forall in Hall. apply Hall.
      rewrite <- (firstn_skipn n l). apply in_or_app. now right.
    + now apply (IH n).
Qed.

(* ------------------------------------------------------------------ *)
(** ** Skyline *)

Lemma pair_le_iff (a1 b1 a2 b2 : Q) :
  pair_le a1 b1 a2 b2 = true <-> a1 < a2 \/ (a1 == a2 /\ b1 <= b2).
Proof.
  unfold pair_le. rewrite orb_true_iff, andb_true_iff.
  rewrite Qltb_lt, Qeqb_eq, Qleb_le. tauto.
Qed.

Lemma pair_le_total (a1 b1 a2 b2 : Q) :
  pair_le a1 b1 a2 b2 = false -> pair_le a2 b2 a1 b1 = true.
Proof.
  intro H. apply pair_le_iff.
  assert (N : ~ (a1 < a2 \/ (a1 == a2 /\ b1 <= b2))).
  { intro C. apply pair_le_iff in C. congruence. }
  destruct (Qlt_le_dec a2 a1) as [L | L]; [now left|].
  right. split; [|]; destruct (Qlt_le_dec a1 a2) as [L' | L'];
    try (exfalso; apply N; now left).
  - lra.
  - destruct (Qlt_le_dec b1 b2) as [B | B]; [|exact B].
    exfalso. apply N. right. split; lra.
Qed.

Lemma pair_le_trans (a1 b1 a2 b2 a3 b3 : Q) :
  pair_le a1 b1 a2 b2 = true -> pair_le a2 b2 a3 b3 = true ->
  pair_le a1 b1 a3 b3 = true.
Proof.
  rewrite !pair_le_iff.
  intros [H | [H H']] [K | [K K']]; [left | left | left | right; split]; lra.
Qed.

(** The order of the sort key [(s[1], s[0])]. *)
Definition seg_key_le (s t : Segment) : Prop :=
  seg_y s < seg_y t \/ (seg_y s == seg_y t /\ seg_x s <= seg_x t).

Lemma seg_le_iff (s t : Segment) : seg_le s t = true <-> seg_key_le s t.
Proof. apply pair_le_iff. Qed.

Lemma skyline_sorted_is_sorted (sky : list Segment) (x y w h : Q) :
  StronglySorted seg_key_le (skyline_sorted sky x y w h).
Proof.
  unfold skyline_sorted.
  destruct (skyline_scan x w (y + h) sky x w false) as [[kept nx] nw].
  eapply strongly_sorted_impl; [|apply (sort_by_sorted seg_le)].
  - intros s t H. now apply seg_le_iff.
  - intros a b. apply pair_le_total.
  - intros a b c. apply pair_le_trans.
Qed.

Lemma update_skyline_prefix (sky : list Segment) (x y w h : Q) :
  _update_skyline sky x y w h
  = firstn MAX_SKYLINE_SEGMENTS (skyline_sorted sky x y w h).
Proof.
  unfold _update_skyline.
  destruct (MAX_SKYLINE_SEGMENTS <? length (skyline_sorted sky x y w h))%nat eqn:E.
  - reflexivity.
  - apply Nat.ltb_ge in E. symmetry. now apply firstn_all2.
Qed.

Lemma skyline_sorted_perm (sky : list Segment) (x y w h : Q) :
  exists kept nx nw,
    skyline_scan x w (y + h) sky x w false = (kept, nx, nw) /\
    Permutation (kept ++ [(nx, y + h, nw)]) (skyline_sorted sky x y w h).
Proof.
  unfold skyline_sorted.
  destruct (skyline_scan x w (y + h) sky x w false) as [[kept nx] nw].
  exists kept, nx, nw. split; [reflexivity | apply sort_by_perm].
Qed.

(** C8 (as amended). [_update_skyline] sorts the segments the scan has
    kept, together with the new segment, by (y ascending, x ascending), and
    returns the first 100 of them: the whole sorted list when it holds at
    most 100 segments, and otherwise that list cut after its 100th segment.
    So the result is sorted, holds at most 100 segments, and every dropped
    segment sorts after every kept one, whatever its age. *)
Theorem skyline_sorted_and_capped (sky : list Segment) (x y w h : Q) :
  let full := skyline_sorted sky x y w h in
  let result := _update_skyline sky x y w h in
  (exists kept nx nw,
      skyline_scan x w (y + h) sky x w false = (kept, nx, nw) /\
      Permutation (kept ++ [(nx, y + h, nw)]) full) /\
  StronglySorted seg_key_le full /\
  result = firstn 100 full /\
  length result = Nat.min 100 (length full) /\
  ((length full <= 100)%nat -> result = full) /\
  StronglySorted seg_key_le result /\
  (length result <= 100)%nat /\
  exists dropped,
    full = result ++ dropped /\
    length dropped = (length full - 100)%nat /\
    (forall kept d, In kept result -> In d dropped -> seg_key_le kept d).
Proof.
  intros full result. unfold result, full. rewrite update_skyline_prefix.
  change MAX_SKYLINE_SEGMENTS with 100%nat.
  split; [apply skyline_sorted_perm|].
  split; [apply skyline_sorted_is_sorted|].
  split; [reflexivity|].
  split; [apply length_firstn|].
  split; [intro H; now apply firstn_all2|].
  split; [apply strongly_sorted_firstn, skyline_sorted_is_sorted|].
  split; [apply firstn_le_length|].
  exists (skipn 100 (skyline_sorted sky x y w h)). split; [|split].
  - symmetry. apply firstn_skipn.
  - apply length_skipn.
  - intros kept d Hk Hd.
    eapply strongly_sorted_split; eauto using skyline_sorted_is_sorted.
Qed.

(** A skyline of 100 unit segments side by side at height 1. *)
Definition crowded_skyline : list Segment :=
  map (fun i => (inject_Z (Z.of_nat i), 1, 1)) (seq 0 100).

(** C8 (as stated) fails.  The crowded skyline is what 100 placements of a
    1 x 1 footprint at x = 0 .. 99 leave on a sheet of width 200.  One more
    placement at x = 100 yields 101 segments; the update keeps all 100 older
    segments and drops the segment it has just created. *)
Lemma skyline_cap_drops_newest :
  let after := _update_skyline crowded_skyline 100 0 1 1 in
  crowded_skyline
  = fold_left (fun sk i => _update_skyline sk (inject_Z (Z.of_nat i)) 0 1 1)
              (seq 0 100) [(0, 0, 200)] /\
  length (skyline_sorted crowded_skyline 100 0 1 1) = 101%nat /\
  In (100, 1, 1) (skyline_sorted crowded_skyline 100 0 1 1) /\
  after = crowded_skyline /\
  existsb (fun s => Qeqb (seg_x s) 100) after = false.
Proof.
  cbv zeta. split; [|split; [|split; [|split]]].
  - vm_compute. reflexivity.
  - vm_compute. reflexivity.
  - apply (nth_error_In _ 100%nat). vm_compute. reflexivity.
  - vm_compute. reflexivity.
  - vm_compute. reflexivity.
Qed.

(* ------------------------------------------------------------------ *)
(** ** The guillotine variant *)

Module GuillotineFacts.

Import Guillotine.

(** C5. Stock 240 x 120, kerf 5, one panel 54 x 40, sheet grain horizontal,
    panel grain match-sheet: whatever the rotation permission, the preferred
    cut and the sort strategy, [nest] places the panel at (0, 0) unrotated and
    leaves exactly two sub-sheets, the one beside the panel starting at
    x = 54 + 5 with width 240 - 54 - 5 = 181, and the one above it starting
    at y = 40 + 5 with height 120 - 40 - 5 = 75. *)
Theorem guillotine_scenario
  (rc : RotationConstraint) (pc : CutOrientation) (st : PanelSortStrategy)
  (i : nat) (t : String.string) :
  let panel := mkPanel 54 40 rc MATCH_SHEET i t in
  exists a,
    nest (init 240 120 SHEET_HORIZONTAL 5 pc st) [panel] = Some a /\
    placed_panels a = [mkPlacedPanel panel 0 0 54 40 0 Horizontal 0] /\
    remaining_sub_sheets a
    = [mkSubSheet 59 0 181 120 1 0 0; mkSubSheet 0 45 54 75 1 1 0].
Proof.
  intro panel. unfold panel.
  destruct rc, pc, st; eexists; (split; [vm_compute; reflexivity|]);
    split; reflexivity.
Qed.

(** The panel's footprint in a given orientation. *)
Definition eff_width (p : Panel) (rotated : bool) : Q :=
  if rotated then height p else width p.
Definition eff_height (p : Panel) (rotated : bool) : Q :=
  if rotated then width p else height p.

(** The grain rule in the words of the specification: the orientation is
    horizontal exactly when the width is at least the height, and it has to
    agree with the configured constraint. *)
Definition effective_horizontal (p : Panel) (rotated : bool) : Prop :=
  eff_height p rotated <= eff_width p rotated.

Definition grain_satisfied (a : BeamSawNestingAlgorithm) (p : Panel)
  (rotated : bool) : Prop :=
  match grain_direction p with
  | MATCH_SHEET =>
      match sheet_grain a with
      | SHEET_HORIZONTAL => effective_horizontal p rotated
      | SHEET_VERTICAL => ~ effective_horizontal p rotated
      end
  | FIXED_HORIZONTAL => effective_horizontal p rotated
  | FIXED_VERTICAL => ~ effective_horizontal p rotated
  end.

Lemma is_horizontal_iff (p : Panel) (rotated : bool) :
  is_horizontal p rotated = true <-> effective_horizontal p rotated.
Proof.
  unfold is_horizontal, effective_horizontal, eff_width, eff_height.
  destruct rotated; simpl; rewrite ?orb_false_r; apply Qleb_le.
Qed.

Lemma validate_grain_iff (a : BeamSawNestingAlgorithm) (p : Panel)
  (rotated : bool) :
  _validate_grain_direction a p rotated <> None <-> grain_satisfied a p rotated.
Proof.
  unfold _validate_grain_direction, grain_satisfied.
  pose proof (is_horizontal_iff p rotated) as H.
  destruct (grain_direction p); [destruct (sheet_grain a)| |];
    destruct (is_horizontal p rotated); simpl; split; intro K;
    try congruence; try (apply H; reflexivity);
    try (intro C; apply H in C; discriminate);
    try (exfalso; apply K; apply H; reflexivity);
    try (exfalso; apply K; reflexivity).
  all: try (apply H in K; discriminate).
Qed.

Lemma can_place_iff (a : BeamSawNestingAlgorithm) (p : Panel) (s : SubSheet)
  (rotated : bool) :
  _can_place_panel_in_sub_sheet a p s rotated <> None <->
  can_fit s (eff_width p rotated) (eff_height p rotated) = true /\
  grain_satisfied a p rotated.
Proof.
  rewrite <- validate_grain_iff.
  unfold _can_place_panel_in_sub_sheet, eff_width, eff_height.
  destruct (can_fit s _ _); simpl.
  - destruct (_validate_grain_direction a p rotated); split.
    + intros _; split; [reflexivity | discriminate].
    + discriminate.
    + congruence.
    + intros [_ K]. congruence.
  - split; [congruence | intros [K _]; discriminate].
Qed.

Lemma can_place_rotated (a : BeamSawNestingAlgorithm) (p : Panel)
  (s : SubSheet) (rotated : bool) (pl : PanelPlacement) :
  _can_place_panel_in_sub_sheet a p s rotated = Some pl ->
  pl_rotated pl = rotated /\ pl_sub_sheet pl = s.
Proof.
  unfold _can_place_panel_in_sub_sheet.
  destruct (negb _); [discriminate|].
  destruct (_validate_grain_direction a p rotated); [|discriminate].
  intro H; inversion H; subst; simpl. split; reflexivity.
Qed.

Lemma find_placement_rotated (a : BeamSawNestingAlgorithm) (p : Panel)
  (subs : list SubSheet) (s : SubSheet) (pl : PanelPlacement) :
  find_placement a p subs = Some (s, pl) ->
  pl_rotated pl = true ->
  _can_place_panel_in_sub_sheet a p s false = None /\
  rotation_constraint p = ROTATION_90_ALLOWED.
Proof.
  induction subs as [|s0 subs IH]; simpl; [discriminate|].
  destruct (_can_place_panel_in_sub_sheet a p s0 false) as [pl0|] eqn:E0.
  - intros H Hr. inversion H; subst.
    apply can_place_rotated in E0. destruct E0 as [E0 _]. congruence.
  - destruct (rotation_constraint p) eqn:Erc.
    + exact IH.
    + destruct (_can_place_panel_in_sub_sheet a p s0 true) as [pl1|] eqn:E1.
      * intros H _. inversion H; subst. split; [exact E0 | reflexivity].
      * intros H Hr. destruct (IH H Hr) as [K _]. split; [exact K | reflexivity].
Qed.

(** C6. In the guillotine variant a placement of a panel on a sub-sheet in a
    given orientation is accepted exactly when the footprint fits the
    sub-sheet and the effective orientation (horizontal if and only if width
    >= height) satisfies the grain constraint; a violated constraint rejects
    the placement whether or not the panel fits; and whenever the rotated
    orientation is chosen for a sub-sheet, the unrotated one was tried on that
    sub-sheet first and rejected, and the panel allows rotation. *)
Theorem grain_direction_gating (a : BeamSawNestingAlgorithm) (p : Panel) :
  (forall s rotated,
      _can_place_panel_in_sub_sheet a p s rotated <> None <->
      can_fit s (eff_width p rotated) (eff_height p rotated) = true /\
      grain_satisfied a p rotated) /\
  (forall s rotated,
      ~ grain_satisfied a p rotated ->
      _can_place_panel_in_sub_sheet a p s rotated = None) /\
  (forall subs s pl,
      find_placement a p subs = Some (s, pl) ->
      pl_rotated pl = true ->
      _can_place_panel_in_sub_sheet a p s false = None /\
      rotation_constraint p = ROTATION_90_ALLOWED).
Proof.
  split; [|split].
  - intros s rotated. apply can_place_iff.
  - intros s rotated Hn.
    destruct (_can_place_panel_in_sub_sheet a p s rotated) eqn:E; [|reflexivity].
    exfalso. apply Hn.
    apply (can_place_iff a p s rotated). congruence.
  - apply find_placement_rotated.
Qed.

(** A tall panel 40 x 54 on a 240 x 120 sheet with horizontal grain: it fits
    unrotated but the grain rule rejects that orientation; with rotation
    allowed it is placed rotated, without it the panel is not placed. *)
Definition grain_algo : BeamSawNestingAlgorithm :=
  _add_new_sheet (init 240 120 SHEET_HORIZONTAL 5 CUT_HORIZONTAL AREA_DESCENDING).
Definition whole_sheet : SubSheet := mkSubSheet 0 0 240 120 0 (-1) 0.
Definition tall_panel (rc : RotationConstraint) : Panel :=
  mkPanel 40 54 rc MATCH_SHEET 0 String.EmptyString.

Example grain_rejects_fitting_panel :
  can_fit whole_sheet 40 54 = true /\
  _can_place_panel_in_sub_sheet grain_algo (tall_panel ROTATION_90_ALLOWED)
                                whole_sheet false = None /\
  option_map (fun sp => pl_rotated (snd sp))
    (find_placement grain_algo (tall_panel ROTATION_90_ALLOWED)
                    (candidate_sub_sheets grain_algo)) = Some true /\
  find_placement grain_algo (tall_panel NO_ROTATION)
                 (candidate_sub_sheets grain_algo) = None.
Proof. repeat split; vm_compute; reflexivity. Qed.

End GuillotineFacts.

(* ------------------------------------------------------------------ *)
(** ** Sheets reached by placements *)

Lemma bind_ok {A B : Type} (m : result A) (k : A -> result B) (b : B) :
  bind m k = Ok b -> exists a, m = Ok a /\ k a = Ok b.
Proof.
  destruct m as [a | e]; simpl; [|discriminate].
  intro H. exists a. split; [reflexivity | exact H].
Qed.

(** Split an equation [x <- m ;; k = Ok b] of the context into the two
    successful steps. *)
Ltac bind_inv H :=
  let a := fresh "a" in
  let Ha := fresh "Ha" in
  apply bind_ok in H; destruct H as (a & Ha & H).

Section PlacedSheets.

Variable kerf : Q.

(** Sheets reached from [s0] by calls to [Sheet.place]. *)
Inductive placed_from (s0 : HSheet) : HSheet -> Prop :=
| placed_refl : placed_from s0 s0
| placed_step (s s' : HSheet) (p : Panel) (x y : Q) :
    placed_from s0 s -> place kerf s p x y = Ok s' -> placed_from s0 s'.

Inductive planar_placed_from (s0 : Sheet PlanarPanel)
  : Sheet PlanarPanel -> Prop :=
| planar_placed_refl : planar_placed_from s0 s0
| planar_placed_step (s s' : Sheet PlanarPanel) (p : PlanarPanel) (x y : Q) :
    planar_placed_from s0 s -> planar_place kerf s p x y = Ok s' ->
    planar_placed_from s0 s'.

(** Kerf-inclusive footprint area of a placed rectangular panel. *)
Definition footprint_area (e : Panel * Q * Q) : Q :=
  get_placed_width kerf (fst (fst e)) * get_placed_height kerf (fst (fst e)).

Definition sum_Q {A : Type} (f : A -> Q) (l : list A) : Q :=
  fold_right (fun a acc => f a + acc) 0 l.

Lemma sum_Q_app {A : Type} (f : A -> Q) (l1 l2 : list A) :
  sum_Q f (l1 ++ l2) == sum_Q f l1 + sum_Q f l2.
Proof.
  induction l1 as [|a l1 IH]; simpl.
  - lra.
  - rewrite IH. lra.
Qed.

Lemma place_fields (s s' : HSheet) (p : Panel) (x y : Q) :
  place kerf s p x y = Ok s' ->
  panels s' = panels s ++ [(p, x, y)] /\
  filled_area s' = filled_area s + get_placed_width kerf p * get_placed_height kerf p /\
  s_w s' = s_w s /\ s_h s' = s_h s /\
  grid_cols s' = grid_cols s /\ grid_rows s' = grid_rows s /\
  cell_w s' = cell_w s /\ cell_h s' = cell_h s /\
  exists cells,
    _get_grid_cells s x y (get_placed_width kerf p) (get_placed_height kerf p)
    = Ok cells /\
    register_cells (grid s) cells (length (panels s)) = Ok (grid s').
Proof.
  unfold place. intro H.
  bind_inv H. bind_inv H. inversion H; subst; simpl.
  repeat (split; [reflexivity|]).
  exists a. split; assumption.
Qed.

Lemma planar_place_fields (s s' : Sheet PlanarPanel) (p : PlanarPanel)
  (x y : Q) :
  planar_place kerf s p x y = Ok s' ->
  panels s' = panels s ++ [(p, x, y)] /\
  filled_area s' = filled_area s + pl_area p.
Proof.
  unfold planar_place. intro H.
  bind_inv H. bind_inv H. inversion H; subst; simpl.
  split; reflexivity.
Qed.

(** C3. After every call to [Sheet.place] the accumulator [filled_area] is
    the sum of the footprint areas of the placed panels: placed width times
    placed height (kerf included) on the rectangular engine, the panel's own
    area on the shape-bearing engine. *)
Theorem area_conservation :
  (forall (w h : Q) (tid : nat) (avg : option Q) (s : HSheet),
      placed_from (Sheet_init Panel w h tid avg) s ->
      filled_area s == sum_Q footprint_area (panels s)) /\
  (forall (w h : Q) (tid : nat) (avg : option Q) (s : Sheet PlanarPanel),
      planar_placed_from (Sheet_init PlanarPanel w h tid avg) s ->
      filled_area s == sum_Q (fun e => pl_area (fst (fst e))) (panels s)).
Proof.
  split; intros w h tid avg s Hs.
  - induction Hs as [|s s' p x y Hs IH Hp].
    + simpl. reflexivity.
    + apply place_fields in Hp. destruct Hp as (Hps & Hf & _).
      rewrite Hps, Hf, sum_Q_app, IH. unfold footprint_area at 3. simpl. lra.
  - induction Hs as [|s s' p x y Hs IH Hp].
    + simpl. reflexivity.
    + apply planar_place_fields in Hp. destruct Hp as (Hps & Hf).
      rewrite Hps, Hf, sum_Q_app, IH. simpl. lra.
Qed.

End PlacedSheets.

(* ------------------------------------------------------------------ *)
(** ** The spatial grid *)

(** Total reading of [grid[row][col]]. *)
Definition cell_at (g : list (list (list nat))) (row col : nat) : list nat :=
  nth col (nth row g []) [].

Definition grid_shape (rows cols : nat) (g : list (list (list nat))) : Prop :=
  length g = rows /\ Forall (fun r => length r = cols) g.

Lemma list_get_nth {A : Type} (l : list A) (i : nat) (d : A) :
  (i < length l)%nat -> list_get l i = Ok (nth i l d).
Proof.
  intro H. unfold list_get.
  destruct (nth_error l i) as [a|] eqn:E.
  - now rewrite (nth_error_nth _ _ d E).
  - apply nth_error_None in E. lia.
Qed.

Lemma grid_get_cell_at (rows cols : nat) (g : list (list (list nat)))
  (r c : nat) :
  grid_shape rows cols g -> (r < rows)%nat -> (c < cols)%nat ->
  grid_get g r c = Ok (cell_at g r c).
Proof.
  intros [Hl Hf] Hr Hc. unfold grid_get, cell_at.
  rewrite (list_get_nth g r []) by lia. simpl.
  apply list_get_nth.
  rewrite Forall_forall in Hf. rewrite (Hf (nth r g [])); [exact Hc|].
  apply nth_In. lia.
Qed.

Lemma list_update_nth {A : Type} (l : list A) (i : nat) (f : A -> result A)
  (d a' : A) :
  (i < length l)%nat -> f (nth i l d) = Ok a' ->
  exists l', list_update l i f = Ok l' /\ length l' = length l /\
             forall j, nth j l' d = if Nat.eqb j i then a' else nth j l d.
Proof.
  revert i. induction l as [|a l IH]; intros i Hi Hf; simpl in Hi; [lia|].
  destruct i as [|i]; simpl in *.
  - rewrite Hf. simpl. eexists. split; [reflexivity|]. split; [reflexivity|].
    intros [|j]; reflexivity.
  - destruct (IH i) as (l' & Hu & Hl & Hn); [lia | exact Hf |].
    rewrite Hu. simpl. eexists. split; [reflexivity|]. split; [simpl; lia|].
    intros [|j]; simpl; [reflexivity | apply Hn].
Qed.

Lemma forall_nth_length {A : Type} (g g' : list (list A))
  (n : nat) :
  length g' = length g ->
  Forall (fun r => length r = n) g ->
  (forall j, length (nth j g' []) = length (nth j g [])) ->
  Forall (fun r => length r = n) g'.
Proof.
  intros Hl Hf Hn. apply Forall_forall. intros r Hr.
  destruct (In_nth _ _ [] Hr) as (j & Hj & <-).
  rewrite Hn. rewrite Forall_forall in Hf. apply Hf. apply nth_In. lia.
Qed.

Lemma grid_append_cell_at (rows cols : nat) (g : list (list (list nat)))
  (r c idx : nat) :
  grid_shape rows cols g -> (r < rows)%nat -> (c < cols)%nat ->
  exists g', grid_append g r c idx = Ok g' /\ grid_shape rows cols g' /\
    forall r' c',
      cell_at g' r' c'
      = if Nat.eqb r' r && Nat.eqb c' c then cell_at g r c ++ [idx]
        else cell_at g r' c'.
Proof.
  intros [Hl Hf] Hr Hc. unfold grid_append.
  assert (Hrow : length (nth r g []) = cols).
  { rewrite Forall_forall in Hf. apply Hf. apply nth_In. lia. }
  destruct (list_update_nth (nth r g []) c (fun cell => Ok (cell ++ [idx]))
              [] (nth c (nth r g []) [] ++ [idx]))
    as (row' & Hu & Hlr & Hnr); [lia | reflexivity |].
  destruct (list_update_nth g r
              (fun row => list_update row c (fun cell => Ok (cell ++ [idx])))
              [] row') as (g' & Hg & Hlg & Hng); [lia | exact Hu |].
  exists g'. split; [exact Hg|]. split.
  - split; [lia|].
    apply (forall_nth_length g g' cols); [lia | exact Hf |].
    intro j. rewrite Hng. destruct (Nat.eqb j r) eqn:E; [|reflexivity].
    apply Nat.eqb_eq in E. subst j. lia.
  - intros r' c'. unfold cell_at. rewrite Hng.
    destruct (Nat.eqb r' r) eqn:E; simpl; [|reflexivity].
    apply Nat.eqb_eq in E. subst r'. rewrite Hnr.
    destruct (Nat.eqb c' c); reflexivity.
Qed.

Lemma register_cells_cell_at (rows cols : nat) (cells : list (nat * nat))
  (idx : nat) (g : list (list (list nat))) :
  grid_shape rows cols g ->
  (forall r c, In (r, c) cells -> (r < rows)%nat /\ (c < cols)%nat) ->
  exists g', register_cells g cells idx = Ok g' /\ grid_shape rows cols g' /\
    forall r c j,
      In j (cell_at g' r c) <->
      In j (cell_at g r c) \/ (j = idx /\ In (r, c) cells).
Proof.
  revert g. induction cells as [|[r0 c0] cells IH]; intros g Hs Hin; simpl.
  - exists g. split; [reflexivity|]. split; [exact Hs|]. intros; tauto.
  - destruct (Hin r0 c0 (or_introl eq_refl)) as [Hr Hc].
    destruct (grid_append_cell_at rows cols g r0 c0 idx Hs Hr Hc)
      as (g1 & Hg1 & Hs1 & Hc1).
    rewrite Hg1. simpl.
    destruct (IH g1 Hs1) as (g' & Hg' & Hs' & Hc').
    { intros r c H. apply Hin. now right. }
    exists g'. split; [exact Hg'|]. split; [exact Hs'|].
    intros r c j. rewrite Hc', Hc1.
    destruct (Nat.eqb r r0 && Nat.eqb c c0) eqn:E.
    + apply andb_true_iff in E. destruct E as [E1 E2].
      apply Nat.eqb_eq in E1, E2. subst r c.
      rewrite in_app_iff. simpl. intuition congruence.
    + assert (N : (r0, c0) <> (r, c)).
      { intro K. inversion K; subst.
        rewrite !Nat.eqb_refl in E. discriminate. }
      intuition congruence.
Qed.

(** *** Grid cells of a footprint *)

Definition lo_index (n : Z) (size : Q) (a : Q) : nat :=
  clamp_index n (Qfloor (a / size)).
Definition hi_index (n : Z) (size : Q) (a : Q) : nat :=
  clamp_index n (Qceiling (a / size)).

Definition cells_of {P : Type} (s : Sheet P) (x y w h : Q) : list (nat * nat) :=
  cells_between (grid_rows s) (grid_cols s)
    (lo_index (grid_rows s) (cell_h s) y)
    (hi_index (grid_rows s) (cell_h s) (y + h))
    (lo_index (grid_cols s) (cell_w s) x)
    (hi_index (grid_cols s) (cell_w s) (x + w)).

Lemma py_div_ok (a b : Q) : ~ b == 0 -> py_div a b = Ok (a / b).
Proof.
  intro H. unfold py_div. apply Qeqb_neq in H. now rewrite H.
Qed.

Lemma get_grid_cells_ok {P : Type} (s : Sheet P) (x y w h : Q) :
  0 < cell_w s -> 0 < cell_h s ->
  _get_grid_cells s x y w h = Ok (cells_of s x y w h).
Proof.
  intros Hw Hh. unfold _get_grid_cells.
  rewrite !py_div_ok by lra. reflexivity.
Qed.

Lemma in_range_incl (lo hi k : nat) :
  In k (range_incl lo hi) <-> (lo <= k <= hi)%nat.
Proof. unfold range_incl. rewrite in_seq. lia. Qed.

Lemma in_cells_between (rows cols : Z) (y0 y1 x0 x1 r c : nat) :
  In (r, c) (cells_between rows cols y0 y1 x0 x1) <->
  (y0 <= r <= y1)%nat /\ (x0 <= c <= x1)%nat /\
  (Z.of_nat r < rows)%Z /\ (Z.of_nat c < cols)%Z.
Proof.
  unfold cells_between. rewrite in_flat_map. split.
  - intros (row & Hrow & H). apply in_flat_map in H.
    destruct H as (col & Hcol & H).
    apply in_range_incl in Hrow, Hcol.
    destruct ((Z.of_nat row <? rows)%Z && (Z.of_nat col <? cols)%Z) eqn:E;
      simpl in H; [|contradiction].
    destruct H as [H | []]. inversion H; subst.
    apply andb_true_iff in E. destruct E as [E1 E2].
    apply Z.ltb_lt in E1, E2. tauto.
  - intros (Hr & Hc & Hrr & Hcc). exists r. split; [now apply in_range_incl|].
    apply in_flat_map. exists c. split; [now apply in_range_incl|].
    apply Z.ltb_lt in Hrr, Hcc. rewrite Hrr, Hcc. simpl. now left.
Qed.

Lemma clamp_index_lt (n v : Z) :
  (0 < n)%Z -> (Z.of_nat (clamp_index n v) < n)%Z.
Proof. intro H. unfold clamp_index. lia. Qed.

Lemma clamp_index_mono (n u v : Z) :
  (u <= v)%Z -> (clamp_index n u <= clamp_index n v)%nat.
Proof. intro H. unfold clamp_index. lia. Qed.

Lemma floor_le_ceiling (a b : Q) : a <= b -> (Qfloor a <= Qceiling b)%Z.
Proof.
  intro H. rewrite Zle_Qle.
  apply Qle_trans with a; [apply Qfloor_le|].
  apply Qle_trans with b; [exact H | apply Qle_ceiling].
Qed.

Lemma lo_le_hi (n : Z) (size a b : Q) :
  0 < size -> a <= b -> (lo_index n size a <= hi_index n size b)%nat.
Proof.
  intros Hs Hab. unfold lo_index, hi_index.
  apply clamp_index_mono, floor_le_ceiling.
  unfold Qdiv. apply Qmult_le_compat_r; [exact Hab|].
  apply Qlt_le_weak, Qinv_lt_0_compat, Hs.
Qed.

(** Two intervals of non-negative length that overlap share a grid index. *)
Lemma common_index (n : Z) (size x w px pw : Q) :
  (0 < n)%Z -> 0 < size -> 0 <= w -> 0 <= pw ->
  x < px + pw -> px < x + w ->
  exists k,
    (lo_index n size x <= k <= hi_index n size (x + w))%nat /\
    (lo_index n size px <= k <= hi_index n size (px + pw))%nat /\
    (Z.of_nat k < n)%Z.
Proof.
  intros Hn Hs Hw Hpw H1 H2.
  pose proof (lo_le_hi n size x (x + w) Hs ltac:(lra)) as A.
  pose proof (lo_le_hi n size px (px + pw) Hs ltac:(lra)) as B.
  pose proof (lo_le_hi n size x (px + pw) Hs ltac:(lra)) as C.
  pose proof (lo_le_hi n size px (x + w) Hs ltac:(lra)) as D.
  exists (Nat.max (lo_index n size x) (lo_index n size px)).
  split; [lia|]. split; [lia|].
  pose proof (clamp_index_lt n (Qfloor (x / size)) Hn).
  pose proof (clamp_index_lt n (Qfloor (px / size)) Hn).
  unfold lo_index. lia.
Qed.

Lemma rect_overlap_iff (x y pw ph px py p_pw p_ph : Q) :
  rect_overlap x y pw ph px py p_pw p_ph = true <->
  px < x + pw /\ x < px + p_pw /\ py < y + ph /\ y < py + p_ph.
Proof.
  unfold rect_overlap. rewrite negb_true_iff, !orb_false_iff, !Qleb_gt.
  tauto.
Qed.

(** Overlapping footprints of non-negative size share a grid cell. *)
Lemma overlap_common_cell {P : Type} (s : Sheet P)
  (x y pw ph px py p_pw p_ph : Q) :
  (0 < grid_cols s)%Z -> (0 < grid_rows s)%Z ->
  0 < cell_w s -> 0 < cell_h s ->
  0 <= pw -> 0 <= ph -> 0 <= p_pw -> 0 <= p_ph ->
  rect_overlap x y pw ph px py p_pw p_ph = true ->
  exists r c, In (r, c) (cells_of s x y pw ph) /\
              In (r, c) (cells_of s px py p_pw p_ph).
Proof.
  intros Hc Hr Hcw Hch H1 H2 H3 H4 Ho.
  apply rect_overlap_iff in Ho. destruct Ho as (O1 & O2 & O3 & O4).
  destruct (common_index (grid_cols s) (cell_w s) x pw px p_pw)
    as (c & C1 & C2 & C3); auto.
  destruct (common_index (grid_rows s) (cell_h s) y ph py p_ph)
    as (r & R1 & R2 & R3); auto.
  exists r, c. unfold cells_of. rewrite !in_cells_between. tauto.
Qed.

(* ------------------------------------------------------------------ *)
(** ** Invariant of a sheet's grid *)

Section GridInvariant.

Variable kerf : Q.

(** Placed sizes are not negative (panel sizes are positive and the kerf is
    not negative on validated input). *)
Definition panel_ok (p : Panel) : Prop :=
  0 <= get_placed_width kerf p /\ 0 <= get_placed_height kerf p.

Definition entry_ok (e : Panel * Q * Q) : Prop := panel_ok (fst (fst e)).

Definition entry_cells (s : HSheet) (e : Panel * Q * Q) : list (nat * nat) :=
  cells_of s (snd (fst e)) (snd e)
           (get_placed_width kerf (fst (fst e)))
           (get_placed_height kerf (fst (fst e))).

Record sheet_inv (s : HSheet) : Prop := mkSheetInv {
  inv_cols : (0 < grid_cols s)%Z;
  inv_rows : (0 < grid_rows s)%Z;
  inv_cw : 0 < cell_w s;
  inv_ch : 0 < cell_h s;
  inv_shape :
    grid_shape (Z.to_nat (grid_rows s)) (Z.to_nat (grid_cols s)) (grid s);
  inv_valid :
    forall r c i, In i (cell_at (grid s) r c) -> (i < length (panels s))%nat;
  inv_reg :
    forall i e r c,
      nth_error (panels s) i = Some e -> In (r, c) (entry_cells s e) ->
      In i (cell_at (grid s) r c)
}.

(** Boolean form of [entry_ok], for concrete sheets. *)
Definition entry_okb (e : Panel * Q * Q) : bool :=
  Qleb 0 (get_placed_width kerf (fst (fst e)))
  && Qleb 0 (get_placed_height kerf (fst (fst e))).

Lemma entries_okb (l : list (Panel * Q * Q)) :
  forallb entry_okb l = true -> Forall entry_ok l.
Proof.
  intro H. apply Forall_forall. intros e He.
  rewrite forallb_forall in H. specialize (H e He).
  unfold entry_okb in H. qbool. split; assumption.
Qed.

Lemma grid_dim_pos (extent : Q) (avg : option Q) : (0 < grid_dim extent avg)%Z.
Proof. unfold grid_dim. destruct (truthy avg); lia. Qed.

Lemma cell_at_empty_grid (rows cols r c : nat) :
  cell_at (repeat (repeat [] cols) rows) r c = [].
Proof.
  unfold cell_at.
  assert (H : forall (A : Type) (a : A) (n k : nat) (d : A),
             nth k (repeat a n) d = a \/ nth k (repeat a n) d = d).
  { intros A a n. induction n as [|n IH]; intros k d; simpl.
    - destruct k; now right.
    - destruct k; [now left | apply IH]. }
  destruct (H _ (repeat (@nil nat) cols) rows r []) as [-> | ->].
  - destruct (H _ (@nil nat) cols c []) as [-> | ->]; reflexivity.
  - destruct c; reflexivity.
Qed.

Lemma sheet_init_inv (w h : Q) (tid : nat) (avg : option Q) :
  0 < w -> 0 < h -> sheet_inv (Sheet_init Panel w h tid avg).
Proof.
  intros Hw Hh.
  pose proof (grid_dim_pos w avg) as Hc.
  pose proof (grid_dim_pos h avg) as Hr.
  assert (Hpos : forall n : Z, (0 < n)%Z -> 0 < / inject_Z n).
  { intros n Hn. apply Qinv_lt_0_compat.
    replace 0 with (inject_Z 0) by reflexivity. now rewrite <- Zlt_Qlt. }
  constructor; simpl; try assumption.
  - unfold Qdiv. apply Qmult_lt_0_compat; auto.
  - unfold Qdiv. apply Qmult_lt_0_compat; auto.
  - split.
    + apply repeat_length.
    + apply Forall_forall. intros r Hin. apply repeat_spec in Hin. subst r.
      apply repeat_length.
  - intros r c i. rewrite cell_at_empty_grid. intros [].
  - intros i e r c H. destruct i; discriminate.
Qed.

Lemma cells_of_in_range (s : HSheet) (x y w h : Q) (r c : nat) :
  In (r, c) (cells_of s x y w h) ->
  (r < Z.to_nat (grid_rows s))%nat /\ (c < Z.to_nat (grid_cols s))%nat.
Proof.
  unfold cells_of. rewrite in_cells_between. lia.
Qed.

Lemma place_inv (s s' : HSheet) (p : Panel) (x y : Q) :
  sheet_inv s -> place kerf s p x y = Ok s' -> sheet_inv s'.
Proof.
  intros I Hp. apply place_fields in Hp.
  destruct Hp as (Hps & _ & _ & _ & Hgc & Hgr & Hcw & Hch & cells & Hcells & Hreg).
  rewrite get_grid_cells_ok in Hcells by apply I.
  inversion Hcells; subst cells; clear Hcells.
  destruct (register_cells_cell_at
              (Z.to_nat (grid_rows s)) (Z.to_nat (grid_cols s))
              (cells_of s x y (get_placed_width kerf p) (get_placed_height kerf p))
              (length (panels s)) (grid s) (inv_shape s I))
    as (g' & Hg' & Hs' & Hc').
  { intros r c. apply cells_of_in_range. }
  rewrite Hg' in Hreg. inversion Hreg; subst g'; clear Hreg.
  constructor.
  - rewrite Hgc. apply I.
  - rewrite Hgr. apply I.
  - rewrite Hcw. apply I.
  - rewrite Hch. apply I.
  - rewrite Hgc, Hgr. exact Hs'.
  - intros r c i Hi. rewrite Hps, length_app. simpl.
    apply Hc' in Hi. destruct Hi as [Hi | [-> _]]; [|lia].
    apply (inv_valid s I) in Hi. lia.
  - intros i e r c Hi Hin.
    assert (Hec : entry_cells s' e = entry_cells s e).
    { unfold entry_cells, cells_of. now rewrite Hgc, Hgr, Hcw, Hch. }
    rewrite Hec in Hin. apply Hc'. rewrite Hps in Hi.
    destruct (Nat.lt_ge_cases i (length (panels s))) as [L | L].
    + left. rewrite nth_error_app1 in Hi by exact L.
      now apply (inv_reg s I i e).
    + right. rewrite nth_error_app2 in Hi by exact L.
      destruct (i - length (panels s))%nat as [|k] eqn:E; simpl in Hi.
      * inversion Hi; subst e. split; [lia | exact Hin].
      * destruct k; discriminate.
Qed.

Lemma place_ok (s : HSheet) (p : Panel) (x y : Q) :
  sheet_inv s -> exists s', place kerf s p x y = Ok s'.
Proof.
  intro I. unfold place.
  rewrite get_grid_cells_ok by apply I. simpl.
  destruct (register_cells_cell_at
              (Z.to_nat (grid_rows s)) (Z.to_nat (grid_cols s))
              (cells_of s x y (get_placed_width kerf p) (get_placed_height kerf p))
              (length (panels s)) (grid s) (inv_shape s I))
    as (g' & Hg' & _).
  { intros r c. apply cells_of_in_range. }
  rewrite Hg'. simpl. eexists. reflexivity.
Qed.

Lemma placed_from_inv (s0 s : HSheet) :
  sheet_inv s0 -> placed_from kerf s0 s -> sheet_inv s.
Proof.
  intros I0 H. induction H as [|s s' p x y H IH Hp]; [exact I0|].
  eapply place_inv; eauto.
Qed.

End GridInvariant.

(* ------------------------------------------------------------------ *)
(** ** The collision test against a scan of all placed panels *)

Section FitsSpec.

Variable kerf : Q.

Definition overlaps_entry (x y pw ph : Q) (e : Panel * Q * Q) : bool :=
  rect_overlap x y pw ph (snd (fst e)) (snd e)
               (get_placed_width kerf (fst (fst e)))
               (get_placed_height kerf (fst (fst e))).

(** The test in the words of the specification: in bounds, and no placed
    panel, whichever grid cell it is registered in, overlaps the footprint. *)
Definition naive_fits (s : HSheet) (panel : Panel) (x y : Q) : bool :=
  let pw := get_placed_width kerf panel in
  let ph := get_placed_height kerf panel in
  negb (out_of_bounds (s_w s) (s_h s) x y pw ph)
  && forallb (fun e => negb (overlaps_entry x y pw ph e)) (panels s).

(** The footprint lies in the sheet, up to the tolerance. *)
Definition within_bounds (s : HSheet) (x y pw ph : Q) : Prop :=
  - epsilon <= x /\ - epsilon <= y /\
  x + pw <= s_w s + epsilon /\ y + ph <= s_h s + epsilon.

(** Two footprints do not overlap: one lies left of, right of, below or
    above the other. *)
Definition footprints_disjoint (x y pw ph : Q) (e : Panel * Q * Q) : Prop :=
  let px := snd (fst e) in
  let py := snd e in
  x + pw <= px \/ px + get_placed_width kerf (fst (fst e)) <= x \/
  y + ph <= py \/ py + get_placed_height kerf (fst (fst e)) <= y.

Lemma overlaps_entry_false (x y pw ph : Q) (e : Panel * Q * Q) :
  overlaps_entry x y pw ph e = false <-> footprints_disjoint x y pw ph e.
Proof.
  unfold overlaps_entry, rect_overlap, footprints_disjoint.
  rewrite negb_false_iff, !orb_true_iff, !Qleb_le. tauto.
Qed.

Lemma out_of_bounds_false (s : HSheet) (x y pw ph : Q) :
  out_of_bounds (s_w s) (s_h s) x y pw ph = false <-> within_bounds s x y pw ph.
Proof.
  unfold out_of_bounds, within_bounds.
  rewrite !orb_false_iff, !Qltb_ge. tauto.
Qed.

Lemma naive_fits_iff (s : HSheet) (panel : Panel) (x y : Q) :
  naive_fits s panel x y = true <->
  within_bounds s x y (get_placed_width kerf panel) (get_placed_height kerf panel)
  /\ Forall (footprints_disjoint x y (get_placed_width kerf panel)
                                 (get_placed_height kerf panel))
            (panels s).
Proof.
  unfold naive_fits. cbv zeta.
  rewrite andb_true_iff, negb_true_iff, out_of_bounds_false.
  rewrite forallb_forall, Forall_forall.
  split; intros [H1 H2]; (split; [exact H1|]); intros e He.
  - apply overlaps_entry_false. apply negb_true_iff. now apply H2.
  - apply negb_true_iff. apply overlaps_entry_false. now apply H2.
Qed.

(** The scanned positions seen so far are all free of overlap. *)
Definition clear_index (ps : list (Panel * Q * Q)) (x y pw ph : Q) (i : nat)
  : Prop :=
  forall e, nth_error ps i = Some e -> overlaps_entry x y pw ph e = false.

Lemma fits_indices_spec (ps : list (Panel * Q * Q)) (x y pw ph : Q)
  (idxs checked : list nat) :
  (forall i, In i idxs -> (i < length ps)%nat) ->
  (forall i, In i checked -> clear_index ps x y pw ph i) ->
  exists b checked',
    fits_indices kerf ps x y pw ph idxs checked = Ok (b, checked') /\
    (b = true ->
     (forall i, In i checked' -> clear_index ps x y pw ph i) /\
     (forall i, In i idxs -> clear_index ps x y pw ph i)) /\
    (b = false ->
     exists e, In e ps /\ overlaps_entry x y pw ph e = true).
Proof.
  revert checked. induction idxs as [|i idxs IH]; intros checked Hv Hc; simpl.
  - exists true, checked. split; [reflexivity|]. split; [|discriminate].
    intros _. split; [exact Hc | intros i []].
  - assert (Hv' : forall j, In j idxs -> (j < length ps)%nat).
    { intros j Hj. apply Hv. now right. }
    destruct (existsb (Nat.eqb i) checked) eqn:E.
    + destruct (IH checked Hv' Hc) as (b & c' & Hf & Ht & Hb).
      exists b, c'. split; [exact Hf|]. split; [|exact Hb].
      intro Hbt. destruct (Ht Hbt) as [T1 T2]. split; [exact T1|].
      intros j [<- | Hj]; [|now apply T2].
      apply existsb_exists in E. destruct E as (k & Hk & Ek).
      apply Nat.eqb_eq in Ek. subst k. now apply Hc.
    + assert (Hi : (i < length ps)%nat) by (apply Hv; now left).
      unfold list_get. destruct (nth_error ps i) as [[[p px] py]|] eqn:En;
        [|apply nth_error_None in En; lia].
      simpl.
      destruct (rect_overlap x y pw ph px py _ _) eqn:Eo.
      * exists false, (i :: checked). split; [reflexivity|].
        split; [discriminate|]. intros _.
        exists (p, px, py). split; [eapply nth_error_In; eauto | exact Eo].
      * assert (Ci : clear_index ps x y pw ph i).
        { intros e He. rewrite En in He. inversion He; subst. exact Eo. }
        assert (Hc' : forall j, In j (i :: checked) ->
                                clear_index ps x y pw ph j).
        { intros j [<- | Hj]; auto. }
        destruct (IH (i :: checked) Hv' Hc') as (b & c' & Hf & Ht & Hb).
        exists b, c'. split; [exact Hf|]. split; [|exact Hb].
        intro Hbt. destruct (Ht Hbt) as [T1 T2]. split; [exact T1|].
        intros j [<- | Hj]; auto.
Qed.

Lemma fits_cells_spec (s : HSheet) (x y pw ph : Q)
  (cells : list (nat * nat)) (checked : list nat) :
  sheet_inv kerf s ->
  (forall r c, In (r, c) cells ->
               (r < Z.to_nat (grid_rows s))%nat /\
               (c < Z.to_nat (grid_cols s))%nat) ->
  (forall i, In i checked -> clear_index (panels s) x y pw ph i) ->
  exists b,
    fits_cells kerf s x y pw ph cells checked = Ok b /\
    (b = true ->
     forall r c i, In (r, c) cells -> In i (cell_at (grid s) r c) ->
                   clear_index (panels s) x y pw ph i) /\
    (b = false ->
     exists e, In e (panels s) /\ overlaps_entry x y pw ph e = true).
Proof.
  intros I. revert checked.
  induction cells as [|[r0 c0] cells IH]; intros checked Hr Hc; simpl.
  - exists true. split; [reflexivity|]. split; [|discriminate].
    intros _ r c i [].
  - destruct (Hr r0 c0 (or_introl eq_refl)) as [Hr0 Hc0].
    rewrite (grid_get_cell_at _ _ (grid s) r0 c0 (inv_shape kerf s I) Hr0 Hc0).
    simpl.
    assert (Hv : forall i, In i (cell_at (grid s) r0 c0) ->
                           (i < length (panels s))%nat).
    { intros i Hi. eapply inv_valid; eauto. }
    destruct (fits_indices_spec (panels s) x y pw ph
                (cell_at (grid s) r0 c0) checked Hv Hc)
      as (b & c' & Hf & Ht & Hb).
    rewrite Hf. simpl. destruct b.
    + destruct (Ht eq_refl) as [T1 T2].
      assert (Hr' : forall r c, In (r, c) cells ->
                                (r < Z.to_nat (grid_rows s))%nat /\
                                (c < Z.to_nat (grid_cols s))%nat).
      { intros r c H. apply Hr. now right. }
      destruct (IH c' Hr' T1) as (b' & Hf' & Ht' & Hb').
      exists b'. split; [exact Hf'|]. split; [|exact Hb'].
      intros Hbt r c i [K | K] Hi.
      * inversion K; subst. now apply T2.
      * eapply Ht'; eauto.
    + exists false. split; [reflexivity|]. split; [discriminate|].
      intros _. now apply Hb.
Qed.

Lemma fits_naive (s : HSheet) (panel : Panel) (x y : Q) :
  sheet_inv kerf s ->
  Forall (entry_ok kerf) (panels s) ->
  panel_ok kerf panel ->
  fits kerf s panel x y = Ok (naive_fits s panel x y).
Proof.
  intros I Hall [Hpw Hph]. unfold fits, naive_fits. cbv zeta.
  set (pw := get_placed_width kerf panel) in *.
  set (ph := get_placed_height kerf panel) in *.
  destruct (out_of_bounds (s_w s) (s_h s) x y pw ph); simpl; [reflexivity|].
  rewrite get_grid_cells_ok by apply I. simpl.
  destruct (fits_cells_spec s x y pw ph (cells_of s x y pw ph) [] I
              (fun r c => cells_of_in_range s x y pw ph r c)
              (fun i (H : In i []) => match H with end))
    as (b & Hf & Ht & Hb).
  rewrite Hf. f_equal. destruct b.
  - symmetry. apply forallb_forall. intros e He.
    apply negb_true_iff.
    destruct (overlaps_entry x y pw ph e) eqn:Eo; [|reflexivity].
    exfalso.
    destruct (In_nth_error _ _ He) as (i & Hi).
    rewrite Forall_forall in Hall. destruct (Hall e He) as [Ew Eh].
    destruct (overlap_common_cell s x y pw ph (snd (fst e)) (snd e)
                (get_placed_width kerf (fst (fst e)))
                (get_placed_height kerf (fst (fst e))))
      as (r & c & C1 & C2); try apply I; auto.
    pose proof (inv_reg kerf s I i e r c Hi C2) as Hreg.
    pose proof (Ht eq_refl r c i C1 Hreg e Hi) as Hclear.
    congruence.
  - destruct (Hb eq_refl) as (e & He & Eo).
    symmetry. apply not_true_is_false. intro K.
    rewrite forallb_forall in K. specialize (K e He).
    rewrite Eo in K. discriminate.
Qed.

(** C4. On a sheet whose panels were all registered by [Sheet.place],
    [Sheet.fits] returns, and it returns [True] exactly when the footprint at
    (x, y) is inside the sheet bounds up to the tolerance and overlaps no
    placed panel: looking only at the panels registered in the grid cells of
    the footprint misses no overlapping panel.  Sheet sizes are positive and
    placed sizes are not negative. *)
Theorem grid_fits_equals_naive_scan
  (w h : Q) (tid : nat) (avg : option Q) (s : HSheet) (panel : Panel)
  (x y : Q) :
  0 < w -> 0 < h ->
  placed_from kerf (Sheet_init Panel w h tid avg) s ->
  Forall (entry_ok kerf) (panels s) ->
  panel_ok kerf panel ->
  exists b,
    fits kerf s panel x y = Ok b /\
    b = naive_fits s panel x y /\
    (b = true <->
     within_bounds s x y (get_placed_width kerf panel)
                   (get_placed_height kerf panel) /\
     Forall (footprints_disjoint x y (get_placed_width kerf panel)
                                 (get_placed_height kerf panel))
            (panels s)).
Proof.
  intros Hw Hh Hs Hall Hp.
  assert (I : sheet_inv kerf s).
  { eapply placed_from_inv; [|exact Hs]. now apply sheet_init_inv. }
  exists (naive_fits s panel x y). split; [now apply fits_naive|].
  split; [reflexivity | apply naive_fits_iff].
Qed.

End FitsSpec.

(** A 100 x 50 sheet, kerf 3, holding a 20 x 10 panel at the origin. *)
Definition demo_empty : HSheet := Sheet_init Panel 100 50 0 (Some 4).
Definition demo_panel : Panel := Panel_init 20 10 0 None.
Definition demo_sheet : HSheet :=
  match place 3 demo_empty demo_panel 0 0 with
  | Ok s => s
  | Raise _ => demo_empty
  end.

Lemma grid_fits_equals_naive_scan_witness :
  exists b,
    fits 3 demo_sheet (Panel_init 30 20 1 None) 10 5 = Ok b /\
    b = naive_fits 3 demo_sheet (Panel_init 30 20 1 None) 10 5 /\
    (b = true <->
     within_bounds demo_sheet 10 5
       (get_placed_width 3 (Panel_init 30 20 1 None))
       (get_placed_height 3 (Panel_init 30 20 1 None)) /\
     Forall (footprints_disjoint 3 10 5
               (get_placed_width 3 (Panel_init 30 20 1 None))
               (get_placed_height 3 (Panel_init 30 20 1 None)))
            (panels demo_sheet)).
Proof.
  apply (grid_fits_equals_naive_scan 3 100 50 0 (Some 4) demo_sheet
           (Panel_init 30 20 1 None) 10 5).
  - reflexivity.
  - reflexivity.
  - apply (placed_step 3 demo_empty demo_empty demo_sheet demo_panel 0 0).
    + apply placed_refl.
    + vm_compute. reflexivity.
  - apply entries_okb. vm_compute. reflexivity.
  - split; vm_compute; discriminate.
Defined.

(** On that sheet the candidate at (10, 5) collides and the one at (23, 0)
    fits. *)
Example demo_fits :
  fits 3 demo_sheet (Panel_init 30 20 1 None) 10 5 = Ok false /\
  fits 3 demo_sheet (Panel_init 30 20 1 None) 23 0 = Ok true.
Proof. split; vm_compute; reflexivity. Qed.

(* ------------------------------------------------------------------ *)
(** ** Sheets reached by [Sheet.add] *)

Section AddedSheets.

Variable kerf : Q.

Inductive added_from (s0 : HSheet) : HSheet -> Prop :=
| added_refl : added_from s0 s0
| added_step (s s' : HSheet) (p p' : Panel) (ok : bool) :
    added_from s0 s -> add kerf s p = Ok (ok, s', p') -> added_from s0 s'.

Lemma added_step_run (s0 s s' : HSheet) (p : Panel) :
  added_from s0 s ->
  match add kerf s p with
  | Ok (_, t, _) => Some t
  | Raise _ => None
  end = Some s' ->
  added_from s0 s'.
Proof.
  intros Hs H. destruct (add kerf s p) as [[[ok t] p']|] eqn:E; [|discriminate].
  inversion H; subst. eapply added_step; eauto.
Qed.

Lemma fits_true_in_bounds (s : HSheet) (p : Panel) (x y : Q) :
  fits kerf s p x y = Ok true ->
  within_bounds s x y (get_placed_width kerf p) (get_placed_height kerf p).
Proof.
  unfold fits. intro H. apply out_of_bounds_false.
  destruct (out_of_bounds _ _ _ _ _ _); [discriminate | reflexivity].
Qed.

(** What the search has found so far: a position among the candidates at
    which the panel, in the recorded orientation, passed [fits]. *)
Definition best_inv (s : HSheet) (panel : Panel) (good : Position -> Prop)
  (b : Best) : Prop :=
  match best_position b with
  | None => True
  | Some pos =>
      good pos /\
      fits kerf s (if best_rotated b then rotate panel else panel)
           (fst pos) (snd pos) = Ok true
  end.

Lemma consider_inv (s : HSheet) (panel q : Panel) (good : Position -> Prop)
  (pos : Position) (rot fit : bool) (b : Best) :
  good pos ->
  fits kerf s q (fst pos) (snd pos) = Ok fit ->
  q = (if rot then rotate panel else panel) ->
  best_inv s panel good b ->
  best_inv s panel good (consider kerf fit q pos rot b).
Proof.
  intros Hg Hf Hq Hb. unfold consider.
  destruct fit; [|exact Hb].
  destruct (better _ _); [|exact Hb].
  unfold best_inv; simpl. split; [exact Hg|]. now rewrite <- Hq.
Qed.

Lemma try_positions_spec (s : HSheet) (good : Position -> Prop)
  (positions : list Position) (panel panel' : Panel) (b b' : Best) :
  Forall good positions ->
  best_inv s panel good b ->
  try_positions kerf s panel positions b = Ok (b', panel') ->
  panel' = panel /\ best_inv s panel good b'.
Proof.
  revert b. induction positions as [|pos rest IH]; intros b Hall Hb H; simpl in H.
  - inversion H; subst. split; [reflexivity | exact Hb].
  - inversion Hall as [|? ? Hg Hrest]; subst.
    bind_inv H. rename a into f1. rename Ha into Hf1.
    bind_inv H. rename a into f2. rename Ha into Hf2.
    rewrite rotate_rotate in H.
    apply (IH _ Hrest) in H; [exact H|].
    apply consider_inv; auto.
    apply consider_inv; auto.
Qed.

Lemma in_firstn {A : Type} (n : nat) (l : list A) (a : A) :
  In a (firstn n l) -> In a l.
Proof.
  intro H. rewrite <- (firstn_skipn n l). apply in_or_app. now left.
Qed.

Lemma in_skipn {A : Type} (n : nat) (l : list A) (a : A) :
  In a (skipn n l) -> In a l.
Proof.
  intro H. rewrite <- (firstn_skipn n l). apply in_or_app. now right.
Qed.

Lemma in_stride_aux {A : Type} (step k : nat) (l : list A) (a : A) :
  In a (stride_aux step k l) -> In a l.
Proof.
  revert k. induction l as [|b l IH]; intros k H; simpl in *; [exact H|].
  destruct k.
  - destruct H as [-> | H]; [now left | right; eapply IH; eauto].
  - right. eapply IH; eauto.
Qed.

Lemma in_sample_positions (positions : list Position) (pos : Position) :
  In pos (sample_positions positions) -> In pos positions.
Proof.
  unfold sample_positions.
  destruct (50 <? length positions)%nat; [|auto].
  intro H. apply in_firstn in H.
  apply in_app_or in H. destruct H as [H | H].
  - eapply in_firstn; eauto.
  - apply in_app_or in H. destruct H as [H | H].
    + eapply in_skipn; eauto.
    + apply in_stride_aux in H. apply in_firstn in H.
      eapply in_skipn; eauto.
Qed.

Definition non_negative (pos : Position) : Prop := 0 <= fst pos /\ 0 <= snd pos.

Lemma candidate_positions_non_negative (s : HSheet) :
  Forall non_negative (get_candidate_positions kerf s).
Proof.
  unfold get_candidate_positions.
  destruct (panels s) as [|e ps].
  - repeat constructor; simpl; lra.
  - apply Forall_forall. intros pos H.
    apply (Permutation_in _ (Permutation_sym (sort_by_perm _ _))) in H.
    apply filter_In in H. destruct H as [_ H].
    unfold pos_valid in H. qbool. split; assumption.
Qed.

Lemma try_add_panel_spec (s : HSheet) (panel panel' : Panel)
  (x y : Q) (rot : bool) :
  try_add_panel kerf s panel = Ok (true, x, y, rot, panel') ->
  panel' = panel /\ 0 <= x /\ 0 <= y /\
  fits kerf s (if rot then rotate panel else panel) x y = Ok true.
Proof.
  unfold try_add_panel. intro H. bind_inv H. destruct a as [b p1].
  apply (try_positions_spec s non_negative) in Ha.
  - destruct Ha as [-> Hb]. unfold best_inv in Hb.
    destruct (best_position b) as [pos|]; [|discriminate].
    inversion H; subst. destruct Hb as [[Hx Hy] Hf]. tauto.
  - apply Forall_forall. intros pos Hp.
    apply in_sample_positions in Hp.
    pose proof (candidate_positions_non_negative s) as Hc.
    rewrite Forall_forall in Hc. now apply Hc.
  - exact I.
Qed.

Lemma add_spec (s s' : HSheet) (p p' : Panel) (ok : bool) :
  add kerf s p = Ok (ok, s', p') ->
  (ok = false /\ s' = s) \/
  (ok = true /\ exists x y,
      0 <= x /\ 0 <= y /\
      fits kerf s p' x y = Ok true /\ place kerf s p' x y = Ok s').
Proof.
  unfold add. intro H. bind_inv H.
  destruct a as [[[[success x] y] rot] p1].
  destruct success.
  - bind_inv H. inversion H; subst. right. split; [reflexivity|].
    apply try_add_panel_spec in Ha. destruct Ha as (-> & Hx & Hy & Hf).
    exists x, y. tauto.
  - inversion H; subst. left. split; reflexivity.
Qed.

End AddedSheets.

(* ------------------------------------------------------------------ *)
(** ** No overlap and containment on sheets filled by [Sheet.add] *)

Section AddInvariants.

Variable kerf : Q.

(** Footprint of a placed entry against another placed entry. *)
Definition entries_disjoint (e1 e2 : Panel * Q * Q) : Prop :=
  footprints_disjoint kerf (snd (fst e1)) (snd e1)
    (get_placed_width kerf (fst (fst e1)))
    (get_placed_height kerf (fst (fst e1))) e2.

(** No two distinct placed panels have overlapping footprints. *)
Definition no_overlap (s : HSheet) : Prop :=
  forall i j e1 e2,
    i <> j ->
    nth_error (panels s) i = Some e1 -> nth_error (panels s) j = Some e2 ->
    entries_disjoint e1 e2.

Lemma entries_disjoint_sym (e1 e2 : Panel * Q * Q) :
  entries_disjoint e1 e2 -> entries_disjoint e2 e1.
Proof. unfold entries_disjoint, footprints_disjoint. cbv zeta. tauto. Qed.

Lemma nth_error_snoc {A : Type} (l : list A) (a e : A) (i : nat) :
  nth_error (l ++ [a]) i = Some e ->
  ((i < length l)%nat /\ nth_error l i = Some e) \/ (i = length l /\ e = a).
Proof.
  intro H. destruct (Nat.lt_ge_cases i (length l)) as [L | L].
  - left. rewrite nth_error_app1 in H by exact L. tauto.
  - right. rewrite nth_error_app2 in H by exact L.
    destruct (i - length l)%nat as [|k] eqn:E; simpl in H.
    + inversion H. split; [lia | reflexivity].
    + destruct k; discriminate.
Qed.

(** Placing a panel where [fits] has accepted it keeps the invariants; this
    is the step [Sheet.add] takes, whatever the candidate search before it. *)
Lemma fit_place_keeps_invariants (s s' : HSheet) (p : Panel) (x y : Q) :
  sheet_inv kerf s -> no_overlap s ->
  Forall (entry_ok kerf) (panels s') ->
  fits kerf s p x y = Ok true ->
  place kerf s p x y = Ok s' ->
  sheet_inv kerf s' /\ no_overlap s'.
Proof.
  intros I N Hall Hf Hp.
  split; [eapply place_inv; eauto|].
  destruct (place_fields kerf s s' p x y Hp) as (Hps & _).
  rewrite Hps in Hall. apply Forall_app in Hall. destruct Hall as [Hold Hnew].
  inversion Hnew as [|? ? Hok _]; subst.
  rewrite (fits_naive kerf s p x y I Hold Hok) in Hf.
  inversion Hf as [Hn]. apply naive_fits_iff in Hn. destruct Hn as [_ Hd].
  rewrite Forall_forall in Hd.
  intros i j e1 e2 Hij H1 H2. rewrite Hps in H1, H2.
  apply nth_error_snoc in H1, H2.
  destruct H1 as [[L1 H1] | [-> ->]], H2 as [[L2 H2] | [-> ->]].
  - eapply N; eauto.
  - apply entries_disjoint_sym. unfold entries_disjoint; simpl.
    apply Hd. eapply nth_error_In; eauto.
  - unfold entries_disjoint; simpl. apply Hd. eapply nth_error_In; eauto.
  - contradiction.
Qed.

Lemma add_keeps_invariants (s s' : HSheet) (p p' : Panel) (ok : bool) :
  sheet_inv kerf s -> no_overlap s ->
  Forall (entry_ok kerf) (panels s') ->
  add kerf s p = Ok (ok, s', p') ->
  sheet_inv kerf s' /\ no_overlap s'.
Proof.
  intros I N Hall H. apply add_spec in H.
  destruct H as [[_ ->] | [_ (x & y & _ & _ & Hf & Hp)]]; [tauto|].
  eapply fit_place_keeps_invariants; eauto.
Qed.

Lemma add_panels_grow (s s' : HSheet) (p p' : Panel) (ok : bool) :
  add kerf s p = Ok (ok, s', p') ->
  s_w s' = s_w s /\ s_h s' = s_h s /\
  exists added, panels s' = panels s ++ added.
Proof.
  intro H. apply add_spec in H.
  destruct H as [[_ ->] | [_ (x & y & _ & _ & _ & Hp)]].
  - repeat split. exists []. now rewrite app_nil_r.
  - apply place_fields in Hp. destruct Hp as (Hps & _ & Hw & Hh & _).
    repeat split; auto. eexists; eauto.
Qed.

(** C1 (as amended). On the rectangular engine, on every sheet reached from
    a fresh sheet by calls to [Sheet.add], the kerf-inclusive footprints of
    any two distinct placed panels do not overlap.  Sheet sizes are positive
    and placed sizes are not negative. *)
Theorem no_overlap_invariant
  (w h : Q) (tid : nat) (avg : option Q) (s : HSheet) :
  0 < w -> 0 < h ->
  added_from kerf (Sheet_init Panel w h tid avg) s ->
  Forall (entry_ok kerf) (panels s) ->
  no_overlap s.
Proof.
  intros Hw Hh Hs.
  assert (G : Forall (entry_ok kerf) (panels s) ->
              sheet_inv kerf s /\ no_overlap s); [|tauto].
  induction Hs as [|s s' p p' ok Hs IH Ha]; intro Hall.
  - split; [now apply sheet_init_inv|].
    intros i j e1 e2 _ H. destruct i; discriminate.
  - destruct (add_panels_grow s s' p p' ok Ha) as (_ & _ & added & Hps).
    assert (Hprev : Forall (entry_ok kerf) (panels s)).
    { rewrite Hps in Hall. apply Forall_app in Hall. tauto. }
    destruct (IH Hprev) as [I N].
    eapply add_keeps_invariants; eauto.
Qed.

(** A placed footprint starts inside the sheet and ends at most the
    tolerance beyond it. *)
Definition placed_within_tolerance (w h : Q) (e : Panel * Q * Q) : Prop :=
  0 <= snd (fst e) /\ 0 <= snd e /\
  snd (fst e) + get_placed_width kerf (fst (fst e)) <= w + epsilon /\
  snd e + get_placed_height kerf (fst (fst e)) <= h + epsilon.

(** C2 (as amended). On every sheet reached by calls to [Sheet.add], every
    placed footprint has x >= 0, y >= 0, x + placed width <= sheet width +
    1e-6 and y + placed height <= sheet height + 1e-6. *)
Theorem containment_up_to_tolerance
  (w h : Q) (tid : nat) (avg : option Q) (s : HSheet) :
  added_from kerf (Sheet_init Panel w h tid avg) s ->
  Forall (placed_within_tolerance w h) (panels s).
Proof.
  intro Hs.
  assert (G : s_w s = w /\ s_h s = h /\
              Forall (placed_within_tolerance w h) (panels s)); [|tauto].
  induction Hs as [|s s' p p' ok Hs IH Ha].
  - simpl. repeat split. constructor.
  - destruct IH as (Hw & Hh & IH).
    apply add_spec in Ha.
    destruct Ha as [[_ ->] | [_ (x & y & Hx & Hy & Hf & Hp)]]; [tauto|].
    apply place_fields in Hp. destruct Hp as (Hps & _ & Hw' & Hh' & _).
    split; [congruence|]. split; [congruence|].
    rewrite Hps. apply Forall_app. split; [exact IH|].
    constructor; [|constructor].
    apply fits_true_in_bounds in Hf. unfold within_bounds in Hf.
    rewrite Hw, Hh in Hf. unfold placed_within_tolerance; simpl. tauto.
Qed.

End AddInvariants.

(** Two panels added to a 100 x 50 sheet with kerf 3: 20 x 10 lands at the
    origin, 30 x 45 is rotated and lands at (23, 0). *)
Definition demo_first : HSheet :=
  match add 3 demo_empty demo_panel with
  | Ok (_, s1, _) => s1
  | Raise _ => demo_empty
  end.

Definition demo_added : HSheet :=
  match add 3 demo_first (Panel_init 30 45 1 None) with
  | Ok (_, s2, _) => s2
  | Raise _ => demo_first
  end.

Example demo_added_panels :
  map (fun e => (pw_ (fst (fst e)), ph_ (fst (fst e)), snd (fst e), snd e))
      (panels demo_added)
  = [(20, 10, 0, 0); (45, 30, 23, 0)].
Proof. vm_compute. reflexivity. Qed.

Lemma no_overlap_invariant_witness : no_overlap 3 demo_added.
Proof.
  apply (no_overlap_invariant 3 100 50 0 (Some 4) demo_added).
  - reflexivity.
  - reflexivity.
  - apply (added_step_run 3 demo_empty demo_first demo_added
             (Panel_init 30 45 1 None)).
    + apply (added_step_run 3 demo_empty demo_empty demo_first demo_panel).
      * apply added_refl.
      * vm_compute. reflexivity.
    + vm_compute. reflexivity.
  - apply entries_okb. vm_compute. reflexivity.
Defined.

Lemma containment_up_to_tolerance_witness :
  Forall (placed_within_tolerance 3 100 50) (panels demo_added).
Proof.
  apply (containment_up_to_tolerance 3 100 50 0 (Some 4) demo_added).
  apply (added_step_run 3 demo_empty demo_first demo_added
           (Panel_init 30 45 1 None)).
  - apply (added_step_run 3 demo_empty demo_empty demo_first demo_panel).
    + apply added_refl.
    + vm_compute. reflexivity.
  - vm_compute. reflexivity.
Defined.

(** C2 (as stated) fails.  On a 100 x 100 sheet with kerf 0, [Sheet.add]
    accepts a panel of width 100.0000005 at (0, 0); its footprint ends beyond
    the sheet width. *)
Lemma containment_exceeds_sheet :
  exists s p,
    add 0 (Sheet_init Panel 100 100 0 None)
        (Panel_init (1000000005 # 10000000) 10 0 None) = Ok (true, s, p) /\
    panels s = [(p, 0, 0)] /\
    s_w s < 0 + get_placed_width 0 p.
Proof.
  eexists. eexists. split; [vm_compute; reflexivity|].
  split; [reflexivity | vm_compute; reflexivity].
Qed.

(* ------------------------------------------------------------------ *)
(** ** Termination of the nesting driver *)

Section DriverFacts.

Variable kerf : Q.
Variable sqrt_float : Q -> Q.

Lemma list_update_length {A : Type} (l l' : list A) (i : nat)
  (f : A -> result A) :
  list_update l i f = Ok l' -> length l' = length l.
Proof.
  revert i l'. induction l as [|a l IH]; intros i l' H; simpl in H.
  - discriminate.
  - destruct i as [|i].
    + bind_inv H. inversion H; subst. reflexivity.
    + bind_inv H. inversion H; subst. simpl. f_equal. eapply IH; eauto.
Qed.

Lemma list_pop_length {A : Type} (l l' : list A) (i : nat) :
  list_pop l i = Ok l' -> length l = S (length l').
Proof.
  revert i l'. induction l as [|a l IH]; intros i l' H; simpl in H.
  - discriminate.
  - destruct i as [|i].
    + inversion H; subst. reflexivity.
    + bind_inv H. inversion H; subst. simpl. f_equal. eapply IH; eauto.
Qed.

Lemma pop_all_length {A : Type} (idxs : list nat) (l l' : list A) :
  pop_all l idxs = Ok l' -> length l = (length l' + length idxs)%nat.
Proof.
  revert l. induction idxs as [|i idxs IH]; intros l H; simpl in H.
  - inversion H; subst. simpl. lia.
  - bind_inv H. apply list_pop_length in Ha. apply IH in H. simpl. lia.
Qed.

Lemma remove_placed_length {A : Type} (idxs : list nat) (l l' : list A) :
  remove_placed l idxs = Ok l' -> length l = (length l' + length idxs)%nat.
Proof.
  unfold remove_placed. intro H. apply pop_all_length in H.
  now rewrite length_rev, sort_by_length in H.
Qed.

Lemma fill_sheet_length (items : list (nat * Panel)) (sheet sheet' : HSheet)
  (rem rem' : list Panel) (skip placed placed' : list nat) :
  fill_sheet kerf sheet items rem skip placed = Ok (sheet', rem', placed') ->
  length rem' = length rem.
Proof.
  revert sheet rem placed.
  induction items as [|[i panel] items IH]; intros sheet rem placed H;
    simpl in H.
  - inversion H; subst. reflexivity.
  - destruct (existsb (Nat.eqb i) skip); [eapply IH; eauto|].
    bind_inv H. destruct a as [[ok sh] pc]. destruct ok.
    + bind_inv H. rename a into rem1. apply list_update_length in Ha0.
      bind_inv H. destruct a.
      * inversion H; subst. exact Ha0.
      * apply IH in H. congruence.
    + eapply IH; eauto.
Qed.

Lemma fill_existing_length (todo done sheets' : list HSheet)
  (rem rem' : list Panel) (placed placed' : list nat) :
  fill_existing kerf todo done rem placed = Ok (sheets', rem', placed') ->
  length rem' = length rem.
Proof.
  revert done rem placed.
  induction todo as [|sheet todo IH]; intros done rem placed H; simpl in H.
  - inversion H; subst. reflexivity.
  - bind_inv H. destruct a.
    + eapply IH; eauto.
    + bind_inv H. destruct a as [[sh rem1] sp].
      apply fill_sheet_length in Ha0. apply IH in H. congruence.
Qed.

(** A pass of the loop body that lets the loop go on has removed at least
    one panel from [remaining]. *)
Lemma loop_work_decreases (avg : Q) (sizes : list SheetSize)
  (d d' : DriverState) :
  loop_work kerf avg sizes d = Ok (Continue d') ->
  (length (remaining d') < length (remaining d))%nat /\
  iteration d' = S (iteration d).
Proof.
  unfold loop_work. intro H.
  bind_inv H. destruct a as [[sheets1 rem1] placed_indices].
  apply fill_existing_length in Ha.
  bind_inv H. rename a into rem2.
  assert (L2 : (length rem2 <= length (remaining d))%nat).
  { destruct placed_indices.
    - inversion Ha0; subst. lia.
    - apply remove_placed_length in Ha0. lia. }
  destruct rem2 as [|first rem2']; [discriminate|].
  bind_inv H. destruct a as [best_config score].
  destruct best_config as [[[sheet_w sheet_h] tid]|].
  - bind_inv H. destruct a as [[new_sheet' rem3] placed].
    apply fill_sheet_length in Ha2.
    destruct placed as [|i placed]; [discriminate|].
    bind_inv H. apply remove_placed_length in Ha3.
    inversion H; subst; simpl in *. split; [lia | reflexivity].
  - bind_inv H. bind_inv H. apply list_pop_length in Ha3.
    destruct a; inversion H; subst; simpl in *; split; (lia || reflexivity).
Qed.

Lemma safety_check_cases (n : nat) (d : DriverState) :
  (safety_check n d = Continue d /\ (iteration d <= n * 2)%nat) \/
  ((n * 2 < iteration d)%nat /\
   safety_check n d
   = Break (mkDriver (sheets d) (remaining d) (iteration d)
              (log d ++ [ErrTooManyIterations (length (remaining d))]))).
Proof.
  unfold safety_check. destruct (n * 2 <? iteration d)%nat eqn:E.
  - right. apply Nat.ltb_lt in E. split; [exact E | reflexivity].
  - left. apply Nat.ltb_ge in E. split; [reflexivity | exact E].
Qed.

Lemma nest_loop_terminates (avg : Q) (sizes : list SheetSize) (n : nat)
  (fuel : nat) (passes : nat) (d : DriverState) :
  (length (remaining d) < fuel)%nat ->
  exists k r,
    nest_loop kerf fuel avg sizes n passes d = Some (k, r) /\
    (k <= passes + length (remaining d))%nat.
Proof.
  revert passes d. induction fuel as [|fuel IH]; intros passes d Hf; [lia|].
  simpl. destruct (remaining d) as [|p rest] eqn:Er.
  - exists passes, (Ok d). split; [reflexivity | lia].
  - unfold loop_body.
    destruct (loop_work kerf avg sizes d) as [[d' | d'] | e] eqn:Ew; simpl.
    + apply loop_work_decreases in Ew. destruct Ew as [Hlen _].
      rewrite Er in Hlen. simpl in Hlen, Hf.
      destruct (safety_check_cases n d') as [[-> _] | [_ ->]].
      * destruct (IH (S passes) d') as (k & r & Hk & Hle); [lia|].
        exists k, r. split; [exact Hk | simpl; lia].
      * eexists. eexists. split; [reflexivity | simpl; lia].
    + eexists. eexists. split; [reflexivity | simpl; lia].
    + eexists. eexists. split; [reflexivity | simpl; lia].
Qed.

(** Every pass that lets the loop go on removes a panel, so the loop makes
    at most as many passes as there are panels. *)
Lemma nest_panels_passes (ps : list Panel) (sizes : list SheetSize) :
  exists k r,
    nest_panels kerf sqrt_float (S (length ps)) ps sizes = Some (k, r) /\
    (k <= length ps)%nat.
Proof.
  unfold nest_panels. destruct ps as [|p ps'] eqn:Eps.
  - exists 0%nat. eexists. split; [reflexivity | lia].
  - rewrite <- Eps.
    set (sorted := sort_by panel_key_ge ps).
    assert (Hlen : length sorted = length ps) by apply sort_by_length.
    destruct (nest_loop_terminates
                (sqrt_float (sum_area ps / inject_Z (Z.of_nat (length ps))))
                sizes (length sorted) (S (length ps)) 0
                (mkDriver [] sorted 0 []))
      as (k & r & Hk & Hle).
    { simpl. lia. }
    exists k, r. split; [exact Hk | simpl in Hle; lia].
Qed.

(** C7. For every input the driver terminates: with fuel for one pass more
    than there are panels the [while] loop has ended, after at most
    2 * (initial panel count) passes.  And whenever a pass ends with the
    iteration counter above that cap, the loop stops there, the error
    diagnostic is logged, and the driver returns the sheets built so far
    without raising. *)
Theorem nest_panels_iteration_cap :
  (forall (ps : list Panel) (sizes : list SheetSize),
      exists k r,
        nest_panels kerf sqrt_float (S (length ps)) ps sizes = Some (k, r) /\
        (k <= 2 * length ps)%nat) /\
  (forall (avg : Q) (sizes : list SheetSize) (n fuel passes : nat)
          (d d' : DriverState),
      remaining d <> [] ->
      loop_work kerf avg sizes d = Ok (Continue d') ->
      (n * 2 < iteration d')%nat ->
      nest_loop kerf (S fuel) avg sizes n passes d
      = Some (S passes,
              Ok (mkDriver (sheets d') (remaining d') (iteration d')
                    (log d' ++ [ErrTooManyIterations (length (remaining d'))])))).
Proof.
  split.
  - intros ps sizes.
    destruct (nest_panels_passes ps sizes) as (k & r & Hk & Hle).
    exists k, r. split; [exact Hk | lia].
  - intros avg sizes n fuel passes d d' Hne Hw Hcap. simpl.
    destruct (remaining d) as [|p rest]; [contradiction|].
    unfold loop_body. rewrite Hw. simpl.
    destruct (safety_check_cases n d') as [[_ Hle] | [_ ->]]; [lia|].
    reflexivity.
Qed.

End DriverFacts.

(** A loop state whose counter is already past the cap for one panel: the
    pass places the 20 x 10 panel on a new 100 x 50 sheet, leaves the
    oversized panel, and the safety check then ends the loop. *)
Definition cap_sizes : list SheetSize := [(100, 50, 0%nat)].
Definition cap_before : DriverState :=
  mkDriver [] [Panel_init 20 10 0 None; Panel_init 200 200 1 None] 5 [].
Definition cap_after : DriverState :=
  match loop_work 3 4 cap_sizes cap_before with
  | Ok (Continue d) => d
  | _ => cap_before
  end.

Lemma nest_panels_iteration_cap_witness :
  nest_loop 3 1 4 cap_sizes 1 0 cap_before
  = Some (1%nat,
          Ok (mkDriver (sheets cap_after) (remaining cap_after)
                (iteration cap_after)
                (log cap_after
                 ++ [ErrTooManyIterations (length (remaining cap_after))]))).
Proof.
  apply (proj2 (nest_panels_iteration_cap 3 (fun _ => 4))
           4 cap_sizes 1%nat 0%nat 0%nat cap_before cap_after).
  - discriminate.
  - vm_compute. reflexivity.
  - vm_compute. lia.
Defined.

Example cap_after_state :
  length (sheets cap_after) = 1%nat /\ length (remaining cap_after) = 1%nat /\
  iteration cap_after = 6%nat /\ log cap_after = [].
Proof. vm_compute. repeat split. Qed.

(** Two runs of the driver with kerf 0.  Stock 100 x 100 with panels
    60 x 40, 40 x 60 and 50 x 50: one pass, one sheet, nothing left.  Stock
    10 x 10 with a panel 11 x 5: one pass, no sheet, a warning. *)
Definition run_summary (r : option (nat * result DriverState))
  : option (nat * nat * nat * list Msg) :=
  match r with
  | Some (k, Ok d) => Some (k, length (sheets d), length (remaining d), log d)
  | _ => None
  end.

Example nest_three_panels :
  run_summary
    (nest_panels 0 (fun _ => 49) 4
       [Panel_init 60 40 0 None; Panel_init 40 60 1 None;
        Panel_init 50 50 2 None]
       [(100, 100, 0%nat)])
  = Some (1%nat, 1%nat, 0%nat, []).
Proof. vm_compute. reflexivity. Qed.

Example nest_unplaceable_panel :
  run_summary
    (nest_panels 0 (fun _ => 7) 2 [Panel_init 11 5 0 None] [(10, 10, 0%nat)])
  = Some (1%nat, 0%nat, 0%nat, [WarnCannotPlace 0]).
Proof. vm_compute. reflexivity. Qed.

(** The accumulator on concrete sheets: 23 * 13 after the first placement,
    23 * 13 + 48 * 33 after the second; a triangle of area 50 in a 10 x 10
    bounding box adds 50 on the shape-bearing engine. *)
Definition demo_triangle : PlanarPanel :=
  PlanarPanel_init 10 10 50 [(0, 0); (10, 0); (0, 10)] 0.

Example demo_filled_area :
  filled_area demo_sheet == 299 /\
  filled_area demo_added == 1883 /\
  option_map (fun s => filled_area s)
    (match planar_place 3 (Sheet_init PlanarPanel 100 50 0 None)
                        demo_triangle 0 0 with
     | Ok s => Some s
     | Raise _ => None
     end) = Some (0 + 50).
Proof. repeat split; vm_compute; reflexivity. Qed.

(* ------------------------------------------------------------------ *)
(** ** Bounding rectangles on the shape-bearing engine *)

(** A 20 x 40 sheet, kerf 0; a triangle that fills the upper right half of
    its 20 x 20 bounding box, and two 5 x 5 squares. *)
Definition tri_sheet : Sheet PlanarPanel := Sheet_init PlanarPanel 20 40 0 None.
Definition tri_panel : PlanarPanel :=
  PlanarPanel_init 20 20 200 [(20, 0); (20, 20); (0, 20)] 0.
Definition square_panel (i : nat) : PlanarPanel :=
  PlanarPanel_init 5 5 25 [(0, 0); (5, 0); (5, 5); (0, 5)] i.

(** C1 (as stated) fails on the shape-bearing engine.  [Sheet.add] puts the
    triangle at (0, 0), the first square above it at (0, 20), and the second
    square at (5, 0), in the free corner of the triangle's bounding box: the
    rectangles overlap, the polygon test finds no collision, and [fits]
    accepts the position. *)
Lemma planar_bounding_boxes_overlap :
  exists s1 s2 s3 a p n,
    planar_add 0 tri_sheet tri_panel = Ok (true, s1, a) /\
    planar_add 0 s1 (square_panel 1) = Ok (true, s2, p) /\
    planar_add 0 s2 (square_panel 2) = Ok (true, s3, n) /\
    panels s3 = [(a, 0, 0); (p, 0, 20); (n, 5, 0)] /\
    planar_placed_width 0 a == 20 /\ planar_placed_height 0 a == 20 /\
    planar_placed_width 0 n == 5 /\ planar_placed_height 0 n == 5 /\
    rect_overlap 5 0 (planar_placed_width 0 n) (planar_placed_height 0 n)
                 0 0 (planar_placed_width 0 a) (planar_placed_height 0 a)
    = true.
Proof.
  do 6 eexists.
  split; [vm_compute; reflexivity|].
  split; [vm_compute; reflexivity|].
  split; [vm_compute; reflexivity|].
  split; [reflexivity|].
  repeat split; vm_compute; reflexivity.
Qed.

(** Two 10 x 10 panels on 10 x 10 stock take two passes and two sheets: the
    bound of one pass per panel is attained. *)
Example nest_two_full_sheets :
  run_summary
    (nest_panels 0 (fun _ => 10) 3
       [Panel_init 10 10 0 None; Panel_init 10 10 1 None] [(10, 10, 0%nat)])
  = Some (2%nat, 2%nat, 0%nat, []).
Proof. vm_compute. reflexivity. Qed.

(* ------------------------------------------------------------------ *)
(** ** A region the free-rectangle index has lost *)




(* ================================================================== *)
(** * Further properties of the engine *)

(* ------------------------------------------------------------------ *)
(** ** Copies and trial placements *)

Lemma iter_rotate_cases (n : nat) (p : Panel) :
  Nat.iter n rotate p = p \/ Nat.iter n rotate p = rotate p.
Proof.
  induction n as [|n [IH | IH]]; simpl.
  - now left.
  - right. now rewrite IH.
  - left. now rewrite IH, rotate_rotate.
Qed.

(** X1. [Panel.copy] gives back the state of the panel it copies: for a
    panel built by the constructor and rotated any number of times, the copy
    is equal to the panel, field by field. *)
Theorem copy_of_rotated_panel
  (w h : Q) (i : nat) (t : option String.string) (n : nat) :
  copy (Nat.iter n rotate (Panel_init w h i t))
  = Nat.iter n rotate (Panel_init w h i t).
Proof.
  destruct (iter_rotate_cases n (Panel_init w h i t)) as [-> | ->];
    reflexivity.
Qed.

Lemma try_add_panel_keeps_panel (kerf : Q) (s : HSheet) (panel panel' : Panel)
  (x y : Q) (rot ok : bool) :
  try_add_panel kerf s panel = Ok (ok, x, y, rot, panel') -> panel' = panel.
Proof.
  unfold try_add_panel. intro H. bind_inv H. destruct a as [b p1].
  apply (try_positions_spec kerf s (fun _ => True)) in Ha.
  - destruct Ha as [-> _].
    destruct (best_position b); inversion H; reflexivity.
  - apply Forall_forall. intros; exact I.
  - exact I.
Qed.

(** X2. [Sheet.add] either fails and leaves the sheet and the panel as they
    were, or succeeds and appends exactly one entry: the panel as passed or
    rotated once, at a position where [fits] accepted it in that
    orientation. *)
Theorem add_outcome (kerf : Q) (s s' : HSheet) (p p' : Panel) (ok : bool) :
  add kerf s p = Ok (ok, s', p') ->
  if ok then
    exists x y,
      (p' = p \/ p' = rotate p) /\
      fits kerf s p' x y = Ok true /\
      panels s' = panels s ++ [(p', x, y)]
  else s' = s /\ p' = p.
Proof.
  unfold add. intro H. bind_inv H.
  destruct a as [[[[success x] y] rot] p1].
  pose proof (try_add_panel_keeps_panel _ _ _ _ _ _ _ _ Ha) as Hp1. subst p1.
  destruct success.
  - bind_inv H. inversion H; subst.
    apply try_add_panel_spec in Ha. destruct Ha as (_ & _ & _ & Hf).
    apply place_fields in Ha0. destruct Ha0 as (Hps & _).
    exists x, y. split; [destruct rot; auto|]. split; assumption.
  - inversion H; subst. split; reflexivity.
Qed.

Lemma add_outcome_witness :
  exists x y,
    (demo_panel = demo_panel \/ demo_panel = rotate demo_panel) /\
    fits 3 demo_empty demo_panel x y = Ok true /\
    panels demo_first = panels demo_empty ++ [(demo_panel, x, y)].
Proof.
  apply (add_outcome 3 demo_empty demo_first demo_panel demo_panel true).
  vm_compute. reflexivity.
Defined.

(* ------------------------------------------------------------------ *)
(** ** Candidate positions *)

(** Order of the sort key [(p[1], p[0])]: lower first, then further left. *)
Definition pos_key_le (a b : Position) : Prop :=
  snd a < snd b \/ (snd a == snd b /\ fst a <= fst b).

Definition inside_sheet (s : HSheet) (p : Position) : Prop :=
  0 <= fst p /\ fst p < s_w s /\ 0 <= snd p /\ snd p < s_h s.

(** X3. The candidate positions of a sheet are sorted bottom-up, then left
    to right.  An empty sheet offers the origin alone; on a sheet that holds
    panels every candidate lies inside the sheet, [0 <= x < w] and
    [0 <= y < h]. *)
Theorem candidate_positions_sorted_inside (kerf : Q) (s : HSheet) :
  StronglySorted pos_key_le (get_candidate_positions kerf s) /\
  (panels s = [] -> get_candidate_positions kerf s = [(0, 0)]) /\
  (panels s <> [] ->
   Forall (inside_sheet s) (get_candidate_positions kerf s)).
Proof.
  unfold get_candidate_positions. destruct (panels s) as [|e ps] eqn:E.
  - split; [|split].
    + repeat constructor.
    + reflexivity.
    + intro H. now contradiction H.
  - split; [|split].
    + eapply strongly_sorted_impl; [|apply (sort_by_sorted pos_le)].
      * intros a b H. now apply pair_le_iff.
      * intros a b. apply pair_le_total.
      * intros a b c. apply pair_le_trans.
    + discriminate.
    + intros _. apply Forall_forall. intros pos H.
      apply (Permutation_in _ (Permutation_sym (sort_by_perm _ _))) in H.
      apply filter_In in H. destruct H as [_ H].
      unfold pos_valid in H. qbool. unfold inside_sheet. tauto.
Qed.

Lemma firstn_app_exact {A : Type} (l1 l2 : list A) :
  firstn (length l1) (l1 ++ l2) = l1.
Proof.
  induction l1 as [|a l1 IH]; simpl.
  - now destruct l2.
  - now rewrite IH.
Qed.

(** X4. The positions [try_add_panel] examines are drawn from the
    candidates, are at most 50, and always include the 20 first candidates,
    in order; up to 50 candidates are all examined. *)
Theorem sampled_positions_cap (positions : list Position) :
  (length (sample_positions positions) <= 50)%nat /\
  incl (sample_positions positions) positions /\
  firstn 20 (sample_positions positions) = firstn 20 positions /\
  ((length positions <= 50)%nat -> sample_positions positions = positions).
Proof.
  split; [|split; [|split]].
  - unfold sample_positions.
    destruct (50 <? length positions)%nat eqn:E.
    + apply firstn_le_length.
    + now apply Nat.ltb_ge in E.
  - intros p. apply in_sample_positions.
  - unfold sample_positions.
    destruct (50 <? length positions)%nat eqn:E; [|reflexivity].
    apply Nat.ltb_lt in E.
    rewrite firstn_firstn. change (Nat.min 20 50) with 20%nat.
    assert (L : length (firstn 20 positions) = 20%nat).
    { rewrite length_firstn. lia. }
    rewrite <- L at 1. apply firstn_app_exact.
  - intro H. unfold sample_positions.
    destruct (50 <? length positions)%nat eqn:E; [|reflexivity].
    apply Nat.ltb_lt in E. lia.
Qed.

(* ------------------------------------------------------------------ *)
(** ** The free-rectangle index *)

Lemma contains_iff (a b : FreeRectangle) :
  contains a b = true <->
  fx a <= fx b /\ fy a <= fy b /\
  fx b + fw b <= fx a + fw a /\ fy b + fh b <= fy a + fh a.
Proof.
  unfold contains. rewrite !andb_true_iff, !Qleb_le. tauto.
Qed.

Lemma intersects_false_iff (a b : FreeRectangle) :
  intersects a b = false <->
  fx a + fw a <= fx b \/ fx b + fw b <= fx a \/
  fy a + fh a <= fy b \/ fy b + fh b <= fy a.
Proof.
  unfold intersects. rewrite negb_false_iff, !orb_true_iff, !Qleb_le. tauto.
Qed.

Lemma intersects_true_iff (a b : FreeRectangle) :
  intersects a b = true <->
  fx b < fx a + fw a /\ fx a < fx b + fw b /\
  fy b < fy a + fh a /\ fy a < fy b + fh b.
Proof.
  unfold intersects. rewrite negb_true_iff, !orb_false_iff, !Qleb_gt. tauto.
Qed.

Lemma contains_refl (a : FreeRectangle) : contains a a = true.
Proof. apply contains_iff. repeat split; lra. Qed.

Lemma contains_trans (a b c : FreeRectangle) :
  contains a b = true -> contains b c = true -> contains a c = true.
Proof. rewrite !contains_iff. intros; repeat split; lra. Qed.

(** A rectangle with sides of non-negative length that lies in a rectangle
    clear of [c] is clear of [c] too. *)
Lemma contained_keeps_clear (a b c : FreeRectangle) :
  0 <= fw b -> 0 <= fh b ->
  contains a b = true -> intersects a c = false -> intersects b c = false.
Proof.
  rewrite contains_iff, !intersects_false_iff. intros; lra.
Qed.

(** Every piece the split of [rect] leaves lies in [rect], is clear of the
    placed rectangle, and has positive sides when [rect] has. *)
Lemma split_free_rect_pieces (px py pw ph : Q) (rect r : FreeRectangle) :
  In r (split_free_rect px py pw ph rect) ->
  contains rect r = true /\
  intersects r (mkFree px py pw ph) = false /\
  (0 < fw rect -> 0 < fh rect -> 0 < fw r /\ 0 < fh r).
Proof.
  unfold split_free_rect.
  destruct (intersects rect (mkFree px py pw ph)) eqn:E; simpl.
  - apply intersects_true_iff in E. simpl in E.
    destruct E as (E1 & E2 & E3 & E4).
    intro H. repeat (apply in_app_or in H; destruct H as [H | H]).
    + destruct (Qltb (fx rect) px) eqn:C; [|contradiction].
      destruct H as [<- | []]. qbool.
      rewrite contains_iff, intersects_false_iff. simpl.
      repeat split; lra.
    + destruct (Qltb (px + pw) (fx rect + fw rect)) eqn:C; [|contradiction].
      destruct H as [<- | []]. qbool.
      rewrite contains_iff, intersects_false_iff. simpl.
      repeat split; lra.
    + destruct (Qltb (fy rect) py) eqn:C; [|contradiction].
      destruct H as [<- | []]. qbool.
      rewrite contains_iff, intersects_false_iff. simpl.
      repeat split; lra.
    + destruct (Qltb (py + ph) (fy rect + fh rect)) eqn:C; [|contradiction].
      destruct H as [<- | []]. qbool.
      rewrite contains_iff, intersects_false_iff. simpl.
      repeat split; lra.
  - intros [<- | []]. split; [apply contains_refl|]. split; [exact E | tauto].
Qed.

Lemma prune_incl (rects : list FreeRectangle) (r : FreeRectangle) :
  In r (_prune_free_rects rects) -> In r rects.
Proof.
  unfold _prune_free_rects. destruct (length rects <=? 1)%nat; [auto|].
  intro H. apply in_map_iff in H. destruct H as ((k & q) & <- & H).
  apply filter_In in H. destruct H as [H _].
  apply in_enumerate in H. simpl. eapply nth_error_In; eauto.
Qed.

Lemma update_free_rects_pieces (free : list FreeRectangle)
  (px py pw ph : Q) (r : FreeRectangle) :
  In r (_update_free_rects free px py pw ph) ->
  exists rect,
    In rect free /\ contains rect r = true /\
    intersects r (mkFree px py pw ph) = false /\
    (0 < fw rect -> 0 < fh rect -> 0 < fw r /\ 0 < fh r).
Proof.
  unfold _update_free_rects. intro H. apply prune_incl in H.
  apply in_flat_map in H. destruct H as (rect & Hin & H).
  exists rect. split; [exact Hin|]. now apply split_free_rect_pieces.
Qed.

(** A value that is a whole number.  On such values a float sum or
    difference is exact (below 2^53). *)
Definition is_int (q : Q) : Prop := exists z : Z, q == inject_Z z.

Lemma is_int_0 : is_int 0.
Proof. exists 0%Z. reflexivity. Qed.

Lemma is_int_plus (a b : Q) : is_int a -> is_int b -> is_int (a + b).
Proof.
  intros [x Hx] [y Hy]. exists (x + y)%Z.
  rewrite inject_Z_plus, Hx, Hy. reflexivity.
Qed.

Lemma is_int_minus (a b : Q) : is_int a -> is_int b -> is_int (a - b).
Proof.
  intros [x Hx] [y Hy]. exists (x - y)%Z.
  unfold Z.sub. rewrite inject_Z_plus, inject_Z_opp, Hx, Hy. reflexivity.
Qed.

Definition int_rect (r : FreeRectangle) : Prop :=
  is_int (fx r) /\ is_int (fy r) /\ is_int (fw r) /\ is_int (fh r).

(** A placed entry whose panel size and position are whole numbers. *)
Definition int_entry (e : Panel * Q * Q) : Prop :=
  is_int (pw_ (fst (fst e))) /\ is_int (ph_ (fst (fst e))) /\
  is_int (snd (fst e)) /\ is_int (snd e).

Lemma split_free_rect_int (px py pw ph : Q) (rect r : FreeRectangle) :
  is_int px -> is_int py -> is_int pw -> is_int ph -> int_rect rect ->
  In r (split_free_rect px py pw ph rect) -> int_rect r.
Proof.
  intros Hx Hy Hw Hh (Rx & Ry & Rw & Rh). unfold split_free_rect.
  destruct (negb (intersects rect (mkFree px py pw ph))).
  - intros [<- | []]. repeat split; assumption.
  - intro H. repeat (apply in_app_or in H; destruct H as [H | H]);
      match type of H with
      | In _ (if ?c then _ else _) => destruct c; [|contradiction]
      end;
      destruct H as [<- | []]; unfold int_rect; simpl;
      repeat split; auto using is_int_plus, is_int_minus.
Qed.

Lemma update_free_rects_int (free : list FreeRectangle) (px py pw ph : Q) :
  is_int px -> is_int py -> is_int pw -> is_int ph ->
  Forall int_rect free ->
  Forall int_rect (_update_free_rects free px py pw ph).
Proof.
  intros Hx Hy Hw Hh Hf. apply Forall_forall. intros r Hr.
  unfold _update_free_rects in Hr. apply prune_incl in Hr.
  apply in_flat_map in Hr. destruct Hr as (rect & Hin & Hr).
  rewrite Forall_forall in Hf.
  exact (split_free_rect_int px py pw ph rect r Hx Hy Hw Hh (Hf rect Hin) Hr).
Qed.

(** On whole-number data every free rectangle is made of whole numbers. *)
Lemma placed_from_int (kerf w h : Q) (tid : nat) (avg : option Q) (s : HSheet) :
  placed_from kerf (Sheet_init Panel w h tid avg) s ->
  is_int kerf -> is_int w -> is_int h -> Forall int_entry (panels s) ->
  Forall int_rect (free_rects s).
Proof.
  intros Hs Hk Hw Hh. induction Hs as [|s s' p x y Hs IH Hp]; intro He.
  - simpl. constructor; [|constructor].
    repeat split; simpl; auto using is_int_0.
  - unfold place in Hp. bind_inv Hp. bind_inv Hp.
    inversion Hp; subst; simpl in *. clear Hp.
    apply Forall_app in He. destruct He as [He Hlast].
    inversion Hlast as [|? ? (Pw & Ph & Px & Py) _]; subst. simpl in *.
    apply update_free_rects_int; auto;
      unfold get_placed_width, get_placed_height; auto using is_int_plus.
Qed.

Section FreeSpace.

Variable kerf : Q.

(** The footprint of a placed entry as a rectangle. *)
Definition footprint (e : Panel * Q * Q) : FreeRectangle :=
  mkFree (snd (fst e)) (snd e)
         (get_placed_width kerf (fst (fst e)))
         (get_placed_height kerf (fst (fst e))).

Definition rect_in_sheet (w h : Q) (r : FreeRectangle) : Prop :=
  0 <= fx r /\ 0 <= fy r /\ fx r + fw r <= w /\ fy r + fh r <= h.

(** What holds of every free rectangle of a sheet. *)
Definition free_rect_ok (w h : Q) (ps : list (Panel * Q * Q))
  (r : FreeRectangle) : Prop :=
  rect_in_sheet w h r /\ 0 < fw r /\ 0 < fh r /\
  Forall (fun e => intersects r (footprint e) = false) ps.

(** X5. In exact arithmetic the free-rectangle index is sound: on every
    sheet reached by [Sheet.place] from a fresh sheet of positive size, each
    free rectangle lies inside the sheet, has positive width and height, and
    intersects the footprint of no placed panel.  The rationals of the model
    are exact; the source computes the far edge [x + w] of a split piece as a
    rounded float sum, which can pass the edge of the panel or of the sheet
    by one rounding error.  When the kerf, the sheet size and the size and
    position of every placed panel are whole numbers, so is every free
    rectangle: on such data the float sums and differences of the update are
    exact (below 2^53) and the statement is about the values the source
    computes. *)
Theorem free_rects_clear_of_panels
  (w h : Q) (tid : nat) (avg : option Q) (s : HSheet) :
  0 < w -> 0 < h ->
  placed_from kerf (Sheet_init Panel w h tid avg) s ->
  Forall (free_rect_ok w h (panels s)) (free_rects s) /\
  (is_int kerf -> is_int w -> is_int h -> Forall int_entry (panels s) ->
   Forall int_rect (free_rects s)).
Proof.
  intros Hw Hh Hs.
  split; [|exact (placed_from_int kerf w h tid avg s Hs)].
  induction Hs as [|s s' p x y Hs IH Hp].
  - simpl. constructor; [|constructor].
    unfold free_rect_ok, rect_in_sheet; simpl.
    repeat split; try lra. constructor.
  - unfold place in Hp. bind_inv Hp. bind_inv Hp.
    inversion Hp; subst; simpl. clear Hp.
    apply Forall_forall. intros r Hr.
    apply update_free_rects_pieces in Hr.
    destruct Hr as (rect & Hin & Hc & Hclear & Hpos).
    rewrite Forall_forall in IH.
    destruct (IH rect Hin) as (Hin_sheet & Hrw & Hrh & Hold).
    destruct (Hpos Hrw Hrh) as [Hw' Hh'].
    split; [|split; [exact Hw' | split; [exact Hh'|]]].
    + apply contains_iff in Hc. unfold rect_in_sheet in *. lra.
    + apply Forall_app. split.
      * eapply Forall_impl; [|exact Hold]. intros e He.
        eapply contained_keeps_clear; eauto; lra.
      * constructor; [exact Hclear | constructor].
Qed.

End FreeSpace.

Lemma free_rects_clear_of_panels_witness :
  Forall (free_rect_ok 3 100 50 (panels demo_sheet)) (free_rects demo_sheet) /\
  (is_int 3 -> is_int 100 -> is_int 50 ->
   Forall int_entry (panels demo_sheet) ->
   Forall int_rect (free_rects demo_sheet)).
Proof.
  apply (free_rects_clear_of_panels 3 100 50 0 (Some 4) demo_sheet).
  - reflexivity.
  - reflexivity.
  - apply (placed_step 3 demo_empty demo_empty demo_sheet demo_panel 0 0).
    + apply placed_refl.
    + vm_compute. reflexivity.
Defined.

Example demo_free_rects :
  free_rects demo_sheet = [mkFree 23 0 77 50; mkFree 0 13 100 37].
Proof. vm_compute. reflexivity. Qed.

(* ------------------------------------------------------------------ *)
(** ** Pruning without duplicates *)

Definition same_rectb (r q : FreeRectangle) : bool :=
  Qeqb (fx r) (fx q) && Qeqb (fy r) (fy q)
  && Qeqb (fw r) (fw q) && Qeqb (fh r) (fh q).

(** No rectangle occurs at two positions of the list. *)
Definition distinct_rects (rects : list FreeRectangle) : bool :=
  forallb
    (fun ir =>
       forallb (fun jq => Nat.eqb (fst ir) (fst jq)
                          || negb (same_rectb (snd ir) (snd jq)))
               (enumerate rects))
    (enumerate rects).

Lemma same_rectb_iff (r q : FreeRectangle) :
  same_rectb r q = true <-> same_rect r q.
Proof.
  unfold same_rectb, same_rect. rewrite !andb_true_iff, !Qeqb_eq. tauto.
Qed.

Lemma distinct_rects_spec (rects : list FreeRectangle) (i j : nat)
  (r q : FreeRectangle) :
  distinct_rects rects = true ->
  nth_error rects i = Some r -> nth_error rects j = Some q ->
  same_rect r q -> i = j.
Proof.
  unfold distinct_rects. intros H Hi Hj Hs.
  rewrite forallb_forall in H.
  specialize (H (i, r) (proj2 (in_enumerate rects i r) Hi)).
  rewrite forallb_forall in H.
  specialize (H (j, q) (proj2 (in_enumerate rects j q) Hj)). simpl in H.
  apply orb_true_iff in H. destruct H as [H | H].
  - now apply Nat.eqb_eq in H.
  - apply same_rectb_iff in Hs. rewrite Hs in H. discriminate.
Qed.

(** A finite non-empty list has an element of greatest measure. *)
Lemma greatest_element {A : Type} (f : A -> Q) (l : list A) (a0 : A) :
  In a0 l -> exists m, In m l /\ forall a, In a l -> f a <= f m.
Proof.
  revert a0. induction l as [|b l IH]; intros a0 H; [contradiction|].
  destruct l as [|c l'].
  - exists b. split; [now left|]. intros a [<- | []]. lra.
  - destruct (IH c (or_introl eq_refl)) as (m & Hm & Hmax).
    destruct (Qlt_le_dec (f m) (f b)) as [L | L].
    + exists b. split; [now left|].
      intros a [<- | Ha]; [lra|]. specialize (Hmax a Ha). lra.
    + exists m. split; [now right|].
      intros a [<- | Ha]; [exact L | now apply Hmax].
Qed.

Lemma contains_larger (a b : FreeRectangle) :
  contains a b = true -> fw b + fh b <= fw a + fh a.
Proof. rewrite contains_iff. intros; lra. Qed.

Lemma contains_same_measure (a b : FreeRectangle) :
  contains a b = true -> fw a + fh a <= fw b + fh b -> same_rect a b.
Proof. rewrite contains_iff. unfold same_rect. intros; repeat split; lra. Qed.

Lemma prune_keeps (rects : list FreeRectangle) (k : nat) (q : FreeRectangle) :
  nth_error rects k = Some q -> is_contained rects k q = false ->
  In q (_prune_free_rects rects).
Proof.
  intros Hk Hn. unfold _prune_free_rects.
  destruct (length rects <=? 1)%nat; [eapply nth_error_In; eauto|].
  apply in_map_iff. exists (k, q). split; [reflexivity|].
  apply filter_In. split; [now apply in_enumerate|].
  simpl. now rewrite Hn.
Qed.

Lemma is_contained_true (rects : list FreeRectangle) (i : nat)
  (r : FreeRectangle) :
  is_contained rects i r = true ->
  exists j other,
    i <> j /\ nth_error rects j = Some other /\ contains other r = true.
Proof.
  unfold is_contained. intro H. apply existsb_exists in H.
  destruct H as ((j & other) & Hin & H). simpl in H.
  apply andb_true_iff in H. destruct H as [H1 H2].
  apply negb_true_iff, Nat.eqb_neq in H1.
  exists j, other. split; [exact H1|]. split; [now apply in_enumerate | exact H2].
Qed.

(** X6. When no rectangle occurs twice in the list, [_prune_free_rects]
    loses no free area: every rectangle of the input is contained in a
    rectangle of the result. *)
Theorem prune_keeps_a_container (rects : list FreeRectangle) :
  distinct_rects rects = true ->
  Forall (fun r => Exists (fun q => contains q r = true)
                          (_prune_free_rects rects))
         rects.
Proof.
  intro Hd. apply Forall_forall. intros r Hr. apply Exists_exists.
  assert (Hc : In r (filter (fun c => contains c r) rects)).
  { apply filter_In. split; [exact Hr | apply contains_refl]. }
  destruct (greatest_element (fun c => fw c + fh c) _ r Hc) as (m & Hm & Hmax).
  apply filter_In in Hm. destruct Hm as [Hm Hmr].
  exists m. split; [|exact Hmr].
  destruct (In_nth_error _ _ Hm) as (k & Hk).
  apply (prune_keeps rects k m Hk).
  destruct (is_contained rects k m) eqn:E; [|reflexivity].
  exfalso. apply is_contained_true in E.
  destruct E as (j & other & Hkj & Hj & Ho).
  assert (Hin : In other (filter (fun c => contains c r) rects)).
  { apply filter_In. split; [eapply nth_error_In; eauto|].
    eapply contains_trans; eauto. }
  specialize (Hmax other Hin). simpl in Hmax.
  pose proof (contains_same_measure other m Ho Hmax) as Hs.
  apply Hkj. symmetry.
  eapply (distinct_rects_spec rects j k other m); eauto.
Qed.

Lemma prune_keeps_a_container_witness :
  Forall (fun r => Exists (fun q => contains q r = true)
                          (_prune_free_rects
                             [mkFree 0 0 10 5; mkFree 0 0 20 10; mkFree 5 5 30 2]))
         [mkFree 0 0 10 5; mkFree 0 0 20 10; mkFree 5 5 30 2].
Proof.
  apply (prune_keeps_a_container
           [mkFree 0 0 10 5; mkFree 0 0 20 10; mkFree 5 5 30 2]).
  vm_compute. reflexivity.
Defined.

Example prune_drops_contained :
  _prune_free_rects [mkFree 0 0 10 5; mkFree 0 0 20 10; mkFree 5 5 30 2]
  = [mkFree 0 0 20 10; mkFree 5 5 30 2].
Proof. vm_compute. reflexivity. Qed.

(* ------------------------------------------------------------------ *)
(** ** Grid cells of a fresh sheet *)

Definition cell_in_grid {P : Type} (s : Sheet P) (rc : nat * nat) : Prop :=
  (fst rc < Z.to_nat (grid_rows s))%nat /\ (snd rc < Z.to_nat (grid_cols s))%nat.

Lemma sheet_init_cells_positive (P : Type) (w h : Q) (tid : nat)
  (avg : option Q) :
  0 < w -> 0 < h ->
  0 < cell_w (Sheet_init P w h tid avg) /\ 0 < cell_h (Sheet_init P w h tid avg).
Proof.
  intros Hw Hh.
  assert (Hpos : forall n : Z, (0 < n)%Z -> 0 < / inject_Z n).
  { intros n Hn. apply Qinv_lt_0_compat.
    replace 0 with (inject_Z 0) by reflexivity. now rewrite <- Zlt_Qlt. }
  simpl. unfold Qdiv.
  split; apply Qmult_lt_0_compat; auto using grid_dim_pos.
Qed.

(** X7. On a sheet built by the constructor with positive width and height,
    [_get_grid_cells] does not raise; every cell it returns is a cell of the
    grid; and a footprint of non-negative size gets at least one cell. *)
Theorem grid_cells_of_fresh_sheet
  (P : Type) (w h : Q) (tid : nat) (avg : option Q) (x y pw ph : Q) :
  0 < w -> 0 < h ->
  exists cells,
    _get_grid_cells (Sheet_init P w h tid avg) x y pw ph = Ok cells /\
    Forall (cell_in_grid (Sheet_init P w h tid avg)) cells /\
    (0 <= pw -> 0 <= ph -> cells <> []).
Proof.
  intros Hw Hh.
  destruct (sheet_init_cells_positive P w h tid avg Hw Hh) as [Hcw Hch].
  set (s := Sheet_init P w h tid avg) in *.
  exists (cells_of s x y pw ph). split; [now apply get_grid_cells_ok|]. split.
  - apply Forall_forall. intros [r c] H. unfold cells_of in H.
    apply in_cells_between in H. unfold cell_in_grid. cbn [fst snd]. lia.
  - intros Hpw Hph.
    pose proof (grid_dim_pos w avg) as Gc. pose proof (grid_dim_pos h avg) as Gr.
    assert (Hin : In (lo_index (grid_rows s) (cell_h s) y,
                      lo_index (grid_cols s) (cell_w s) x)
                     (cells_of s x y pw ph)).
    { unfold cells_of. apply in_cells_between.
      pose proof (lo_le_hi (grid_rows s) (cell_h s) y (y + ph) Hch ltac:(lra)).
      pose proof (lo_le_hi (grid_cols s) (cell_w s) x (x + pw) Hcw ltac:(lra)).
      pose proof (clamp_index_lt (grid_rows s) (Qfloor (y / cell_h s)) Gr).
      pose proof (clamp_index_lt (grid_cols s) (Qfloor (x / cell_w s)) Gc).
      unfold lo_index in *. lia. }
    intro E. rewrite E in Hin. contradiction.
Qed.

Lemma grid_cells_of_fresh_sheet_witness :
  exists cells,
    _get_grid_cells (Sheet_init Panel 100 50 0 (Some 4)) 10 5 33 23 = Ok cells /\
    Forall (cell_in_grid (Sheet_init Panel 100 50 0 (Some 4))) cells /\
    (0 <= 33 -> 0 <= 23 -> cells <> []).
Proof.
  apply (grid_cells_of_fresh_sheet Panel 100 50 0 (Some 4) 10 5 33 23);
    reflexivity.
Defined.

(** The bounds check of [Sheet.fits] rejects the footprint:
    [x + pw > w + epsilon or y + ph > h + epsilon or x < -epsilon or
    y < -epsilon]. *)
Definition bounds_reject (w h x y pw ph : Q) : Prop :=
  w + epsilon < x + pw \/ h + epsilon < y + ph \/
  x < - epsilon \/ y < - epsilon.

Lemma out_of_bounds_iff (w h x y pw ph : Q) :
  out_of_bounds w h x y pw ph = true <-> bounds_reject w h x y pw ph.
Proof.
  unfold out_of_bounds, bounds_reject.
  rewrite !orb_true_iff, !Qltb_lt. tauto.
Qed.

(** X8. On a sheet of width 0 the grid lookup divides by zero:
    [_get_grid_cells] raises [ZeroDivisionError] for every footprint.  So
    [fits] never answers [True]: it answers [False] exactly when the bounds
    check rejects the footprint, and raises [ZeroDivisionError] exactly
    when the bounds check lets it through. *)
Theorem zero_width_sheet_raises
  (h : Q) (tid : nat) (avg : option Q) (kerf : Q) (panel : Panel) (x y : Q) :
  let s := Sheet_init Panel 0 h tid avg in
  let pw := get_placed_width kerf panel in
  let ph := get_placed_height kerf panel in
  (forall (P : Type) (x' y' w' h' : Q),
      _get_grid_cells (Sheet_init P 0 h tid avg) x' y' w' h'
      = Raise ZeroDivisionError) /\
  (fits kerf s panel x y = Ok false <-> bounds_reject 0 h x y pw ph) /\
  (fits kerf s panel x y = Raise ZeroDivisionError <->
   ~ bounds_reject 0 h x y pw ph) /\
  fits kerf s panel x y <> Ok true.
Proof.
  intros s pw ph.
  assert (G0 : forall (P : Type) (x' y' w' h' : Q),
             _get_grid_cells (Sheet_init P 0 h tid avg) x' y' w' h'
             = Raise ZeroDivisionError).
  { intros P x' y' w' h'. unfold _get_grid_cells, py_div. simpl cell_w.
    replace (Qeqb (0 / inject_Z (grid_dim 0 avg)) 0) with true; [reflexivity|].
    symmetry. apply Qeqb_eq. unfold Qdiv. lra. }
  split; [exact G0|].
  pose proof (G0 Panel x y pw ph) as G. fold s in G.
  pose proof (out_of_bounds_iff 0 h x y pw ph) as B.
  unfold fits. fold pw. fold ph. change (s_w s) with 0. change (s_h s) with h.
  destruct (out_of_bounds 0 h x y pw ph) eqn:E.
  - assert (R : bounds_reject 0 h x y pw ph) by now apply B.
    split; [tauto|]. split; [|discriminate].
    split; [discriminate | intro N; now destruct N].
  - assert (N : ~ bounds_reject 0 h x y pw ph).
    { intro R. apply B in R. discriminate. }
    rewrite G. cbn [bind].
    split; [split; [discriminate | intro R; now destruct N]|].
    split; [tauto | discriminate].
Qed.

(** Both answers occur on the sheet of width 0 and height 50, with kerf 0:
    a 10 x 10 panel at the origin is rejected by the bounds check, and a
    panel of width 0 passes it and meets the division. *)
Example zero_width_sheet_cases :
  fits 0 (Sheet_init Panel 0 50 0 None) (Panel_init 10 10 0 None) 0 0
  = Ok false /\
  fits 0 (Sheet_init Panel 0 50 0 None) (Panel_init 0 10 0 None) 0 0
  = Raise ZeroDivisionError.
Proof. split; vm_compute; reflexivity. Qed.

(* ------------------------------------------------------------------ *)
(** ** Efficiency *)

Section Efficiency.

Variable kerf : Q.

Lemma filled_area_is_sum (s0 s : HSheet) :
  filled_area s0 == sum_Q (footprint_area kerf) (panels s0) ->
  placed_from kerf s0 s ->
  filled_area s == sum_Q (footprint_area kerf) (panels s).
Proof.
  intros H0 Hs. induction Hs as [|s s' p x y Hs IH Hp]; [exact H0|].
  apply place_fields in Hp. destruct Hp as (Hps & Hf & _).
  rewrite Hps, Hf, sum_Q_app, IH. unfold footprint_area at 3. simpl. lra.
Qed.

Lemma sum_footprints_nonneg (ps : list (Panel * Q * Q)) :
  Forall (entry_ok kerf) ps -> 0 <= sum_Q (footprint_area kerf) ps.
Proof.
  induction 1 as [|e ps [Hw Hh] _ IH]; simpl; [lra|].
  assert (0 <= footprint_area kerf e).
  { unfold footprint_area. now apply Qmult_le_0_compat. }
  lra.
Qed.

Lemma placed_from_size (s0 s : HSheet) :
  placed_from kerf s0 s -> s_w s = s_w s0 /\ s_h s = s_h s0.
Proof.
  induction 1 as [|s s' p x y Hs [IHw IHh] Hp]; [tauto|].
  apply place_fields in Hp. destruct Hp as (_ & _ & Hw & Hh & _).
  split; congruence.
Qed.

(** X9. Efficiency is monotone: on a sheet of positive size reached by
    [Sheet.place], with placed sizes that are not negative, [efficiency]
    does not raise before or after one more placement, it is not negative,
    and the placement does not lower it. *)
Theorem efficiency_monotone
  (w h : Q) (tid : nat) (avg : option Q) (s s' : HSheet) (p : Panel)
  (x y : Q) :
  0 < w -> 0 < h ->
  placed_from kerf (Sheet_init Panel w h tid avg) s ->
  Forall (entry_ok kerf) (panels s) ->
  panel_ok kerf p ->
  place kerf s p x y = Ok s' ->
  exists e e',
    efficiency s = Ok e /\ efficiency s' = Ok e' /\ 0 <= e /\ e <= e'.
Proof.
  intros Hw Hh Hs Hall [Hpw Hph] Hp.
  assert (Hsum : filled_area s == sum_Q (footprint_area kerf) (panels s)).
  { apply (filled_area_is_sum (Sheet_init Panel w h tid avg) s); [|exact Hs].
    simpl. reflexivity. }
  pose proof (sum_footprints_nonneg _ Hall) as Hnn.
  destruct (placed_from_size _ _ Hs) as [Ew Eh]. simpl in Ew, Eh.
  apply place_fields in Hp.
  destruct Hp as (Hps & Hf & Hw' & Hh' & _).
  assert (Harea : 0 < w * h) by now apply Qmult_lt_0_compat.
  assert (Hadd : 0 <= get_placed_width kerf p * get_placed_height kerf p)
    by now apply Qmult_le_0_compat.
  assert (Hinv : 0 <= / (w * h)) by (apply Qlt_le_weak, Qinv_lt_0_compat, Harea).
  assert (Hdiv : forall a, py_div a (w * h) = Ok (a / (w * h))).
  { intro a. apply py_div_ok. lra. }
  assert (E' : efficiency s' = Ok (filled_area s' / (w * h))).
  { unfold efficiency. rewrite Hps, Hw', Hh', Ew, Eh.
    destruct (panels s); simpl; apply Hdiv. }
  assert (Hmono : filled_area s / (w * h) <= filled_area s' / (w * h)).
  { unfold Qdiv. apply Qmult_le_compat_r; [rewrite Hf; lra | exact Hinv]. }
  assert (Hpos : 0 <= filled_area s / (w * h)).
  { unfold Qdiv. apply Qmult_le_0_compat; [rewrite Hsum; exact Hnn | exact Hinv]. }
  unfold efficiency at 1. rewrite Ew, Eh.
  destruct (panels s) as [|e0 ps] eqn:Eps.
  - exists 0, (filled_area s' / (w * h)).
    split; [reflexivity|]. split; [exact E'|]. split; [lra|].
    eapply Qle_trans; [exact Hpos | exact Hmono].
  - exists (filled_area s / (w * h)), (filled_area s' / (w * h)).
    split; [apply Hdiv|]. split; [exact E'|]. split; assumption.
Qed.

End Efficiency.

Lemma efficiency_monotone_witness :
  exists e e',
    efficiency demo_empty = Ok e /\ efficiency demo_sheet = Ok e' /\
    0 <= e /\ e <= e'.
Proof.
  apply (efficiency_monotone 3 100 50 0 (Some 4) demo_empty demo_sheet
           demo_panel 0 0).
  - reflexivity.
  - reflexivity.
  - apply placed_refl.
  - constructor.
  - split; vm_compute; discriminate.
  - vm_compute. reflexivity.
Defined.

(* ------------------------------------------------------------------ *)
(** ** Accounting of the driver *)

Definition placed_count (ss : list HSheet) : nat :=
  list_sum (map (fun s => length (panels s)) ss).

Definition is_warning (m : Msg) : bool :=
  match m with
  | WarnCannotPlace _ => true
  | _ => false
  end.

Definition is_error (m : Msg) : bool := negb (is_warning m).

Definition warnings (l : list Msg) : nat := length (filter is_warning l).

(** Panels on the sheets, panels given up with a warning, panels still
    waiting. *)
Definition accounted (d : DriverState) : nat :=
  (placed_count (sheets d) + warnings (log d) + length (remaining d))%nat.

Definition flow_state (f : Flow) : DriverState :=
  match f with
  | Continue d => d
  | Break d => d
  end.

Section DriverAccounting.

Variable kerf : Q.
Variable sqrt_float : Q -> Q.

Lemma add_count (s s' : HSheet) (p p' : Panel) (ok : bool) :
  add kerf s p = Ok (ok, s', p') ->
  length (panels s') = (length (panels s) + if ok then 1 else 0)%nat.
Proof.
  intro H. apply add_spec in H.
  destruct H as [[-> ->] | [-> (x & y & _ & _ & _ & Hp)]].
  - lia.
  - apply place_fields in Hp. destruct Hp as (Hps & _).
    rewrite Hps, length_app. simpl. lia.
Qed.

Lemma placed_count_app (a b : list HSheet) :
  placed_count (a ++ b) = (placed_count a + placed_count b)%nat.
Proof. unfold placed_count. now rewrite map_app, list_sum_app. Qed.

Lemma placed_count_snoc (a : list HSheet) (s : HSheet) :
  placed_count (a ++ [s]) = (placed_count a + length (panels s))%nat.
Proof. rewrite placed_count_app. unfold placed_count. simpl. lia. Qed.

Lemma warnings_error (l : list Msg) (m : Msg) :
  is_error m = true -> warnings (l ++ [m]) = warnings l.
Proof.
  intro H. unfold warnings. rewrite filter_app, length_app. simpl.
  destruct m; simpl in *; try discriminate; lia.
Qed.

Lemma error_logged (l : list Msg) (m : Msg) :
  is_error m = true -> existsb is_error (l ++ [m]) = true.
Proof.
  intro H. rewrite existsb_app. simpl. rewrite H. now rewrite orb_true_r.
Qed.

Lemma fill_sheet_count (items : list (nat * Panel)) (sheet sheet' : HSheet)
  (rem rem' : list Panel) (skip placed placed' : list nat) :
  fill_sheet kerf sheet items rem skip placed = Ok (sheet', rem', placed') ->
  (length (panels sheet') + length placed
   = length (panels sheet) + length placed')%nat.
Proof.
  revert sheet rem placed.
  induction items as [|[i panel] items IH]; intros sheet rem placed H;
    simpl in H.
  - inversion H; subst. reflexivity.
  - destruct (existsb (Nat.eqb i) skip); [eapply IH; eauto|].
    bind_inv H. destruct a as [[ok sh] pc]. apply add_count in Ha.
    destruct ok.
    + bind_inv H. bind_inv H. destruct a0.
      * inversion H; subst. rewrite length_app. simpl. lia.
      * apply IH in H. rewrite length_app in H. simpl in H. lia.
    + apply IH in H. lia.
Qed.

Lemma fill_existing_count (todo done sheets' : list HSheet)
  (rem rem' : list Panel) (placed placed' : list nat) :
  fill_existing kerf todo done rem placed = Ok (sheets', rem', placed') ->
  (placed_count sheets' + length placed
   = placed_count done + placed_count todo + length placed')%nat.
Proof.
  revert done rem placed.
  induction todo as [|sheet todo IH]; intros done rem placed H; simpl in H.
  - inversion H; subst. unfold placed_count at 3. simpl. lia.
  - change (sheet :: todo) with ([sheet] ++ todo).
    rewrite placed_count_app. unfold placed_count at 3. simpl.
    bind_inv H. destruct a.
    + apply IH in H. rewrite placed_count_snoc in H. lia.
    + bind_inv H. destruct a as [[sh rem1] sp].
      apply fill_sheet_count in Ha0. apply IH in H.
      rewrite placed_count_snoc, length_app in H. simpl in Ha0. lia.
Qed.

Lemma last_resort_count (avg : Q) (panel : Panel) (sizes : list SheetSize)
  (sh : HSheet) :
  last_resort kerf avg panel sizes = Ok (Some sh) ->
  length (panels sh) = 1%nat.
Proof.
  induction sizes as [|[[w h] tid] sizes IH]; intro H; simpl in H.
  - discriminate.
  - destruct (Qleb (pw_ panel) w && Qleb (ph_ panel) h).
    + bind_inv H. destruct a as [[ok ns] pc]. apply add_count in Ha.
      destruct ok; [|now apply IH]. inversion H; subst. exact Ha.
    + destruct (Qleb (ph_ panel) w && Qleb (pw_ panel) h); [|now apply IH].
      bind_inv H. destruct a as [[ok ns] pc]. apply add_count in Ha.
      destruct ok; [|now apply IH]. inversion H; subst. exact Ha.
Qed.

(** A pass of the loop body moves panels between the three groups and
    loses none; when it breaks out of the loop, nothing is left or an error
    has been logged. *)
Lemma loop_work_accounted (avg : Q) (sizes : list SheetSize)
  (d : DriverState) (f : Flow) :
  loop_work kerf avg sizes d = Ok f ->
  accounted (flow_state f) = accounted d /\
  (forall d', f = Break d' ->
              remaining d' = [] \/ existsb is_error (log d') = true).
Proof.
  unfold loop_work. intro H.
  bind_inv H. destruct a as [[sheets1 rem1] placed_indices].
  pose proof (fill_existing_length _ _ _ _ _ _ _ _ Ha) as L1.
  apply fill_existing_count in Ha.
  unfold placed_count at 2 in Ha. simpl in Ha.
  bind_inv H. rename a into rem2.
  assert (L2 : length rem1 = (length rem2 + length placed_indices)%nat).
  { destruct placed_indices.
    - inversion Ha0; subst. simpl. lia.
    - now apply remove_placed_length in Ha0. }
  unfold accounted.
  destruct rem2 as [|first rem2'].
  { inversion H; subst; simpl in *. split; [lia|].
    intros d' E. inversion E; subst. now left. }
  bind_inv H. destruct a as [best_config score].
  destruct best_config as [[[sheet_w sheet_h] tid]|].
  - bind_inv H. destruct a as [[new_sheet' rem3] placed].
    pose proof (fill_sheet_length _ _ _ _ _ _ _ _ _ Ha2) as L3.
    apply fill_sheet_count in Ha2. simpl in Ha2.
    destruct placed as [|i placed].
    + inversion H; subst; simpl in *.
      rewrite warnings_error by reflexivity. split; [lia|].
      intros d' E. inversion E; subst. right. now apply error_logged.
    + bind_inv H. apply remove_placed_length in Ha3.
      inversion H; subst; simpl in *. rewrite placed_count_snoc.
      split; [lia | discriminate].
  - bind_inv H. bind_inv H. apply list_pop_length in Ha3.
    destruct a as [new_sheet|]; inversion H; subst; simpl in *.
    + apply last_resort_count in Ha2. rewrite placed_count_snoc.
      split; [lia | discriminate].
    + unfold warnings. rewrite filter_app, length_app. simpl.
      split; [lia | discriminate].
Qed.

Lemma safety_check_accounted (n : nat) (d : DriverState) :
  accounted (flow_state (safety_check n d)) = accounted d /\
  (forall d', safety_check n d = Break d' ->
              existsb is_error (log d') = true).
Proof.
  unfold safety_check. destruct (n * 2 <? iteration d)%nat.
  - unfold accounted; simpl. rewrite warnings_error by reflexivity.
    split; [reflexivity|].
    intros d' E. inversion E; subst. now apply error_logged.
  - split; [reflexivity | discriminate].
Qed.

Lemma nest_loop_accounted (avg : Q) (sizes : list SheetSize) (n : nat)
  (fuel passes k : nat) (d d' : DriverState) :
  nest_loop kerf fuel avg sizes n passes d = Some (k, Ok d') ->
  accounted d' = accounted d /\
  (existsb is_error (log d') = false -> remaining d' = []).
Proof.
  revert passes d. induction fuel as [|fuel IH]; intros passes d H;
    simpl in H; [discriminate|].
  destruct (remaining d) as [|p rest] eqn:Er.
  { inversion H; subst. split; [reflexivity | intros _; exact Er]. }
  unfold loop_body in H.
  destruct (loop_work kerf avg sizes d) as [f | e] eqn:Ew; simpl in H;
    [|discriminate].
  apply loop_work_accounted in Ew. destruct Ew as [Hacc Hbreak].
  destruct f as [d1 | d1]; simpl in *.
  - destruct (safety_check_accounted n d1) as [Hs Hb].
    destruct (safety_check n d1) as [d2 | d2] eqn:Es; simpl in *.
    + apply IH in H. destruct H as [H1 H2]. split; [congruence | exact H2].
    + inversion H; subst. split; [congruence|].
      intro E. rewrite (Hb d' eq_refl) in E. discriminate.
  - inversion H; subst. split; [exact Hacc|].
    intro E. destruct (Hbreak d' eq_refl) as [R | R]; [exact R|].
    rewrite R in E. discriminate.
Qed.

End DriverAccounting.

(** A 20 x 10 panel and a 200 x 200 panel on 100 x 50 stock with kerf 3:
    the first is placed, the second is given up with a warning. *)
Definition mixed_panels : list Panel :=
  [Panel_init 20 10 0 None; Panel_init 200 200 1 None].

Definition mixed_outcome : DriverState :=
  match nest_panels 3 (fun _ => 4) 3 mixed_panels cap_sizes with
  | Some (_, Ok d) => d
  | _ => mkDriver [] [] 0 []
  end.

Example mixed_outcome_summary :
  placed_count (sheets mixed_outcome) = 1%nat /\
  log mixed_outcome = [WarnCannotPlace 1] /\
  remaining mixed_outcome = [].
Proof. vm_compute. repeat split. Qed.

(* ------------------------------------------------------------------ *)
(** ** Sheets the driver returns *)

Lemma add_cases (kerf : Q) (s s' : HSheet) (p p' : Panel) (ok : bool) :
  add kerf s p = Ok (ok, s', p') ->
  (ok = false /\ s' = s /\ p' = p) \/
  (ok = true /\ (p' = p \/ p' = rotate p) /\
   exists x y, 0 <= x /\ 0 <= y /\
     fits kerf s p' x y = Ok true /\ place kerf s p' x y = Ok s').
Proof.
  unfold add. intro H. bind_inv H.
  destruct a as [[[[success x] y] rot] p1].
  pose proof (try_add_panel_keeps_panel _ _ _ _ _ _ _ _ Ha) as Hp1. subst p1.
  destruct success.
  - bind_inv H. inversion H; subst. right. split; [reflexivity|].
    apply try_add_panel_spec in Ha. destruct Ha as (_ & Hx & Hy & Hf).
    split; [destruct rot; auto|]. exists x, y. tauto.
  - inversion H; subst. left. repeat split.
Qed.

Lemma list_update_forall {A : Type} (Pa : A -> Prop) (l l' : list A)
  (i : nat) (v : A) :
  Forall Pa l -> Pa v -> list_update l i (fun _ => Ok v) = Ok l' ->
  Forall Pa l'.
Proof.
  revert i l'. induction l as [|a l IH]; intros i l' Hl Hv H; simpl in H.
  - discriminate.
  - inversion Hl; subst. destruct i as [|i].
    + inversion H; subst. constructor; assumption.
    + bind_inv H. inversion H; subst. constructor; [assumption|].
      eapply IH; eauto.
Qed.

Lemma list_pop_forall {A : Type} (Pa : A -> Prop) (l l' : list A) (i : nat) :
  Forall Pa l -> list_pop l i = Ok l' -> Forall Pa l'.
Proof.
  revert i l'. induction l as [|a l IH]; intros i l' Hl H; simpl in H.
  - discriminate.
  - inversion Hl; subst. destruct i as [|i].
    + inversion H; subst. assumption.
    + bind_inv H. inversion H; subst. constructor; [assumption|].
      eapply IH; eauto.
Qed.

Lemma remove_placed_forall {A : Type} (Pa : A -> Prop) (idxs : list nat)
  (l l' : list A) :
  Forall Pa l -> remove_placed l idxs = Ok l' -> Forall Pa l'.
Proof.
  unfold remove_placed. generalize (rev (sort_by Nat.leb idxs)). clear idxs.
  intro idxs. revert l. induction idxs as [|i idxs IH]; intros l Hl H;
    simpl in H.
  - inversion H; subst. assumption.
  - bind_inv H. eapply IH; [|exact H]. eapply list_pop_forall; eauto.
Qed.

Lemma enumerate_forall {A : Type} (Pa : A -> Prop) (l : list A) :
  Forall Pa l -> Forall (fun ip => Pa (snd ip)) (enumerate l).
Proof.
  intro H. apply Forall_forall. intros [k a] Hin.
  apply in_enumerate, nth_error_In in Hin.
  rewrite Forall_forall in H. simpl. auto.
Qed.

(** A property [Qp] of panels that copying and rotating keep, and a
    property [Sp] of sheets that holds of a fresh stock sheet and that
    adding a copy of such a panel keeps, hold of everything the driver
    builds. *)
Section DriverSheets.

Variable kerf : Q.
Variable sizes : list SheetSize.
Variable Qp : Panel -> Prop.
Variable Sp : HSheet -> Prop.

Hypothesis Qp_copy : forall p, Qp p -> Qp (copy p).
Hypothesis Qp_rotate : forall p, Qp p -> Qp (rotate p).
Hypothesis Sp_init : forall w h tid avg,
  In (w, h, tid) sizes ->
  Sp (Sheet_init Panel w h tid avg) /\ Sp (Sheet_init Panel h w tid avg).
Hypothesis Sp_add : forall s s' p c p' ok,
  Sp s -> Qp p -> c = copy p \/ c = rotate (copy p) ->
  add kerf s c = Ok (ok, s', p') -> Sp s'.

Definition sheet_good (s : HSheet) : Prop := Sp s /\ panels s <> [].

Lemma add_keeps_panel_pred (s s' : HSheet) (c p' : Panel) (ok : bool) :
  Qp c -> add kerf s c = Ok (ok, s', p') -> Qp p'.
Proof.
  intros Hc H. apply add_cases in H.
  destruct H as [(_ & _ & ->) | (_ & [-> | ->] & _)]; auto.
Qed.

Lemma fill_sheet_good (items : list (nat * Panel)) (sheet sheet' : HSheet)
  (rem rem' : list Panel) (skip placed placed' : list nat) :
  Sp sheet -> Forall Qp rem -> Forall (fun ip => Qp (snd ip)) items ->
  fill_sheet kerf sheet items rem skip placed = Ok (sheet', rem', placed') ->
  Sp sheet' /\ Forall Qp rem'.
Proof.
  revert sheet rem placed.
  induction items as [|[i panel] items IH]; intros sheet rem placed Hs Hr Hi H;
    simpl in H.
  - inversion H; subst. tauto.
  - inversion Hi as [|? ? Hp Hi']; subst. simpl in Hp.
    destruct (existsb (Nat.eqb i) skip); [eapply IH; eauto|].
    bind_inv H. destruct a as [[ok sh] pc].
    assert (Hsh : Sp sh).
    { exact (Sp_add sheet sh panel (copy panel) pc ok Hs Hp
               (or_introl eq_refl) Ha). }
    assert (Hpc : Qp pc).
    { eapply add_keeps_panel_pred; [|exact Ha]. auto. }
    destruct ok.
    + bind_inv H. apply (list_update_forall Qp _ _ _ _ Hr Hpc) in Ha0.
      bind_inv H. destruct a0.
      * inversion H; subst. tauto.
      * eapply IH; eauto.
    + eapply IH; eauto.
Qed.

Lemma fill_existing_good (todo done sheets' : list HSheet)
  (rem rem' : list Panel) (placed placed' : list nat) :
  Forall sheet_good todo -> Forall sheet_good done -> Forall Qp rem ->
  fill_existing kerf todo done rem placed = Ok (sheets', rem', placed') ->
  Forall sheet_good sheets' /\ Forall Qp rem'.
Proof.
  revert done rem placed.
  induction todo as [|sheet todo IH]; intros done rem placed Ht Hd Hr H;
    simpl in H.
  - inversion H; subst. tauto.
  - inversion Ht as [|? ? [Hs Hne] Ht']; subst.
    bind_inv H. destruct a.
    + eapply IH; [exact Ht' | | exact Hr | exact H].
      apply Forall_app. split; [exact Hd|].
      constructor; [split; assumption | constructor].
    + bind_inv H. destruct a as [[sh rem1] sp].
      pose proof (fill_sheet_count _ _ _ _ _ _ _ _ _ Ha0) as Hc.
      apply fill_sheet_good in Ha0;
        [|assumption|assumption|now apply enumerate_forall].
      destruct Ha0 as [Hsh Hr1].
      eapply IH; [exact Ht' | | exact Hr1 | exact H].
      apply Forall_app. split; [exact Hd|]. constructor; [|constructor].
      split; [exact Hsh|]. intro E. rewrite E in Hc. simpl in Hc.
      destruct (panels sheet); [now apply Hne | simpl in Hc; lia].
Qed.

Lemma last_resort_good (avg : Q) (panel : Panel) (sizes' : list SheetSize)
  (sh : HSheet) :
  Qp panel -> incl sizes' sizes ->
  last_resort kerf avg panel sizes' = Ok (Some sh) -> sheet_good sh.
Proof.
  intro Hp. induction sizes' as [|[[w h] tid] sizes' IH]; intros Hin H;
    simpl in H; [discriminate|].
  assert (Hin' : incl sizes' sizes) by (intros x Hx; apply Hin; now right).
  destruct (Sp_init w h tid (Some avg) (Hin _ (or_introl eq_refl)))
    as [Hfresh _].
  destruct (Qleb (pw_ panel) w && Qleb (ph_ panel) h).
  - bind_inv H. destruct a as [[ok ns] pc]. destruct ok; [|now apply IH].
    inversion H; subst. split.
    + eapply Sp_add; [exact Hfresh | exact Hp | left; reflexivity | exact Ha].
    + apply add_count in Ha. simpl in Ha. intro E. rewrite E in Ha.
      discriminate.
  - destruct (Qleb (ph_ panel) w && Qleb (pw_ panel) h); [|now apply IH].
    bind_inv H. destruct a as [[ok ns] pc]. destruct ok; [|now apply IH].
    inversion H; subst. split.
    + eapply Sp_add; [exact Hfresh | exact Hp | right; reflexivity | exact Ha].
    + apply add_count in Ha. simpl in Ha. intro E. rewrite E in Ha.
      discriminate.
Qed.

Lemma score_orientation_config (avg : Q) (rem : list Panel) (tl : nat)
  (w h sw sh : Q) (tid : nat) (best best' : option Config * Q) :
  score_orientation kerf avg rem tl w h sw sh tid best = Ok best' ->
  fst best' = fst best \/ fst best' = Some (sw, sh, tid).
Proof.
  unfold score_orientation. intro H.
  destruct (Qeqb sw sh && negb (Qeqb w sw && Qeqb h sh));
    [inversion H; now left|].
  bind_inv H. destruct a as [ta tc].
  destruct (0 <? tc)%nat; [|inversion H; now left].
  bind_inv H. destruct (Qltb _ _); inversion H; subst; [now right | now left].
Qed.

(** A stock size in one of its two orientations. *)
Definition config_of (sizes' : list SheetSize) (c : Config) : Prop :=
  exists w h tid, In (w, h, tid) sizes' /\ (c = (w, h, tid) \/ c = (h, w, tid)).

Lemma find_best_config_from (avg : Q) (rem : list Panel) (tl : nat)
  (sizes' : list SheetSize) (best best' : option Config * Q) :
  find_best_config kerf avg rem tl sizes' best = Ok best' ->
  fst best' = fst best \/ exists c, fst best' = Some c /\ config_of sizes' c.
Proof.
  revert best. induction sizes' as [|[[w h] tid] sizes' IH]; intros best H;
    simpl in H.
  - inversion H; now left.
  - bind_inv H. bind_inv H. apply IH in H.
    apply score_orientation_config in Ha, Ha0.
    destruct H as [H | (c & Hc & w' & h' & tid' & Hin & Hor)].
    + rewrite H. destruct Ha0 as [E | E]; rewrite E.
      * destruct Ha as [E' | E']; rewrite E'; [now left|].
        right. exists (w, h, tid). split; [reflexivity|].
        exists w, h, tid. split; [now left | now left].
      * right. exists (h, w, tid). split; [reflexivity|].
        exists w, h, tid. split; [now left | now right].
    + right. exists c. split; [exact Hc|].
      exists w', h', tid'. split; [now right | exact Hor].
Qed.

Lemma loop_work_good (avg : Q) (d : DriverState) (f : Flow) :
  Forall sheet_good (sheets d) -> Forall Qp (remaining d) ->
  loop_work kerf avg sizes d = Ok f ->
  Forall sheet_good (sheets (flow_state f)) /\
  Forall Qp (remaining (flow_state f)).
Proof.
  unfold loop_work. intros Hs Hr H.
  bind_inv H. destruct a as [[sheets1 rem1] placed_indices].
  apply fill_existing_good in Ha; [|assumption|constructor|assumption].
  destruct Ha as [Hs1 Hr1].
  bind_inv H. rename a into rem2, Ha into Hrem.
  assert (Hr2 : Forall Qp rem2).
  { destruct placed_indices; [inversion Hrem; subst; assumption|].
    eapply remove_placed_forall; eauto. }
  destruct rem2 as [|first rem2'].
  { inversion H; subst; simpl. split; [assumption | constructor]. }
  bind_inv H. destruct a as [best_config score]. rename Ha into Hbest.
  destruct best_config as [[[sw sh] tid]|].
  - apply find_best_config_from in Hbest. simpl in Hbest.
    destruct Hbest as [E | (c & Ec & w & h & tid' & Hin & Hor)];
      [discriminate|].
    inversion Ec; subst c.
    assert (Hfresh : Sp (Sheet_init Panel sw sh tid (Some avg))).
    { destruct (Sp_init w h tid' (Some avg) Hin) as [F1 F2].
      destruct Hor as [E | E]; inversion E; subst; assumption. }
    bind_inv H. destruct a as [[new' rem3] placed]. rename Ha into Hfill.
    pose proof (fill_sheet_count _ _ _ _ _ _ _ _ _ Hfill) as Hc.
    apply fill_sheet_good in Hfill;
      [|assumption|assumption|now apply enumerate_forall].
    destruct Hfill as [Hn Hr3].
    destruct placed as [|i placed].
    + inversion H; subst; simpl. tauto.
    + bind_inv H. inversion H; subst; simpl. split.
      * apply Forall_app. split; [assumption|]. constructor; [|constructor].
        split; [assumption|]. intro E. rewrite E in Hc. simpl in Hc. lia.
      * eapply remove_placed_forall; [exact Hr3 | exact Ha].
  - bind_inv H. rename a into r, Ha into Hlast.
    bind_inv H. rename a into rem3, Ha into Hpop.
    assert (Hr3 : Forall Qp rem3) by (eapply list_pop_forall; eauto).
    destruct r as [ns|]; inversion H; subst; simpl; [|tauto].
    split; [|assumption].
    apply Forall_app. split; [assumption|]. constructor; [|constructor].
    eapply last_resort_good; [| |exact Hlast].
    + inversion Hr2; assumption.
    + intros x Hx.
      eapply Permutation_in; [apply Permutation_sym, sort_by_perm | exact Hx].
Qed.

Lemma nest_loop_good (avg : Q) (n fuel passes k : nat) (d d' : DriverState) :
  Forall sheet_good (sheets d) -> Forall Qp (remaining d) ->
  nest_loop kerf fuel avg sizes n passes d = Some (k, Ok d') ->
  Forall sheet_good (sheets d').
Proof.
  revert passes d. induction fuel as [|fuel IH]; intros passes d Hs Hr H;
    simpl in H; [discriminate|].
  destruct (remaining d) as [|p rest] eqn:Er.
  { inversion H; subst. assumption. }
  unfold loop_body in H.
  destruct (loop_work kerf avg sizes d) as [f | e] eqn:Ew; simpl in H;
    [|discriminate].
  rewrite <- Er in Hr. apply (loop_work_good avg d f Hs Hr) in Ew.
  destruct Ew as [Hs' Hr'].
  destruct f as [d1 | d1]; simpl in *.
  - unfold safety_check in H. destruct (n * 2 <? iteration d1)%nat.
    + inversion H; subst. simpl. assumption.
    + eapply IH; eauto.
  - inversion H; subst. assumption.
Qed.

Lemma nest_panels_good (sqrt_float : Q -> Q) (fuel : nat) (ps : list Panel)
  (k : nat) (d : DriverState) :
  Forall Qp ps ->
  nest_panels kerf sqrt_float fuel ps sizes = Some (k, Ok d) ->
  Forall sheet_good (sheets d).
Proof.
  unfold nest_panels. intros Hp H. destruct ps as [|p ps'] eqn:E.
  - inversion H; subst. constructor.
  - rewrite <- E in *. eapply nest_loop_good; [| |exact H]; simpl.
    + constructor.
    + apply Forall_forall. intros x Hx. rewrite Forall_forall in Hp.
      apply Hp.
      eapply Permutation_in; [apply Permutation_sym, sort_by_perm | exact Hx].
Qed.

End DriverSheets.

(** The sheet has one of the stock sizes, as given or turned, and carries
    that size's type id. *)
Definition stock_size (sizes : list SheetSize) (s : HSheet) : Prop :=
  exists w h tid,
    In (w, h, tid) sizes /\ type_id s = tid /\
    ((s_w s = w /\ s_h s = h) \/ (s_w s = h /\ s_h s = w)).

(** The panel lies in its original orientation or turned by 90 degrees. *)
Definition oriented (p : Panel) : Prop :=
  (pw_ p = orig_w p /\ ph_ p = orig_h p) \/
  (pw_ p = orig_h p /\ ph_ p = orig_w p).

(** [p] has the id, the tag and the original size of a panel of [ps]. *)
Definition from_input (ps : list Panel) (p : Panel) : Prop :=
  exists q, In q ps /\ pid p = pid q /\ ptag p = ptag q /\
            orig_w p = orig_w q /\ orig_h p = orig_h q.

Definition placed_copy (ps : list Panel) (e : Panel * Q * Q) : Prop :=
  oriented (fst (fst e)) /\ from_input ps (fst (fst e)).

Lemma oriented_copy (p : Panel) : oriented (copy p).
Proof. unfold copy, oriented. destruct (rotated p); simpl; auto. Qed.

Lemma oriented_rotate (p : Panel) : oriented p -> oriented (rotate p).
Proof. unfold oriented. simpl. tauto. Qed.

Lemma from_input_copy (ps : list Panel) (p : Panel) :
  from_input ps p -> from_input ps (copy p).
Proof.
  intros (q & Hq & H). exists q. split; [exact Hq|].
  unfold copy. destruct (rotated p); simpl; exact H.
Qed.

Lemma from_input_rotate (ps : list Panel) (p : Panel) :
  from_input ps p -> from_input ps (rotate p).
Proof. intros (q & Hq & H). exists q. split; [exact Hq | exact H]. Qed.

Lemma place_keeps_type (kerf : Q) (s s' : HSheet) (p : Panel) (x y : Q) :
  place kerf s p x y = Ok s' -> type_id s' = type_id s.
Proof.
  unfold place. intro H. bind_inv H. bind_inv H. inversion H; subst.
  reflexivity.
Qed.

(** X11. Every sheet [nest_panels] returns holds at least one panel and has
    one of the configured stock sizes, as given or turned by 90 degrees,
    with the type id of that size; and every panel on it is a copy of an
    input panel (same id, tag and original size) lying in its original or
    its rotated orientation. *)
Theorem returned_sheets_from_stock
  (kerf : Q) (sqrt_float : Q -> Q) (fuel : nat) (ps : list Panel)
  (sizes : list SheetSize) (k : nat) (d : DriverState) :
  nest_panels kerf sqrt_float fuel ps sizes = Some (k, Ok d) ->
  Forall (fun s => panels s <> [] /\ stock_size sizes s /\
                   Forall (placed_copy ps) (panels s))
         (sheets d).
Proof.
  intro H.
  pose (Sp := fun s : HSheet =>
                stock_size sizes s /\ Forall (placed_copy ps) (panels s)).
  assert (G : Forall (sheet_good Sp) (sheets d)).
  { apply (nest_panels_good kerf sizes (from_input ps) Sp)
      with (sqrt_float := sqrt_float) (fuel := fuel) (ps := ps) (k := k);
      try exact H.
    - apply from_input_copy.
    - apply from_input_rotate.
    - intros w h tid avg Hin. split; (split; [|constructor]);
        exists w, h, tid; simpl; auto.
    - intros s s' p c p' ok [Hsz Hall] Hp Hc Ha.
      assert (Hoc : oriented c).
      { destruct Hc as [-> | ->];
          [apply oriented_copy | apply oriented_rotate, oriented_copy]. }
      assert (Hfc : from_input ps c).
      { destruct Hc as [-> | ->];
          [now apply from_input_copy
          | now apply from_input_rotate, from_input_copy]. }
      apply add_cases in Ha.
      destruct Ha as [(_ & -> & _) | (_ & Hp' & x & y & _ & _ & _ & Hpl)];
        [split; assumption|].
      pose proof (place_keeps_type _ _ _ _ _ _ Hpl) as Ht.
      apply place_fields in Hpl. destruct Hpl as (Hps & _ & Hw & Hh & _).
      split.
      + destruct Hsz as (w & h & tid & Hin & Htid & Hor).
        exists w, h, tid. rewrite Ht, Hw, Hh. auto.
      + rewrite Hps. apply Forall_app. split; [exact Hall|].
        constructor; [|constructor]. unfold placed_copy; simpl.
        destruct Hp' as [-> | ->]; split;
          auto using oriented_rotate, from_input_rotate.
    - apply Forall_forall. intros q Hq. exists q. auto. }
  eapply Forall_impl; [|exact G].
  intros s [[Hsz Hall] Hne]. auto.
Qed.

Lemma returned_sheets_from_stock_witness :
  Forall (fun s => panels s <> [] /\ stock_size cap_sizes s /\
                   Forall (placed_copy mixed_panels) (panels s))
         (sheets mixed_outcome).
Proof.
  apply (returned_sheets_from_stock 3 (fun _ => 4) 3 mixed_panels cap_sizes 2
           mixed_outcome).
  vm_compute. reflexivity.
Defined.

(** An input panel the driver can work with: original sides plus kerf not
    negative, lying in its original or its rotated orientation. *)
Definition input_ok (kerf : Q) (p : Panel) : Prop :=
  0 <= orig_w p + kerf /\ 0 <= orig_h p + kerf /\ oriented p.

Definition positive_size (sz : SheetSize) : Prop :=
  0 < fst (fst sz) /\ 0 < snd (fst sz).

Lemma input_ok_panel_ok (kerf : Q) (p : Panel) :
  input_ok kerf p -> panel_ok kerf p.
Proof.
  intros (Hw & Hh & [[E1 E2] | [E1 E2]]);
    unfold panel_ok, get_placed_width, get_placed_height;
    rewrite E1, E2; split; assumption.
Qed.

Lemma input_ok_copy (kerf : Q) (p : Panel) :
  input_ok kerf p -> input_ok kerf (copy p).
Proof.
  intros (Hw & Hh & _). split; [|split; [|apply oriented_copy]];
    unfold copy; destruct (rotated p); simpl; assumption.
Qed.

Lemma input_ok_rotate (kerf : Q) (p : Panel) :
  input_ok kerf p -> input_ok kerf (rotate p).
Proof.
  intros (Hw & Hh & Ho). split; [|split; [|now apply oriented_rotate]];
    simpl; assumption.
Qed.

(** What the driver keeps true of each sheet. *)
Definition safe_sheet (kerf : Q) (s : HSheet) : Prop :=
  sheet_inv kerf s /\ no_overlap kerf s /\
  Forall (entry_ok kerf) (panels s) /\
  Forall (placed_within_tolerance kerf (s_w s) (s_h s)) (panels s).

Lemma safe_sheet_init (kerf w h : Q) (tid : nat) (avg : option Q) :
  0 < w -> 0 < h -> safe_sheet kerf (Sheet_init Panel w h tid avg).
Proof.
  intros Hw Hh. split; [now apply sheet_init_inv|]. split.
  - intros i j e1 e2 _ H. destruct i; discriminate.
  - split; constructor.
Qed.

Lemma safe_sheet_add (kerf : Q) (s s' : HSheet) (c p' : Panel) (ok : bool) :
  safe_sheet kerf s -> input_ok kerf c ->
  add kerf s c = Ok (ok, s', p') -> safe_sheet kerf s'.
Proof.
  intros (I & N & Hall & Hin) Hc Ha. apply add_cases in Ha.
  destruct Ha as [(_ & -> & _) | (_ & Hp' & x & y & Hx & Hy & Hf & Hpl)];
    [exact (conj I (conj N (conj Hall Hin)))|].
  assert (Hok : panel_ok kerf p').
  { apply input_ok_panel_ok.
    destruct Hp' as [-> | ->]; [exact Hc | now apply input_ok_rotate]. }
  destruct (place_fields kerf s s' p' x y Hpl) as (Hps & _ & Hw & Hh & _).
  assert (Hall' : Forall (entry_ok kerf) (panels s')).
  { rewrite Hps. apply Forall_app. split; [exact Hall|].
    constructor; [exact Hok | constructor]. }
  destruct (fit_place_keeps_invariants kerf s s' p' x y I N Hall' Hf Hpl)
    as [I' N'].
  split; [exact I'|]. split; [exact N'|]. split; [exact Hall'|].
  rewrite Hps, Hw, Hh. apply Forall_app. split; [exact Hin|].
  constructor; [|constructor].
  apply fits_true_in_bounds in Hf. unfold within_bounds in Hf.
  unfold placed_within_tolerance; simpl. tauto.
Qed.

(** X12. The driver's output is sound: when the stock sizes are positive
    and every input panel has sides plus kerf that are not negative, on
    every sheet [nest_panels] returns no two placed footprints overlap, and
    every footprint starts at x >= 0, y >= 0 and ends within the sheet up to
    the tolerance 1e-6. *)
Theorem returned_sheets_overlap_free
  (kerf : Q) (sqrt_float : Q -> Q) (fuel : nat) (ps : list Panel)
  (sizes : list SheetSize) (k : nat) (d : DriverState) :
  Forall (input_ok kerf) ps ->
  Forall positive_size sizes ->
  nest_panels kerf sqrt_float fuel ps sizes = Some (k, Ok d) ->
  Forall (fun s => no_overlap kerf s /\
                   Forall (placed_within_tolerance kerf (s_w s) (s_h s))
                          (panels s))
         (sheets d).
Proof.
  intros Hps Hsz H.
  assert (G : Forall (sheet_good (safe_sheet kerf)) (sheets d)).
  { apply (nest_panels_good kerf sizes (input_ok kerf) (safe_sheet kerf))
      with (sqrt_float := sqrt_float) (fuel := fuel) (ps := ps) (k := k);
      try assumption.
    - apply input_ok_copy.
    - apply input_ok_rotate.
    - intros w h tid avg Hin. rewrite Forall_forall in Hsz.
      destruct (Hsz _ Hin) as [Hw Hh]. simpl in Hw, Hh.
      split; now apply safe_sheet_init.
    - intros s s' p c p' ok Hs Hp Hc Ha.
      apply (safe_sheet_add kerf s s' c p' ok Hs); [|exact Ha].
      destruct Hc as [-> | ->];
        [now apply input_ok_copy | now apply input_ok_rotate, input_ok_copy]. }
  eapply Forall_impl; [|exact G].
  intros s [(_ & N & _ & Hin) _]. split; assumption.
Qed.

Lemma returned_sheets_overlap_free_witness :
  Forall (fun s => no_overlap 3 s /\
                   Forall (placed_within_tolerance 3 (s_w s) (s_h s))
                          (panels s))
         (sheets mixed_outcome).
Proof.
  apply (returned_sheets_overlap_free 3 (fun _ => 4) 3 mixed_panels cap_sizes 2
           mixed_outcome).
  - repeat constructor; simpl; try lra; left; split; reflexivity.
  - repeat constructor; simpl; lra.
  - vm_compute. reflexivity.
Defined.

(* ------------------------------------------------------------------ *)
(** ** The driver does not raise *)

Lemma enumerate_from_indices {A : Type} (l : list A) (n : nat) :
  map fst (enumerate_from n l) = seq n (length l).
Proof.
  revert n. induction l as [|a l IH]; intro n; simpl; [reflexivity|].
  now rewrite IH.
Qed.

Lemma list_update_returns {A : Type} (l : list A) (i : nat) (v : A) :
  (i < length l)%nat -> exists l', list_update l i (fun _ => Ok v) = Ok l'.
Proof.
  revert i. induction l as [|a l IH]; intros i Hi; simpl in *; [lia|].
  destruct i as [|i]; [eexists; reflexivity|].
  destruct (IH i) as (l' & ->); [lia|]. eexists; reflexivity.
Qed.

Lemma list_pop_returns {A : Type} (l : list A) (i : nat) :
  (i < length l)%nat -> exists l', list_pop l i = Ok l'.
Proof.
  revert i. induction l as [|a l IH]; intros i Hi; simpl in *; [lia|].
  destruct i as [|i]; [eexists; reflexivity|].
  destruct (IH i) as (l' & ->); [lia|]. eexists; reflexivity.
Qed.

(** Popping at strictly decreasing positions, each inside the list, never
    runs past the end: an earlier pop only moves elements behind it. *)
Lemma pop_all_returns {A : Type} (idxs : list nat) (l : list A) :
  StronglySorted (fun a b => (b < a)%nat) idxs ->
  Forall (fun i => (i < length l)%nat) idxs ->
  exists l', pop_all l idxs = Ok l'.
Proof.
  revert l. induction idxs as [|i idxs IH]; intros l Hs Hr; simpl.
  - eexists; reflexivity.
  - inversion Hs as [|? ? Hs' Hlt]; subst. inversion Hr as [|? ? Hi Hr']; subst.
    destruct (list_pop_returns l i Hi) as (l1 & E). rewrite E. simpl.
    apply list_pop_length in E. apply IH; [exact Hs'|].
    rewrite Forall_forall in *. intros j Hj. specialize (Hlt j Hj). lia.
Qed.

Lemma strongly_sorted_snoc {A : Type} (R : A -> A -> Prop) (l : list A)
  (a : A) :
  StronglySorted R l -> Forall (fun b => R b a) l ->
  StronglySorted R (l ++ [a]).
Proof.
  induction 1 as [|b l Hs IH Hall]; intro Ha; simpl.
  - constructor; constructor.
  - inversion Ha; subst. constructor; [now apply IH|].
    apply Forall_app. split; [exact Hall|]. constructor; [assumption|constructor].
Qed.

Lemma strongly_sorted_rev {A : Type} (R : A -> A -> Prop) (l : list A) :
  StronglySorted R l -> StronglySorted (fun a b => R b a) (rev l).
Proof.
  induction 1 as [|a l Hs IH Hall]; simpl; [constructor|].
  apply strongly_sorted_snoc; [exact IH|].
  apply Forall_forall. intros b Hb. apply in_rev in Hb.
  rewrite Forall_forall in Hall. now apply Hall.
Qed.

Lemma strongly_sorted_strict (l : list nat) :
  NoDup l -> StronglySorted (fun a b => Nat.leb a b = true) l ->
  StronglySorted (fun a b => (a < b)%nat) l.
Proof.
  intros Hn Hs. induction Hs as [|a l Hs IH Hall]; [constructor|].
  inversion Hn as [|? ? Hnot Hn']; subst. constructor; [now apply IH|].
  apply Forall_forall. intros b Hb. rewrite Forall_forall in Hall.
  specialize (Hall b Hb). apply Nat.leb_le in Hall.
  assert (a <> b) by (intros ->; contradiction). lia.
Qed.

(** [for i in reversed(sorted(placed_indices)): remaining.pop(i)] does not
    raise when the indices are distinct positions of the list. *)
Lemma remove_placed_returns {A : Type} (idxs : list nat) (l : list A) :
  NoDup idxs -> Forall (fun i => (i < length l)%nat) idxs ->
  exists l', remove_placed l idxs = Ok l'.
Proof.
  intros Hn Hr. unfold remove_placed. apply pop_all_returns.
  - apply (strongly_sorted_rev (fun a b => (a < b)%nat)).
    apply strongly_sorted_strict.
    + eapply Permutation_NoDup; [apply sort_by_perm | exact Hn].
    + apply sort_by_sorted.
      * intros a b H. apply Nat.leb_gt in H. apply Nat.leb_le. lia.
      * intros a b c H1 H2. apply Nat.leb_le in H1, H2. apply Nat.leb_le. lia.
  - apply Forall_forall. intros i Hi. apply in_rev in Hi.
    rewrite Forall_forall in Hr. apply Hr.
    eapply Permutation_in; [apply Permutation_sym, sort_by_perm | exact Hi].
Qed.

Section DriverIndices.

Variable kerf : Q.

(** The positions a sheet takes are distinct, were not taken before, and
    are positions of the work list. *)
Lemma fill_sheet_indices (n : nat) (items : list (nat * Panel))
  (sheet sheet' : HSheet) (rem rem' : list Panel)
  (skip placed placed' : list nat) :
  NoDup (placed ++ map fst items) ->
  Forall (fun i => ~ In i skip) placed ->
  Forall (fun i => (i < n)%nat) (placed ++ map fst items) ->
  fill_sheet kerf sheet items rem skip placed = Ok (sheet', rem', placed') ->
  NoDup placed' /\ Forall (fun i => ~ In i skip) placed' /\
  Forall (fun i => (i < n)%nat) placed'.
Proof.
  revert sheet rem placed.
  induction items as [|[i panel] items IH]; intros sheet rem placed Hn Hs Hr H;
    simpl in H.
  - inversion H; subst. simpl in Hn, Hr. rewrite app_nil_r in Hn, Hr. tauto.
  - simpl in Hn, Hr.
    assert (Hn' : NoDup (placed ++ map fst items))
      by (eapply NoDup_remove_1; eauto).
    assert (Hr' : Forall (fun i => (i < n)%nat) (placed ++ map fst items)).
    { apply Forall_app in Hr. destruct Hr as [H1 H2]. inversion H2; subst.
      apply Forall_app. tauto. }
    destruct (existsb (Nat.eqb i) skip) eqn:Ex; [eapply IH; eauto|].
    bind_inv H. destruct a as [[ok sh] pc].
    destruct ok; [|eapply IH; eauto].
    assert (Hn2 : NoDup ((placed ++ [i]) ++ map fst items))
      by (rewrite <- app_assoc; exact Hn).
    assert (Hr2 : Forall (fun i => (i < n)%nat) ((placed ++ [i]) ++ map fst items))
      by (rewrite <- app_assoc; exact Hr).
    assert (Hs2 : Forall (fun i => ~ In i skip) (placed ++ [i])).
    { apply Forall_app. split; [exact Hs|]. constructor; [|constructor].
      intro Hin.
      assert (E : existsb (Nat.eqb i) skip = true).
      { apply existsb_exists. exists i. split; [exact Hin|].
        apply Nat.eqb_refl. }
      rewrite E in Ex. discriminate. }
    bind_inv H. bind_inv H. destruct a0.
    + inversion H; subst. split; [|split].
      * eapply NoDup_app_remove_r; eauto.
      * exact Hs2.
      * apply Forall_app in Hr2. tauto.
    + eapply IH; eauto.
Qed.

Lemma fill_existing_indices (todo done sheets' : list HSheet)
  (rem rem' : list Panel) (placed placed' : list nat) :
  NoDup placed -> Forall (fun i => (i < length rem)%nat) placed ->
  fill_existing kerf todo done rem placed = Ok (sheets', rem', placed') ->
  NoDup placed' /\ Forall (fun i => (i < length rem')%nat) placed'.
Proof.
  revert done rem placed.
  induction todo as [|sheet todo IH]; intros done rem placed Hn Hr H;
    simpl in H.
  - inversion H; subst. tauto.
  - bind_inv H. destruct a; [eapply IH; eauto|].
    bind_inv H. destruct a as [[sh rem1] sp].
    pose proof (fill_sheet_length _ _ _ _ _ _ _ _ _ Ha0) as L.
    apply (fill_sheet_indices (length rem)) in Ha0.
    + destruct Ha0 as (Hn1 & Hs1 & Hr1).
      eapply IH; [| |exact H].
      * apply NoDup_app; [exact Hn | exact Hn1|].
        intros a Ha1 Ha2. rewrite Forall_forall in Hs1. now apply (Hs1 a).
      * rewrite L. apply Forall_app. tauto.
    + simpl. unfold enumerate. rewrite enumerate_from_indices.
      apply seq_NoDup.
    + constructor.
    + simpl. unfold enumerate. rewrite enumerate_from_indices.
      apply Forall_forall. intros i Hi. apply in_seq in Hi. lia.
Qed.

End DriverIndices.

(* ------------------------------------------------------------------ *)
(** ** Which panels the driver accounts for *)

Definition entry_id (e : Panel * Q * Q) : nat := pid (fst (fst e)).

Definition sheet_ids (s : HSheet) : list nat := map entry_id (panels s).

(** The ids of the panels on the sheets, sheet by sheet. *)
Definition placed_ids (ss : list HSheet) : list nat := flat_map sheet_ids ss.

(** The ids named in the "Cannot place" warnings. *)
Definition warned_ids (l : list Msg) : list nat :=
  flat_map (fun m => match m with
                     | WarnCannotPlace i => [i]
                     | _ => []
                     end) l.

Definition accounted_ids (d : DriverState) : list nat :=
  placed_ids (sheets d) ++ warned_ids (log d) ++ map pid (remaining d).

(** The elements of [l] at the positions [idxs]. *)
Definition pick {A : Type} (l : list A) (idxs : list nat) : list A :=
  flat_map (fun i => match nth_error l i with
                     | Some a => [a]
                     | None => []
                     end) idxs.

Lemma pick_app {A : Type} (l : list A) (i1 i2 : list nat) :
  pick l (i1 ++ i2) = pick l i1 ++ pick l i2.
Proof. apply flat_map_app. Qed.

Lemma pick_map {A B : Type} (f : A -> B) (l : list A) (idxs : list nat) :
  pick (map f l) idxs = map f (pick l idxs).
Proof.
  induction idxs as [|i idxs IH]; [reflexivity|].
  cbn [pick flat_map]. fold (pick (map f l) idxs). fold (pick l idxs).
  rewrite map_app, IH. f_equal.
  rewrite nth_error_map. destruct (nth_error l i); reflexivity.
Qed.

Lemma pick_same {A : Type} (l l' : list A) (idxs : list nat) :
  Forall (fun j => nth_error l' j = nth_error l j) idxs ->
  pick l' idxs = pick l idxs.
Proof.
  induction 1 as [|i idxs Hi _ IH]; [reflexivity|].
  cbn [pick flat_map]. fold (pick l' idxs). fold (pick l idxs).
  now rewrite Hi, IH.
Qed.

(** [l.pop(i)] takes out the element at [i] and leaves the positions before
    it as they were. *)
Lemma list_pop_spec {A : Type} (l l' : list A) (i : nat) :
  list_pop l i = Ok l' ->
  exists a, nth_error l i = Some a /\ Permutation l (a :: l') /\
            forall j, (j < i)%nat -> nth_error l' j = nth_error l j.
Proof.
  revert i l'. induction l as [|b l IH]; intros i l' H; simpl in H;
    [discriminate|].
  destruct i as [|i].
  - inversion H; subst. exists b. split; [reflexivity|].
    split; [apply Permutation_refl | intros j Hj; lia].
  - bind_inv H. inversion H; subst.
    destruct (IH i a Ha) as (c & Hc & Hp & Hlow).
    exists c. split; [exact Hc|]. split.
    + eapply Permutation_trans; [apply perm_skip, Hp | apply perm_swap].
    + intros [|j] Hj; [reflexivity|]. simpl. apply Hlow. lia.
Qed.

(** Popping at strictly decreasing positions removes exactly the elements
    that stood at those positions. *)
Lemma pop_all_perm {A : Type} (idxs : list nat) (l l' : list A) :
  StronglySorted (fun a b => (b < a)%nat) idxs ->
  pop_all l idxs = Ok l' ->
  Permutation l (pick l idxs ++ l').
Proof.
  revert l. induction idxs as [|i idxs IH]; intros l Hs H; simpl in H.
  - inversion H; subst. apply Permutation_refl.
  - bind_inv H. inversion Hs as [|? ? Hs' Hlt]; subst.
    destruct (list_pop_spec l a i Ha) as (c & Hc & Hp & Hlow).
    apply IH in H; [|exact Hs'].
    assert (E : pick a idxs = pick l idxs).
    { apply pick_same. eapply Forall_impl; [|exact Hlt].
      intros j Hj. now apply Hlow. }
    rewrite E in H.
    cbn [pick flat_map]. fold (pick l idxs). rewrite Hc.
    eapply Permutation_trans; [exact Hp|].
    simpl. now apply perm_skip.
Qed.

Lemma remove_placed_perm {A : Type} (idxs : list nat) (l l' : list A) :
  NoDup idxs -> remove_placed l idxs = Ok l' ->
  Permutation l (pick l idxs ++ l').
Proof.
  intros Hn H. unfold remove_placed in H. apply pop_all_perm in H.
  - eapply Permutation_trans; [exact H|].
    apply Permutation_app_tail. unfold pick. apply Permutation_flat_map.
    eapply Permutation_trans; [apply Permutation_sym, Permutation_rev|].
    apply Permutation_sym, sort_by_perm.
  - apply (strongly_sorted_rev (fun a b => (a < b)%nat)).
    apply strongly_sorted_strict.
    + eapply Permutation_NoDup; [apply sort_by_perm | exact Hn].
    + apply sort_by_sorted.
      * intros a b E. apply Nat.leb_gt in E. apply Nat.leb_le. lia.
      * intros a b c H1 H2. apply Nat.leb_le in H1, H2. apply Nat.leb_le. lia.
Qed.

Lemma perm_middle {A : Type} (a a' w r r' : list A) :
  Permutation (a ++ r) (a' ++ r') ->
  Permutation (a ++ w ++ r) (a' ++ w ++ r').
Proof.
  intro H.
  eapply Permutation_trans; [apply Permutation_app_swap_app|].
  eapply Permutation_trans; [apply Permutation_app_head, H|].
  apply Permutation_app_swap_app.
Qed.

Lemma pid_copy (p : Panel) : pid (copy p) = pid p.
Proof. unfold copy. destruct (rotated p); reflexivity. Qed.

Lemma list_update_ids (rem rem' : list Panel) (i : nat) (pc : Panel) :
  nth_error (map pid rem) i = Some (pid pc) ->
  list_update rem i (fun _ => Ok pc) = Ok rem' ->
  map pid rem' = map pid rem.
Proof.
  revert i rem'. induction rem as [|a rem IH]; intros i rem' Hi H; simpl in H;
    [discriminate|].
  destruct i as [|i]; simpl in Hi.
  - inversion H; subst. inversion Hi. simpl. congruence.
  - bind_inv H. inversion H; subst. simpl. f_equal. eapply IH; eauto.
Qed.

Section DriverIds.

Variable kerf : Q.

(** What [Sheet.add] does to the ids: the panel handed back has the id of
    the panel passed, and a success appends that id to the sheet. *)
Lemma add_ids (s s' : HSheet) (c p' : Panel) (ok : bool) :
  add kerf s c = Ok (ok, s', p') ->
  pid p' = pid c /\
  sheet_ids s' = sheet_ids s ++ (if ok then [pid c] else []).
Proof.
  intro H. apply add_cases in H.
  destruct H as [(-> & -> & ->) | (-> & Hp & x & y & _ & _ & _ & Hpl)].
  - split; [reflexivity|]. now rewrite app_nil_r.
  - assert (E : pid p' = pid c) by (destruct Hp as [-> | ->]; reflexivity).
    split; [exact E|].
    apply place_fields in Hpl. destruct Hpl as (Hps & _).
    unfold sheet_ids. rewrite Hps, map_app. f_equal.
    cbn [map]. unfold entry_id. cbn [fst]. now rewrite E.
Qed.

Definition indexed_in (rem : list Panel) (ip : nat * Panel) : Prop :=
  nth_error (map pid rem) (fst ip) = Some (pid (snd ip)).

Lemma enumerate_indexed (rem : list Panel) :
  Forall (indexed_in rem) (enumerate rem).
Proof.
  apply Forall_forall. intros [i p] H. apply in_enumerate in H.
  unfold indexed_in; simpl. rewrite nth_error_map, H. reflexivity.
Qed.

(** Filling a sheet keeps the id at every position of the work list, and
    the ids it adds to the sheet are the ids at the positions it records. *)
Lemma fill_sheet_ids (items : list (nat * Panel)) (sheet sheet' : HSheet)
  (rem rem' : list Panel) (skip placed placed' : list nat) :
  Forall (indexed_in rem) items ->
  fill_sheet kerf sheet items rem skip placed = Ok (sheet', rem', placed') ->
  map pid rem' = map pid rem /\
  exists new,
    placed' = placed ++ new /\
    sheet_ids sheet' = sheet_ids sheet ++ pick (map pid rem) new.
Proof.
  revert sheet rem placed.
  induction items as [|[i panel] items IH]; intros sheet rem placed Hi H;
    simpl in H.
  - inversion H; subst. split; [reflexivity|]. exists [].
    now rewrite !app_nil_r.
  - inversion Hi as [|? ? Hp Hi']; subst. unfold indexed_in in Hp.
    simpl in Hp.
    destruct (existsb (Nat.eqb i) skip); [now apply IH|].
    bind_inv H. destruct a as [[ok sh] pc].
    apply add_ids in Ha. destruct Ha as [Hpc Hsh]. rewrite pid_copy in Hpc, Hsh.
    destruct ok.
    + bind_inv H. rename a into rem1.
      assert (E1 : map pid rem1 = map pid rem).
      { eapply list_update_ids; [|exact Ha]. now rewrite Hpc. }
      assert (Hone : pick (map pid rem) [i] = [pid panel]).
      { cbn [pick flat_map]. now rewrite Hp. }
      bind_inv H. destruct a.
      * inversion H; subst. split; [exact E1|]. exists [i].
        split; [reflexivity|]. now rewrite Hsh, Hone.
      * apply IH in H.
        -- destruct H as (E2 & new & -> & Hs).
           split; [congruence|]. exists (i :: new).
           split; [now rewrite <- app_assoc|].
           rewrite Hs, Hsh, E1, <- app_assoc.
           change (i :: new) with ([i] ++ new). now rewrite pick_app, Hone.
        -- eapply Forall_impl; [|exact Hi'].
           intros ip. unfold indexed_in. now rewrite E1.
    + rewrite app_nil_r in Hsh. apply IH in H; [|exact Hi'].
      destruct H as (E2 & new & -> & Hs).
      split; [exact E2|]. exists new. split; [reflexivity|]. now rewrite Hs, Hsh.
Qed.

Lemma placed_ids_snoc (ss : list HSheet) (s : HSheet) :
  placed_ids (ss ++ [s]) = placed_ids ss ++ sheet_ids s.
Proof. unfold placed_ids. rewrite flat_map_app. simpl. now rewrite app_nil_r. Qed.

Lemma placed_ids_cons (s : HSheet) (ss : list HSheet) :
  placed_ids (s :: ss) = sheet_ids s ++ placed_ids ss.
Proof. reflexivity. Qed.

Lemma fill_existing_ids (todo done sheets' : list HSheet)
  (rem rem' : list Panel) (placed placed' : list nat) :
  fill_existing kerf todo done rem placed = Ok (sheets', rem', placed') ->
  map pid rem' = map pid rem /\
  exists new,
    placed' = placed ++ new /\
    Permutation (placed_ids sheets')
                (placed_ids done ++ placed_ids todo ++ pick (map pid rem) new).
Proof.
  revert done rem placed.
  induction todo as [|sheet todo IH]; intros done rem placed H; simpl in H.
  - inversion H; subst. split; [reflexivity|]. exists [].
    simpl. rewrite !app_nil_r. split; [reflexivity | apply Permutation_refl].
  - bind_inv H. destruct a.
    + apply IH in H. destruct H as (E & new & -> & Hp).
      split; [exact E|]. exists new. split; [reflexivity|].
      rewrite placed_ids_snoc, <- app_assoc in Hp.
      rewrite placed_ids_cons, <- app_assoc. exact Hp.
    + bind_inv H. destruct a as [[sh rem1] sp].
      apply fill_sheet_ids in Ha0; [|apply enumerate_indexed].
      destruct Ha0 as (E1 & new1 & Hsp & Hsh). simpl in Hsp. subst new1.
      apply IH in H. destruct H as (E2 & new & -> & Hp).
      split; [congruence|]. exists (sp ++ new).
      split; [now rewrite app_assoc|].
      rewrite placed_ids_snoc, Hsh, E1, <- !app_assoc in Hp.
      eapply Permutation_trans; [exact Hp|].
      apply Permutation_app_head.
      rewrite placed_ids_cons, <- app_assoc. apply Permutation_app_head.
      rewrite pick_app. apply Permutation_app_swap_app.
Qed.

Lemma last_resort_ids (avg : Q) (panel : Panel) (sizes : list SheetSize)
  (sh : HSheet) :
  last_resort kerf avg panel sizes = Ok (Some sh) ->
  sheet_ids sh = [pid panel].
Proof.
  induction sizes as [|[[w h] tid] sizes IH]; intro H; simpl in H.
  - discriminate.
  - destruct (Qleb (pw_ panel) w && Qleb (ph_ panel) h).
    + bind_inv H. destruct a as [[ok ns] pc]. apply add_ids in Ha.
      destruct ok; [|now apply IH]. inversion H; subst.
      destruct Ha as [_ ->]. simpl. now rewrite pid_copy.
    + destruct (Qleb (ph_ panel) w && Qleb (pw_ panel) h); [|now apply IH].
      bind_inv H. destruct a as [[ok ns] pc]. apply add_ids in Ha.
      destruct ok; [|now apply IH]. inversion H; subst.
      destruct Ha as [_ ->]. simpl. now rewrite pid_copy.
Qed.

Lemma warned_ids_error (l : list Msg) (m : Msg) :
  is_error m = true -> warned_ids (l ++ [m]) = warned_ids l.
Proof.
  intro H. unfold warned_ids. rewrite flat_map_app. simpl.
  destruct m; simpl in *; try discriminate; now rewrite app_nil_r.
Qed.

(** What a removal of the recorded positions leaves, in ids. *)
Lemma remove_placed_ids (rem rem' : list Panel) (idxs : list nat) :
  NoDup idxs -> remove_placed rem idxs = Ok rem' ->
  Permutation (map pid rem) (pick (map pid rem) idxs ++ map pid rem').
Proof.
  intros Hn H. apply remove_placed_perm in H; [|exact Hn].
  rewrite pick_map, <- map_app. now apply Permutation_map.
Qed.

(** A pass of the loop body moves ids between the sheets, the warnings and
    the work list, and neither loses nor repeats one. *)
Lemma loop_work_ids (avg : Q) (sizes : list SheetSize)
  (d : DriverState) (f : Flow) :
  loop_work kerf avg sizes d = Ok f ->
  Permutation (accounted_ids (flow_state f)) (accounted_ids d).
Proof.
  unfold loop_work. intro H.
  bind_inv H. destruct a as [[sheets1 rem1] placed_indices].
  destruct (fill_existing_indices kerf _ _ _ _ _ _ _
              (NoDup_nil nat) (Forall_nil _) Ha) as [Hn _].
  apply fill_existing_ids in Ha.
  destruct Ha as (E1 & new & Hnew & Hp1). simpl in Hnew. subst new.
  simpl in Hp1.
  bind_inv H. rename a into rem2, Ha into Hrem.
  assert (Hp2 : Permutation (map pid rem1)
                  (pick (map pid rem1) placed_indices ++ map pid rem2)).
  { destruct placed_indices as [|i rest].
    - inversion Hrem; subst. apply Permutation_refl.
    - now apply remove_placed_ids. }
  assert (S1 : Permutation (placed_ids sheets1 ++ map pid rem2)
                 (placed_ids (sheets d) ++ map pid (remaining d))).
  { rewrite <- E1 in Hp1. rewrite <- E1.
    eapply Permutation_trans; [apply Permutation_app_tail, Hp1|].
    rewrite <- app_assoc. apply Permutation_app_head.
    now apply Permutation_sym. }
  unfold accounted_ids.
  destruct rem2 as [|first rem2'].
  { inversion H; subst; simpl flow_state; cbn [sheets log remaining].
    now apply perm_middle. }
  bind_inv H. destruct a as [best_config score]. clear Ha.
  destruct best_config as [[[sheet_w sheet_h] tid]|].
  - bind_inv H. destruct a as [[new_sheet' rem3] placed]. rename Ha into Hfill.
    pose proof (fill_sheet_length _ _ _ _ _ _ _ _ _ Hfill) as L.
    assert (Hn3 : NoDup placed).
    { apply (fill_sheet_indices kerf (length (first :: rem2'))) in Hfill.
      - tauto.
      - cbn [app]. unfold enumerate. rewrite enumerate_from_indices.
        apply seq_NoDup.
      - constructor.
      - cbn [app]. unfold enumerate. rewrite enumerate_from_indices.
        apply Forall_forall. intros j Hj. apply in_seq in Hj. lia. }
    apply fill_sheet_ids in Hfill; [|apply enumerate_indexed].
    destruct Hfill as (E3 & new & Hnew & Hs). simpl in Hnew. subst new.
    assert (Hs0 : sheet_ids new_sheet' = pick (map pid rem3) placed)
      by (rewrite E3; exact Hs).
    clear Hs.
    destruct placed as [|i placed].
    + inversion H; subst; simpl flow_state; cbn [sheets log remaining].
      rewrite warned_ids_error by reflexivity. rewrite E3.
      now apply perm_middle.
    + bind_inv H. rename a into rem4.
      apply remove_placed_ids in Ha; [|exact Hn3].
      inversion H; subst; simpl flow_state; cbn [sheets log remaining].
      apply perm_middle. rewrite placed_ids_snoc, Hs0, <- app_assoc.
      eapply Permutation_trans; [|exact S1].
      apply Permutation_app_head. rewrite <- E3. now apply Permutation_sym.
  - bind_inv H. rename a into r, Ha into Hlast.
    bind_inv H. rename a into rem3. simpl in Ha. inversion Ha; subst rem3.
    destruct r as [new_sheet|]; inversion H; subst; simpl flow_state;
      cbn [sheets log remaining].
    + apply last_resort_ids in Hlast. apply perm_middle.
      rewrite placed_ids_snoc, Hlast, <- app_assoc. exact S1.
    + unfold warned_ids at 1. rewrite flat_map_app. fold (warned_ids (log d)).
      simpl. rewrite <- app_assoc. simpl.
      eapply Permutation_trans; [|apply perm_middle, S1].
      apply Permutation_app_head, Permutation_app_head.
      apply Permutation_refl.
Qed.

Lemma nest_loop_ids (avg : Q) (sizes : list SheetSize) (n : nat)
  (fuel passes k : nat) (d d' : DriverState) :
  nest_loop kerf fuel avg sizes n passes d = Some (k, Ok d') ->
  Permutation (accounted_ids d') (accounted_ids d).
Proof.
  revert passes d. induction fuel as [|fuel IH]; intros passes d H;
    simpl in H; [discriminate|].
  destruct (remaining d) as [|p rest] eqn:Er.
  { inversion H; subst. apply Permutation_refl. }
  unfold loop_body in H.
  destruct (loop_work kerf avg sizes d) as [f | e] eqn:Ew; simpl in H;
    [|discriminate].
  apply loop_work_ids in Ew.
  destruct f as [d1 | d1]; simpl in *.
  - unfold safety_check in H. destruct (n * 2 <? iteration d1)%nat.
    + inversion H; subst. unfold accounted_ids in *. simpl.
      now rewrite warned_ids_error.
    + apply IH in H. eapply Permutation_trans; eauto.
  - inversion H; subst. exact Ew.
Qed.

End DriverIds.

(** X10. The driver loses no panel and places none twice: when
    [nest_panels] returns, the ids of the panels on the returned sheets, of
    the panels given up with a "Cannot place" warning and of the panels left
    unplaced are, taken together and counted with multiplicity, exactly the
    ids of the input panels.  So when the input ids are distinct no id is on
    the sheets twice; the three groups add up to the number of input panels;
    and panels are left unplaced only when an error message was printed. *)
Theorem panels_accounted (kerf : Q) (sqrt_float : Q -> Q) (fuel : nat)
  (ps : list Panel) (sizes : list SheetSize) (k : nat) (d : DriverState) :
  nest_panels kerf sqrt_float fuel ps sizes = Some (k, Ok d) ->
  Permutation
    (placed_ids (sheets d) ++ warned_ids (log d) ++ map pid (remaining d))
    (map pid ps) /\
  (NoDup (map pid ps) -> NoDup (placed_ids (sheets d))) /\
  (placed_count (sheets d) + warnings (log d) + length (remaining d)
   = length ps)%nat /\
  (existsb is_error (log d) = false -> remaining d = []).
Proof.
  intro H.
  assert (Hperm : Permutation (accounted_ids d) (map pid ps)).
  { unfold nest_panels in H. destruct ps as [|p ps'] eqn:Eps.
    - inversion H; subst. apply Permutation_refl.
    - rewrite <- Eps in *. apply nest_loop_ids in H.
      eapply Permutation_trans; [exact H|].
      unfold accounted_ids. simpl.
      apply Permutation_map, Permutation_sym, sort_by_perm. }
  split; [exact Hperm|]. split.
  - intro Hn. apply Permutation_sym in Hperm.
    apply (Permutation_NoDup Hperm) in Hn.
    unfold accounted_ids in Hn. now apply NoDup_app_remove_r in Hn.
  - unfold nest_panels in H. destruct ps as [|p ps'] eqn:Eps.
    + inversion H; subst. split; reflexivity.
    + rewrite <- Eps in *. apply nest_loop_accounted in H.
      destruct H as [Hacc Hrem]. split; [|exact Hrem].
      unfold accounted in Hacc. simpl in Hacc.
      rewrite sort_by_length in Hacc. exact Hacc.
Qed.

Lemma panels_accounted_witness :
  Permutation
    (placed_ids (sheets mixed_outcome) ++ warned_ids (log mixed_outcome)
     ++ map pid (remaining mixed_outcome))
    (map pid mixed_panels) /\
  (NoDup (map pid mixed_panels) -> NoDup (placed_ids (sheets mixed_outcome))) /\
  (placed_count (sheets mixed_outcome) + warnings (log mixed_outcome)
   + length (remaining mixed_outcome) = length mixed_panels)%nat /\
  (existsb is_error (log mixed_outcome) = false ->
   remaining mixed_outcome = []).
Proof.
  apply (panels_accounted 3 (fun _ => 4) 3 mixed_panels cap_sizes 2
           mixed_outcome).
  vm_compute. reflexivity.
Defined.

Example mixed_outcome_ids :
  placed_ids (sheets mixed_outcome) = [0%nat] /\
  warned_ids (log mixed_outcome) = [1%nat] /\
  map pid (remaining mixed_outcome) = [].
Proof. vm_compute. repeat split. Qed.

Section DriverTotal.

Variable kerf : Q.

(** A sheet on which every call of the driver goes through. *)
Definition ready (s : HSheet) : Prop :=
  safe_sheet kerf s /\ 0 < s_w s /\ 0 < s_h s.

Lemma ready_init (w h : Q) (tid : nat) (avg : option Q) :
  0 < w -> 0 < h -> ready (Sheet_init Panel w h tid avg).
Proof.
  intros Hw Hh. split; [now apply safe_sheet_init | simpl; tauto].
Qed.

Lemma ready_add (s s' : HSheet) (p c p' : Panel) (ok : bool) :
  ready s -> input_ok kerf p -> c = copy p \/ c = rotate (copy p) ->
  add kerf s c = Ok (ok, s', p') -> ready s'.
Proof.
  intros (Hs & Hw & Hh) Hp Hc Ha.
  assert (Hok : input_ok kerf c).
  { destruct Hc as [-> | ->];
      [now apply input_ok_copy | now apply input_ok_rotate, input_ok_copy]. }
  split; [eapply safe_sheet_add; eauto|].
  apply add_panels_grow in Ha. destruct Ha as (-> & -> & _). tauto.
Qed.

Lemma panel_ok_rotate (p : Panel) :
  panel_ok kerf p -> panel_ok kerf (rotate p).
Proof.
  unfold panel_ok, get_placed_width, get_placed_height. simpl. tauto.
Qed.

Lemma try_positions_returns (s : HSheet) (positions : list Position)
  (panel : Panel) (b : Best) :
  sheet_inv kerf s -> Forall (entry_ok kerf) (panels s) ->
  panel_ok kerf panel ->
  exists r, try_positions kerf s panel positions b = Ok r.
Proof.
  intros I Hall. revert panel b.
  induction positions as [|pos rest IH]; intros panel b Hp.
  - eexists; reflexivity.
  - cbn [try_positions].
    rewrite (fits_naive kerf s panel _ _ I Hall Hp). cbn [bind].
    rewrite (fits_naive kerf s (rotate panel) _ _ I Hall
               (panel_ok_rotate _ Hp)). cbn [bind].
    apply IH. now apply panel_ok_rotate, panel_ok_rotate.
Qed.

Lemma try_add_panel_returns (s : HSheet) (panel : Panel) :
  sheet_inv kerf s -> Forall (entry_ok kerf) (panels s) ->
  panel_ok kerf panel ->
  exists r, try_add_panel kerf s panel = Ok r.
Proof.
  intros I Hall Hp. unfold try_add_panel.
  destruct (try_positions_returns s
              (sample_positions (get_candidate_positions kerf s)) panel
              (mkBest None None false) I Hall Hp) as ([b p'] & ->).
  cbn [bind]. destruct (best_position b); eexists; reflexivity.
Qed.

Lemma add_returns (s : HSheet) (panel : Panel) :
  ready s -> panel_ok kerf panel -> exists r, add kerf s panel = Ok r.
Proof.
  intros [(I & N & Hall & _) _] Hp. unfold add.
  destruct (try_add_panel_returns s panel I Hall Hp)
    as ([[[[success x] y] rot] p'] & ->).
  cbn [bind]. destruct success; [|eexists; reflexivity].
  destruct (place_ok kerf s (if rot then rotate p' else p') x y I)
    as (s' & ->).
  cbn [bind]. eexists; reflexivity.
Qed.

Lemma area_not_zero (w h : Q) : 0 < w -> 0 < h -> ~ w * h == 0.
Proof.
  intros Hw Hh E. assert (0 < w * h) by now apply Qmult_lt_0_compat.
  rewrite E in H. lra.
Qed.

Lemma should_stop_returns (s : HSheet) :
  0 < s_w s -> 0 < s_h s -> exists b, should_stop_adding s = Ok b.
Proof.
  intros Hw Hh. unfold should_stop_adding, efficiency.
  destruct (panels s); [eexists; reflexivity|].
  rewrite py_div_ok by now apply area_not_zero.
  eexists; reflexivity.
Qed.

Lemma fill_sheet_returns (items : list (nat * Panel)) (sheet : HSheet)
  (rem : list Panel) (skip placed : list nat) :
  ready sheet ->
  Forall (fun ip => input_ok kerf (snd ip) /\ (fst ip < length rem)%nat)
         items ->
  exists r, fill_sheet kerf sheet items rem skip placed = Ok r.
Proof.
  revert sheet rem placed.
  induction items as [|[i panel] items IH]; intros sheet rem placed Hs Hi.
  - eexists; reflexivity.
  - inversion Hi as [|? ? [Hp Hlt] Hi']; subst. simpl in Hp, Hlt.
    cbn [fill_sheet].
    destruct (existsb (Nat.eqb i) skip); [now apply IH|].
    destruct (add_returns sheet (copy panel) Hs) as ([[ok sh] pc] & Ea).
    { now apply input_ok_panel_ok, input_ok_copy. }
    rewrite Ea. cbn [bind].
    assert (Hsh : ready sh).
    { exact (ready_add sheet sh panel (copy panel) pc ok Hs Hp
               (or_introl eq_refl) Ea). }
    destruct ok; [|now apply IH].
    destruct (list_update_returns rem i pc Hlt) as (rem1 & Eu).
    rewrite Eu. cbn [bind].
    destruct (should_stop_returns sh (proj1 (proj2 Hsh)) (proj2 (proj2 Hsh)))
      as (b & ->).
    cbn [bind]. destruct b; [eexists; reflexivity|].
    apply IH; [exact Hsh|].
    apply list_update_length in Eu. rewrite Eu. exact Hi'.
Qed.

Lemma enumerate_items (rem : list Panel) :
  Forall (input_ok kerf) rem ->
  Forall (fun ip => input_ok kerf (snd ip) /\ (fst ip < length rem)%nat)
         (enumerate rem).
Proof.
  intro H. apply Forall_forall. intros [k a] Hin. apply in_enumerate in Hin.
  simpl. split.
  - rewrite Forall_forall in H. apply H. eapply nth_error_In; eauto.
  - apply nth_error_Some. congruence.
Qed.

Lemma fill_sheet_ready (items : list (nat * Panel)) (sheet sheet' : HSheet)
  (rem rem' : list Panel) (skip placed placed' : list nat) :
  ready sheet -> Forall (input_ok kerf) rem ->
  Forall (fun ip => input_ok kerf (snd ip)) items ->
  fill_sheet kerf sheet items rem skip placed = Ok (sheet', rem', placed') ->
  ready sheet' /\ Forall (input_ok kerf) rem'.
Proof.
  apply (fill_sheet_good kerf (input_ok kerf) ready).
  - apply input_ok_copy.
  - apply input_ok_rotate.
  - exact ready_add.
Qed.

Lemma fill_existing_returns (todo done : list HSheet) (rem : list Panel)
  (placed : list nat) :
  Forall ready todo -> Forall (input_ok kerf) rem ->
  exists r, fill_existing kerf todo done rem placed = Ok r.
Proof.
  revert done rem placed.
  induction todo as [|sheet todo IH]; intros done rem placed Ht Hr.
  - eexists; reflexivity.
  - inversion Ht as [|? ? Hs Ht']; subst. cbn [fill_existing].
    destruct (should_stop_returns sheet (proj1 (proj2 Hs)) (proj2 (proj2 Hs)))
      as (b & ->).
    cbn [bind]. destruct b; [now apply IH|].
    destruct (fill_sheet_returns (enumerate rem) sheet rem placed [] Hs
                (enumerate_items rem Hr)) as ([[sh rem1] sp] & E).
    rewrite E. cbn [bind]. apply IH; [exact Ht'|].
    apply fill_sheet_ready in E; [tauto | exact Hs | exact Hr|].
    now apply enumerate_forall.
Qed.

Lemma test_config_returns (test_sheet : HSheet) (sw sh : Q)
  (ps : list Panel) (area : Q) (count : nat) :
  ready test_sheet -> 0 < sw -> 0 < sh -> Forall (input_ok kerf) ps ->
  exists r, test_config kerf test_sheet sw sh ps area count = Ok r.
Proof.
  intros [(I & _ & Hall & _) _] Hw Hh Hps. revert area count.
  induction Hps as [|panel ps Hp Hps IH]; intros area count.
  - eexists; reflexivity.
  - cbn [test_config].
    destruct (try_add_panel_returns test_sheet (copy panel) I Hall)
      as ([[[[success x] y] rot] tp] & ->).
    { now apply input_ok_panel_ok, input_ok_copy. }
    cbn [bind]. destruct success; [|apply IH].
    rewrite py_div_ok by now apply area_not_zero.
    cbn [bind]. destruct (Qltb _ _); [eexists; reflexivity | apply IH].
Qed.

Lemma score_orientation_returns (avg : Q) (rem : list Panel) (tl : nat)
  (w h sw sh : Q) (tid : nat) (best : option Config * Q) :
  0 < sw -> 0 < sh -> Forall (input_ok kerf) rem ->
  exists r, score_orientation kerf avg rem tl w h sw sh tid best = Ok r.
Proof.
  intros Hw Hh Hr. unfold score_orientation.
  destruct (Qeqb sw sh && negb (Qeqb w sw && Qeqb h sh));
    [eexists; reflexivity|].
  destruct (test_config_returns (Sheet_init Panel sw sh tid (Some avg)) sw sh
              (firstn tl rem) 0 0) as ([ta tc] & ->);
    [now apply ready_init | exact Hw | exact Hh | |].
  { apply Forall_forall. intros p Hp. rewrite Forall_forall in Hr.
    apply Hr. eapply in_firstn; eauto. }
  cbn [bind]. destruct (0 <? tc)%nat; [|eexists; reflexivity].
  rewrite py_div_ok by now apply area_not_zero.
  cbn [bind]. destruct (Qltb _ _); eexists; reflexivity.
Qed.

Lemma find_best_config_returns (avg : Q) (rem : list Panel) (tl : nat)
  (sizes : list SheetSize) (best : option Config * Q) :
  Forall positive_size sizes -> Forall (input_ok kerf) rem ->
  exists r, find_best_config kerf avg rem tl sizes best = Ok r.
Proof.
  intros Hsz Hr. revert best.
  induction Hsz as [|[[w h] tid] sizes [Hw Hh] Hsz IH]; intro best.
  - eexists; reflexivity.
  - simpl in Hw, Hh. cbn [find_best_config].
    destruct (score_orientation_returns avg rem tl w h w h tid best Hw Hh Hr)
      as (b1 & ->).
    cbn [bind].
    destruct (score_orientation_returns avg rem tl w h h w tid b1 Hh Hw Hr)
      as (b2 & ->).
    cbn [bind]. apply IH.
Qed.

Lemma last_resort_returns (avg : Q) (panel : Panel) (sizes : list SheetSize) :
  input_ok kerf panel -> Forall positive_size sizes ->
  exists r, last_resort kerf avg panel sizes = Ok r.
Proof.
  intros Hp Hsz.
  induction Hsz as [|[[w h] tid] sizes [Hw Hh] Hsz IH].
  - eexists; reflexivity.
  - simpl in Hw, Hh. cbn [last_resort].
    pose proof (ready_init w h tid (Some avg) Hw Hh) as Hfresh.
    destruct (Qleb (pw_ panel) w && Qleb (ph_ panel) h).
    + destruct (add_returns _ (copy panel) Hfresh) as ([[ok ns] pc] & ->).
      { now apply input_ok_panel_ok, input_ok_copy. }
      cbn [bind]. destruct ok; [eexists; reflexivity | exact IH].
    + destruct (Qleb (ph_ panel) w && Qleb (pw_ panel) h); [|exact IH].
      destruct (add_returns _ (rotate (copy panel)) Hfresh)
        as ([[ok ns] pc] & ->).
      { now apply input_ok_panel_ok, input_ok_rotate, input_ok_copy. }
      cbn [bind]. destruct ok; [eexists; reflexivity | exact IH].
Qed.

End DriverTotal.

Section DriverReturns.

Variable kerf : Q.
Variable sizes : list SheetSize.
Hypothesis sizes_positive : Forall positive_size sizes.

Lemma ready_stock (w h : Q) (tid : nat) (avg : option Q) :
  In (w, h, tid) sizes ->
  ready kerf (Sheet_init Panel w h tid avg) /\
  ready kerf (Sheet_init Panel h w tid avg).
Proof.
  intro Hin. rewrite Forall_forall in sizes_positive.
  destruct (sizes_positive _ Hin) as [Hw Hh]. simpl in Hw, Hh.
  split; now apply ready_init.
Qed.

(** What holds of the driver's state between two passes. *)
Definition driver_ok (d : DriverState) : Prop :=
  Forall (sheet_good (ready kerf)) (sheets d) /\
  Forall (input_ok kerf) (remaining d).

Lemma loop_work_ok (avg : Q) (d : DriverState) (f : Flow) :
  driver_ok d -> loop_work kerf avg sizes d = Ok f ->
  driver_ok (flow_state f).
Proof.
  intros [Hs Hr]. 
  apply (loop_work_good kerf sizes (input_ok kerf) (ready kerf)); auto.
  - apply input_ok_copy.
  - apply input_ok_rotate.
  - exact ready_stock.
  - apply ready_add.
Qed.

Lemma loop_work_returns (avg : Q) (d : DriverState) :
  driver_ok d -> exists f, loop_work kerf avg sizes d = Ok f.
Proof.
  intros [Hs Hr]. unfold loop_work.
  assert (Hready : Forall (ready kerf) (sheets d)).
  { eapply Forall_impl; [|exact Hs]. intros s [H _]. exact H. }
  destruct (fill_existing_returns kerf (sheets d) [] (remaining d) []
              Hready Hr) as ([[sheets1 rem1] placed_indices] & E).
  rewrite E. cbn [bind].
  destruct (fill_existing_indices kerf _ _ _ _ _ _ _
              (NoDup_nil nat) (Forall_nil _) E) as [Hn Hlt].
  apply (fill_existing_good kerf (input_ok kerf) (ready kerf)) in E;
    [|apply input_ok_copy | apply input_ok_rotate | apply ready_add
     |exact Hs | constructor | exact Hr].
  destruct E as [Hs1 Hr1].
  assert (E2 : exists rem2,
             match placed_indices with
             | [] => Ok rem1
             | _ :: _ => remove_placed rem1 placed_indices
             end = Ok rem2 /\ Forall (input_ok kerf) rem2).
  { destruct placed_indices as [|i rest]; [now exists rem1|].
    destruct (remove_placed_returns (i :: rest) rem1 Hn Hlt) as (rem2 & E2).
    exists rem2. split; [exact E2|]. eapply remove_placed_forall; eauto. }
  destruct E2 as (rem2 & -> & Hr2). cbn [bind].
  destruct rem2 as [|first rem2']; [eexists; reflexivity|].
  set (rem2 := first :: rem2') in *.
  destruct (find_best_config_returns kerf avg rem2
              (Nat.min (length rem2)
                 (if (50 <? length rem2)%nat then 20%nat else length rem2))
              sizes (None, - (1)) sizes_positive Hr2) as ([best score] & Eb).
  rewrite Eb. cbn [bind].
  destruct best as [[[sw sh] tid]|].
  - apply find_best_config_from in Eb. simpl in Eb.
    destruct Eb as [Eb | (c & Ec & w & h & tid' & Hin & Hor)]; [discriminate|].
    inversion Ec; subst c.
    assert (Hfresh : ready kerf (Sheet_init Panel sw sh tid (Some avg))).
    { destruct (ready_stock w h tid' (Some avg) Hin) as [F1 F2].
      destruct Hor as [Eo | Eo]; inversion Eo; subst; assumption. }
    destruct (fill_sheet_returns kerf (enumerate rem2) _ rem2 [] [] Hfresh
                (enumerate_items kerf rem2 Hr2)) as ([[new' rem3] placed] & Ef).
    rewrite Ef. cbn [bind].
    destruct placed as [|i placed]; [eexists; reflexivity|].
    pose proof (fill_sheet_length _ _ _ _ _ _ _ _ _ Ef) as L.
    apply (fill_sheet_indices kerf (length rem2)) in Ef.
    + destruct Ef as (Hn3 & _ & Hlt3). rewrite <- L in Hlt3.
      destruct (remove_placed_returns (i :: placed) rem3 Hn3 Hlt3)
        as (rem4 & ->).
      cbn [bind]. eexists; reflexivity.
    + cbn [app]. unfold enumerate. rewrite enumerate_from_indices.
      apply seq_NoDup.
    + constructor.
    + cbn [app]. unfold enumerate. rewrite enumerate_from_indices.
      apply Forall_forall. intros j Hj. apply in_seq in Hj. lia.
  - destruct (last_resort_returns kerf avg first
                (sort_by (fun s t : SheetSize =>
                            Qleb (fst (fst s) * snd (fst s))
                                 (fst (fst t) * snd (fst t))) sizes))
      as (r & ->).
    + inversion Hr2; assumption.
    + apply Forall_forall. intros x Hx.
      rewrite Forall_forall in sizes_positive. apply sizes_positive.
      eapply Permutation_in; [apply Permutation_sym, sort_by_perm | exact Hx].
    + cbn [bind]. subst rem2. cbn [list_pop bind].
      destruct r; eexists; reflexivity.
Qed.

Lemma nest_loop_returns (avg : Q) (n fuel passes : nat) (d : DriverState) :
  driver_ok d -> (length (remaining d) < fuel)%nat ->
  exists k d', nest_loop kerf fuel avg sizes n passes d = Some (k, Ok d').
Proof.
  revert passes d. induction fuel as [|fuel IH]; intros passes d Hd Hf;
    [lia|].
  cbn [nest_loop]. destruct (remaining d) as [|p rest] eqn:Er.
  { eexists; eexists; reflexivity. }
  unfold loop_body.
  destruct (loop_work_returns avg d Hd) as (f & Ew). rewrite Ew. cbn [bind].
  pose proof (loop_work_ok avg d f Hd Ew) as Hd'.
  destruct f as [d1 | d1]; [|eexists; eexists; reflexivity].
  apply loop_work_decreases in Ew. destruct Ew as [Hlen _].
  rewrite Er in Hlen. simpl in Hlen, Hf, Hd'.
  unfold safety_check. destruct (n * 2 <? iteration d1)%nat.
  - eexists; eexists; reflexivity.
  - apply IH; [exact Hd' | lia].
Qed.

End DriverReturns.

(** X13. On valid input the driver runs through: when every stock size is
    positive and every input panel has sides plus kerf that are not
    negative, [nest_panels] ends without raising an exception, within one
    pass per panel.  The areas are taken not negative, so that the average
    panel size [(total_area / len(panels)) ** 0.5] is a real number, as
    [sqrt_float] has it. *)
Theorem nest_panels_returns
  (kerf : Q) (sqrt_float : Q -> Q) (ps : list Panel)
  (sizes : list SheetSize) (fuel : nat) :
  Forall (input_ok kerf) ps ->
  Forall (fun p => 0 <= parea p) ps ->
  Forall positive_size sizes ->
  (length ps < fuel)%nat ->
  exists k d,
    nest_panels kerf sqrt_float fuel ps sizes = Some (k, Ok d) /\
    (k <= length ps)%nat.
Proof.
  intros Hps _ Hsz Hf.
  unfold nest_panels. destruct ps as [|p ps'] eqn:Eps.
  - exists 0%nat. eexists. split; [reflexivity | lia].
  - rewrite <- Eps in *.
    set (avg := sqrt_float (sum_area ps / inject_Z (Z.of_nat (length ps)))) in *.
    set (d0 := mkDriver [] (sort_by panel_key_ge ps) 0 []) in *.
    assert (Hd : driver_ok kerf d0).
    { split; [constructor|]. simpl.
      apply Forall_forall. intros x Hx. rewrite Forall_forall in Hps.
      apply Hps.
      eapply Permutation_in; [apply Permutation_sym, sort_by_perm | exact Hx]. }
    assert (Hlen : length (remaining d0) = length ps)
      by apply sort_by_length.
    destruct (nest_loop_returns kerf sizes Hsz avg
                (length (sort_by panel_key_ge ps)) fuel 0 d0 Hd)
      as (k & d & E); [lia|].
    exists k, d. split; [exact E|].
    destruct (nest_loop_terminates kerf avg sizes
                (length (sort_by panel_key_ge ps)) fuel 0 d0)
      as (k1 & r1 & E1 & Hk1); [lia|].
    rewrite E in E1. inversion E1; subst. lia.
Qed.

Lemma nest_panels_returns_witness :
  exists k d,
    nest_panels 3 (fun _ => 4) 3 mixed_panels cap_sizes = Some (k, Ok d) /\
    (k <= length mixed_panels)%nat.
Proof.
  apply (nest_panels_returns 3 (fun _ => 4) mixed_panels cap_sizes 3).
  - repeat constructor; simpl; try lra; left; split; reflexivity.
  - repeat constructor; simpl; lra.
  - repeat constructor; simpl; lra.
  - simpl. lia.
Defined.

(* ------------------------------------------------------------------ *)
(** ** The guillotine variant: a run of [nest] *)

(** [l1] is [l2] with some elements left out. *)
Inductive subseq {A : Type} : list A -> list A -> Prop :=
| subseq_nil : subseq [] []
| subseq_skip (a : A) (l1 l2 : list A) : subseq l1 l2 -> subseq l1 (a :: l2)
| subseq_take (a : A) (l1 l2 : list A) :
    subseq l1 l2 -> subseq (a :: l1) (a :: l2).

Module GuillotineRun.

Import Guillotine.
Import GuillotineFacts.

Definition was_rotated (pp : PlacedPanel) : bool :=
  (rotation_degrees pp =? 90)%Z.

(** What [_try_place_panel] has checked of a placed panel: the rotation is
    0 or 90 degrees, 90 only when the panel allows it; the recorded size is
    the panel's size in that orientation; the grain rule holds, and the
    recorded grain name is the orientation's. *)
Definition placed_ok (a : BeamSawNestingAlgorithm) (pp : PlacedPanel) : Prop :=
  let p := pp_panel pp in
  let rot := was_rotated pp in
  rotation_degrees pp = (if rot then 90 else 0)%Z /\
  (rot = true -> rotation_constraint p = ROTATION_90_ALLOWED) /\
  pp_width pp = eff_width p rot /\ pp_height pp = eff_height p rot /\
  grain_satisfied a p rot /\
  (pp_final_grain_direction pp = Horizontal <-> effective_horizontal p rot).

Definition same_config (a a' : BeamSawNestingAlgorithm) : Prop :=
  sheet_width a' = sheet_width a /\ sheet_height a' = sheet_height a /\
  sheet_grain a' = sheet_grain a /\ kerf_thickness a' = kerf_thickness a /\
  preferred_cut_orientation a' = preferred_cut_orientation a /\
  sort_strategy a' = sort_strategy a.

(** The panel is accepted on the sub-sheet in an orientation it allows. *)
Definition accepts (a : BeamSawNestingAlgorithm) (p : Panel) (s : SubSheet)
  : Prop :=
  _can_place_panel_in_sub_sheet a p s false <> None \/
  (rotation_constraint p = ROTATION_90_ALLOWED /\
   _can_place_panel_in_sub_sheet a p s true <> None).

Lemma same_config_refl (a : BeamSawNestingAlgorithm) : same_config a a.
Proof. repeat split. Qed.

Lemma same_config_trans (a b c : BeamSawNestingAlgorithm) :
  same_config a b -> same_config b c -> same_config a c.
Proof.
  unfold same_config. intros (A1 & A2 & A3 & A4 & A5 & A6)
                             (B1 & B2 & B3 & B4 & B5 & B6).
  repeat split; congruence.
Qed.

Lemma placed_ok_config (a a' : BeamSawNestingAlgorithm) (pp : PlacedPanel) :
  sheet_grain a' = sheet_grain a -> placed_ok a pp -> placed_ok a' pp.
Proof.
  unfold placed_ok, grain_satisfied. intros ->. tauto.
Qed.

Lemma subseq_nil_l {A : Type} (l : list A) : subseq [] l.
Proof. induction l; constructor; assumption. Qed.

Lemma sub_sheet_eqb_refl (s : SubSheet) : sub_sheet_eqb s s = true.
Proof.
  unfold sub_sheet_eqb.
  rewrite !Nat.eqb_refl, Z.eqb_refl.
  assert (R : forall q, Qeqb q q = true) by (intro q; apply Qeqb_eq; reflexivity).
  now rewrite !R.
Qed.

(** [remove] finds an element that is in the list. *)
Lemma list_remove_in (x : SubSheet) (l : list SubSheet) :
  In x l -> exists l', list_remove x l = Some l'.
Proof.
  induction l as [|y l IH]; intro H; [contradiction|]. simpl.
  destruct (sub_sheet_eqb y x) eqn:E; [eexists; reflexivity|].
  destruct H as [-> | H]; [rewrite sub_sheet_eqb_refl in E; discriminate|].
  destruct (IH H) as (l' & ->). eexists; reflexivity.
Qed.

Lemma cut_keeps (a : BeamSawNestingAlgorithm) (s : SubSheet) (uw uh : Q) :
  let a' := _perform_guillotine_cut a s uw uh in
  placed_panels a' = placed_panels a /\
  current_sheet_index a' = current_sheet_index a /\ same_config a a'.
Proof.
  unfold _perform_guillotine_cut, record_cut, set_state, same_config.
  repeat match goal with
         | |- context [if ?c then _ else _] => destruct c
         | |- context [match ?c with CUT_HORIZONTAL => _ | _ => _ end] =>
             destruct c eqn:?
         end; simpl; repeat split; auto.
Qed.

Lemma can_place_fields (a : BeamSawNestingAlgorithm) (p : Panel)
  (s : SubSheet) (rot : bool) (pl : PanelPlacement) :
  _can_place_panel_in_sub_sheet a p s rot = Some pl ->
  pl_rotated pl = rot /\ pl_width pl = eff_width p rot /\
  pl_height pl = eff_height p rot /\
  _validate_grain_direction a p rot = Some (pl_final_grain_direction pl).
Proof.
  unfold _can_place_panel_in_sub_sheet.
  destruct (negb _); [discriminate|].
  destruct (_validate_grain_direction a p rot); [|discriminate].
  intro H; inversion H; subst; simpl. repeat split.
Qed.

Lemma validate_grain_name (a : BeamSawNestingAlgorithm) (p : Panel)
  (rot : bool) (g : GrainName) :
  _validate_grain_direction a p rot = Some g ->
  (g = Horizontal <-> effective_horizontal p rot).
Proof.
  rewrite <- is_horizontal_iff. unfold _validate_grain_direction.
  destruct (grain_direction p); [destruct (sheet_grain a)| |];
    destruct (is_horizontal p rot); simpl; intro H; inversion H; subst;
    split; congruence.
Qed.

(** [find_placement] returns the first sub-sheet of the list that accepts
    the panel. *)
Lemma find_placement_first (a : BeamSawNestingAlgorithm) (p : Panel)
  (subs : list SubSheet) :
  match find_placement a p subs with
  | Some (s, pl) =>
      exists pre post,
        subs = pre ++ s :: post /\ Forall (fun t => ~ accepts a p t) pre /\
        _can_place_panel_in_sub_sheet a p s (pl_rotated pl) = Some pl /\
        (pl_rotated pl = true -> rotation_constraint p = ROTATION_90_ALLOWED)
  | None => Forall (fun t => ~ accepts a p t) subs
  end.
Proof.
  induction subs as [|s0 subs IH]; simpl; [constructor|].
  destruct (_can_place_panel_in_sub_sheet a p s0 false) as [pl0|] eqn:E0.
  { exists [], subs. split; [reflexivity|]. split; [constructor|].
    destruct (can_place_fields _ _ _ _ _ E0) as (-> & _). split; [exact E0|].
    discriminate. }
  assert (Hrej : rotation_constraint p = NO_ROTATION \/
                 _can_place_panel_in_sub_sheet a p s0 true = None ->
                 ~ accepts a p s0).
  { intros K [A | [A1 A2]]; [now apply A|].
    destruct K as [K | K]; congruence. }
  assert (Hrest : ~ accepts a p s0 ->
    match find_placement a p subs with
    | Some (s, pl) =>
        exists pre post,
          s0 :: subs = pre ++ s :: post /\
          Forall (fun t => ~ accepts a p t) pre /\
          _can_place_panel_in_sub_sheet a p s (pl_rotated pl) = Some pl /\
          (pl_rotated pl = true -> rotation_constraint p = ROTATION_90_ALLOWED)
    | None => Forall (fun t => ~ accepts a p t) (s0 :: subs)
    end).
  { intro Hn. destruct (find_placement a p subs) as [[s pl]|].
    - destruct IH as (pre & post & -> & Hpre & Hpl).
      exists (s0 :: pre), post. split; [reflexivity|].
      split; [constructor; assumption | exact Hpl].
    - constructor; assumption. }
  destruct (rotation_constraint p) eqn:Erc.
  - apply Hrest, Hrej. now left.
  - destruct (_can_place_panel_in_sub_sheet a p s0 true) as [pl1|] eqn:E1.
    + exists [], subs. split; [reflexivity|]. split; [constructor|].
      destruct (can_place_fields _ _ _ _ _ E1) as (-> & _).
      split; [exact E1 | reflexivity].
    + apply Hrest, Hrej. now right.
Qed.

Lemma in_candidate_sub_sheets (a : BeamSawNestingAlgorithm) (s : SubSheet) :
  In s (candidate_sub_sheets a) <->
  In s (remaining_sub_sheets a) /\ ss_sheet_index s = current_sheet_index a.
Proof.
  unfold candidate_sub_sheets. split.
  - intro H.
    eapply Permutation_in in H; [|apply Permutation_sym, sort_by_perm].
    apply filter_In in H. destruct H as [H E]. apply Nat.eqb_eq in E. tauto.
  - intros [H E]. eapply Permutation_in; [apply sort_by_perm|].
    apply filter_In. split; [exact H | now apply Nat.eqb_eq].
Qed.

(** One call of [_try_place_panel]: it does not raise; it either places
    the panel, in an orientation that was checked, on the current sheet, or
    leaves the state as it was. *)
Lemma try_place_step (a : BeamSawNestingAlgorithm) (p : Panel) :
  exists ok a',
    _try_place_panel a p = Some (ok, a') /\ same_config a a' /\
    current_sheet_index a' = current_sheet_index a /\
    if ok then
      exists pp, placed_panels a' = placed_panels a ++ [pp] /\
                 pp_panel pp = p /\ placed_ok a pp /\
                 pp_sheet_index pp = current_sheet_index a
    else a' = a.
Proof.
  unfold _try_place_panel.
  pose proof (find_placement_first a p (candidate_sub_sheets a)) as F.
  destruct (find_placement a p (candidate_sub_sheets a)) as [[s pl]|].
  - destruct F as (pre & post & Hsubs & _ & Hpl & Hrot).
    assert (Hin : In s (candidate_sub_sheets a)).
    { rewrite Hsubs. apply in_or_app. right. now left. }
    apply in_candidate_sub_sheets in Hin. destruct Hin as [Hin Hidx].
    unfold _place_panel. destruct (list_remove_in s _ Hin) as (rs & ->).
    match goal with
    | |- context [_perform_guillotine_cut ?b _ _ _] => set (a1 := b)
    end.
    destruct (cut_keeps a1 s (pl_width pl) (pl_height pl)) as (Hp & Hc & Hcfg).
    exists true. eexists. split; [reflexivity|].
    split; [eapply same_config_trans; [|exact Hcfg]; repeat split|].
    split; [rewrite Hc; reflexivity|].
    eexists. split; [rewrite Hp; reflexivity|].
    split; [reflexivity|]. split; [|exact Hidx].
    destruct (can_place_fields _ _ _ _ _ Hpl) as (Hr & Hw & Hh & Hg).
    assert (Hwas : forall b : bool, ((if b then 90 else 0) =? 90)%Z = b)
      by (intros []; reflexivity).
    unfold placed_ok, was_rotated; simpl. rewrite Hwas.
    split; [reflexivity|]. split; [exact Hrot|].
    split; [exact Hw|]. split; [exact Hh|]. split.
    + apply validate_grain_iff. rewrite Hg. discriminate.
    + eapply validate_grain_name; eauto.
  - exists false, a. split; [reflexivity|].
    split; [apply same_config_refl|]. split; reflexivity.
Qed.

Lemma add_new_sheet_fields (a : BeamSawNestingAlgorithm) :
  placed_panels (_add_new_sheet a) = placed_panels a /\
  same_config a (_add_new_sheet a) /\
  (current_sheet_index a <= current_sheet_index (_add_new_sheet a)
   <= S (current_sheet_index a))%nat.
Proof.
  unfold _add_new_sheet. simpl. split; [reflexivity|].
  split; [repeat split|].
  destruct (_ || _)%bool; lia.
Qed.

Lemma add_new_sheet_fresh (a : BeamSawNestingAlgorithm) :
  placed_panels a = [] -> remaining_sub_sheets a = [] ->
  current_sheet_index (_add_new_sheet a) = current_sheet_index a.
Proof. unfold _add_new_sheet. intros -> ->. reflexivity. Qed.

(** A run of the loop of [nest]: it does not raise; the panels it places
    are panels of the list, each at most once and in the order of the list;
    each was checked; and at most one sheet is opened per panel. *)
Lemma nest_loop_spec (ps : list Panel) (a : BeamSawNestingAlgorithm) :
  exists a' new,
    nest_loop a ps = Some a' /\
    placed_panels a' = placed_panels a ++ new /\
    subseq (map pp_panel new) ps /\
    Forall (placed_ok a) new /\
    same_config a a' /\
    (current_sheet_index a <= current_sheet_index a'
     <= current_sheet_index a + length ps)%nat /\
    Forall (fun pp => (current_sheet_index a <= pp_sheet_index pp
                       <= current_sheet_index a')%nat) new.
Proof.
  revert a. induction ps as [|p ps IH]; intro a.
  - exists a, []. simpl. rewrite app_nil_r.
    repeat split; try constructor; try lia.
  - cbn [nest_loop].
    destruct (try_place_step a p) as (ok & a1 & -> & Hcfg1 & Hc1 & H1).
    destruct ok.
    + destruct H1 as (pp & Hpl & Hpp & Hok & Hidx).
      destruct (IH a1)
        as (a' & new & -> & Hpl' & Hsub & Hall & Hcfg & Hc & Hin).
      exists a', (pp :: new). split; [reflexivity|].
      split; [rewrite Hpl', Hpl, <- app_assoc; reflexivity|].
      split; [simpl; rewrite Hpp; now constructor|].
      split.
      { constructor; [exact Hok|]. eapply Forall_impl; [|exact Hall].
        intros q. apply placed_ok_config. symmetry. apply Hcfg1. }
      split; [eapply same_config_trans; eauto|].
      rewrite Hc1 in *. simpl. split; [lia|].
      constructor; [lia|]. exact Hin.
    + subst a1.
      destruct (add_new_sheet_fields a) as (Hpn & Hcfgn & Hcn).
      destruct (try_place_step (_add_new_sheet a) p)
        as (ok2 & a2 & -> & Hcfg2 & Hc2 & H2).
      destruct (IH a2)
        as (a' & new & -> & Hpl' & Hsub & Hall & Hcfg & Hc & Hin).
      assert (Hg : sheet_grain a = sheet_grain a2).
      { destruct Hcfgn as (_ & _ & G1 & _). destruct Hcfg2 as (_ & _ & G2 & _).
        congruence. }
      assert (Hcfg' : same_config a a').
      { eapply same_config_trans; [exact Hcfgn|].
        eapply same_config_trans; eauto. }
      assert (Hall' : Forall (placed_ok a) new).
      { eapply Forall_impl; [|exact Hall].
        intros q. now apply placed_ok_config. }
      assert (Hin' : Forall (fun pp => (current_sheet_index a
                                        <= pp_sheet_index pp
                                        <= current_sheet_index a')%nat) new).
      { eapply Forall_impl; [|exact Hin]. simpl. intros q Hq. lia. }
      destruct ok2.
      * destruct H2 as (pp & Hpl & Hpp & Hok & Hidx).
        exists a', (pp :: new). split; [reflexivity|].
        split; [rewrite Hpl', Hpl, Hpn, <- app_assoc; reflexivity|].
        split; [simpl; rewrite Hpp; now constructor|].
        split.
        { constructor; [|exact Hall'].
          eapply placed_ok_config; [|exact Hok]. apply Hcfgn. }
        split; [exact Hcfg'|]. simpl. split; [lia|].
        constructor; [lia | exact Hin'].
      * subst a2. exists a', new. split; [reflexivity|].
        split; [rewrite Hpl', Hpn; reflexivity|].
        split; [simpl; now constructor|].
        split; [exact Hall'|]. split; [exact Hcfg'|]. simpl.
        split; [lia | exact Hin'].
Qed.

(** X14. [nest] never fails in [remaining_sub_sheets.remove]: the
    sub-sheet it removes is always in the list.  The panels it places are
    input panels, each placed at most once, in the order of the sorted
    list; every placed panel is recorded on a sheet between the first and
    the last sheet of the run; and the run opens at most one sheet per
    panel after the first (on a fresh object: the sheet index ends at most
    at the number of panels). *)
Theorem nest_places_each_panel_once
  (a : BeamSawNestingAlgorithm) (ps : list Panel) :
  exists a' new,
    nest a ps = Some a' /\
    placed_panels a' = placed_panels a ++ new /\
    subseq (map pp_panel new) (_sort_panels a ps) /\
    Permutation (_sort_panels a ps) ps /\
    (current_sheet_index a' <= S (current_sheet_index a) + length ps)%nat /\
    (placed_panels a = [] -> remaining_sub_sheets a = [] ->
     (current_sheet_index a' <= current_sheet_index a + length ps)%nat) /\
    Forall (fun pp => (current_sheet_index a <= pp_sheet_index pp
                       <= current_sheet_index a')%nat) new.
Proof.
  unfold nest.
  destruct (nest_loop_spec (_sort_panels a ps) (_add_new_sheet a))
    as (a' & new & E & Hpl & Hsub & _ & _ & Hc & Hin).
  destruct (add_new_sheet_fields a) as (Hpn & _ & Hcn).
  assert (Hperm : Permutation (_sort_panels a ps) ps).
  { unfold _sort_panels. destruct (sort_strategy a);
      apply Permutation_sym, sort_by_perm. }
  exists a', new. split; [exact E|]. split; [now rewrite Hpl, Hpn|].
  split; [exact Hsub|]. split; [exact Hperm|].
  rewrite (Permutation_length Hperm) in Hc.
  destruct Hc as [Hc1 Hc2], Hcn as [Hn1 Hn2].
  split; [clear - Hc2 Hn2; lia|].
  split.
  { intros E1 E2. rewrite (add_new_sheet_fresh a E1 E2) in Hc2. exact Hc2. }
  eapply Forall_impl; [|exact Hin]. cbv beta. intros pp [Hp1 Hp2].
  split; [clear - Hp1 Hn1; lia | exact Hp2].
Qed.

(** X15. Every panel [nest] places has been checked: it is rotated by 0 or
    90 degrees, by 90 only when its rotation constraint allows it; its
    recorded width and height are the panel's in that orientation; the
    orientation satisfies the grain rule of the panel and the sheet; and
    the recorded grain name is "Horizontal" exactly when the placed width
    is at least the placed height. *)
Theorem placed_panels_satisfy_constraints
  (a : BeamSawNestingAlgorithm) (ps : list Panel) :
  exists a' new,
    nest a ps = Some a' /\
    placed_panels a' = placed_panels a ++ new /\
    Forall (placed_ok a') new.
Proof.
  unfold nest.
  destruct (nest_loop_spec (_sort_panels a ps) (_add_new_sheet a))
    as (a' & new & E & Hpl & _ & Hall & Hcfg & _).
  destruct (add_new_sheet_fields a) as (Hpn & _).
  exists a', new. split; [exact E|]. split; [now rewrite Hpl, Hpn|].
  eapply Forall_impl; [|exact Hall].
  intros pp. apply placed_ok_config. apply Hcfg.
Qed.

Lemma strongly_sorted_after {A : Type} (R : A -> A -> Prop)
  (pre post : list A) (s : A) :
  StronglySorted R (pre ++ s :: post) -> Forall (R s) post.
Proof.
  induction pre as [|b pre IH]; simpl; intro H; inversion H; subst; auto.
Qed.

Lemma candidates_sorted (a : BeamSawNestingAlgorithm) :
  StronglySorted (fun s t => ss_area s <= ss_area t) (candidate_sub_sheets a).
Proof.
  unfold candidate_sub_sheets.
  eapply strongly_sorted_impl; [|apply sort_by_sorted].
  - intros s t H. now apply Qleb_le.
  - intros s t H. apply Qleb_gt in H. apply Qleb_le. lra.
  - intros s t u H1 H2. apply Qleb_le in H1, H2. apply Qleb_le. lra.
Qed.

(** X16. [_try_place_panel] is best-fit among the free sub-sheets of the
    current sheet: when it places the panel, it puts it at the origin of a
    free sub-sheet of the current sheet that accepts the panel and whose
    area is smallest among those that do; when it answers [False], no free
    sub-sheet of the current sheet accepts the panel, and the state is
    unchanged. *)
Theorem try_place_best_fit (a : BeamSawNestingAlgorithm) (p : Panel) :
  exists ok a',
    _try_place_panel a p = Some (ok, a') /\
    if ok then
      exists s pp,
        In s (remaining_sub_sheets a) /\
        ss_sheet_index s = current_sheet_index a /\
        accepts a p s /\
        Forall (fun t => ss_sheet_index t = current_sheet_index a ->
                         accepts a p t -> ss_area s <= ss_area t)
               (remaining_sub_sheets a) /\
        placed_panels a' = placed_panels a ++ [pp] /\
        pp_panel pp = p /\ pp_x pp = ss_x s /\ pp_y pp = ss_y s
    else
      a' = a /\
      Forall (fun t => ss_sheet_index t = current_sheet_index a ->
                       ~ accepts a p t)
             (remaining_sub_sheets a).
Proof.
  unfold _try_place_panel.
  pose proof (find_placement_first a p (candidate_sub_sheets a)) as F.
  pose proof (candidates_sorted a) as Hsorted.
  destruct (find_placement a p (candidate_sub_sheets a)) as [[s pl]|].
  - destruct F as (pre & post & Hsubs & Hpre & Hpl & Hrot).
    assert (Hin : In s (candidate_sub_sheets a)).
    { rewrite Hsubs. apply in_or_app. right. now left. }
    apply in_candidate_sub_sheets in Hin. destruct Hin as [Hin Hidx].
    unfold _place_panel. destruct (list_remove_in s _ Hin) as (rs & ->).
    match goal with
    | |- context [_perform_guillotine_cut ?b _ _ _] => set (a1 := b)
    end.
    destruct (cut_keeps a1 s (pl_width pl) (pl_height pl)) as (Hp & _).
    exists true. eexists. split; [reflexivity|].
    exists s. eexists. split; [exact Hin|]. split; [exact Hidx|].
    split.
    { destruct (pl_rotated pl) eqn:Er.
      - right. split; [now apply Hrot | congruence].
      - left. congruence. }
    split.
    { apply Forall_forall. intros t Ht Hti Hacc.
      assert (Hc : In t (candidate_sub_sheets a))
        by (apply in_candidate_sub_sheets; tauto).
      rewrite Hsubs in Hc, Hsorted. apply in_app_or in Hc.
      destruct Hc as [Hc | [<- | Hc]].
      - rewrite Forall_forall in Hpre. now destruct (Hpre t Hc).
      - lra.
      - apply strongly_sorted_after in Hsorted.
        rewrite Forall_forall in Hsorted. now apply Hsorted. }
    split; [rewrite Hp; reflexivity|]. repeat split.
  - exists false, a. split; [reflexivity|]. split; [reflexivity|].
    apply Forall_forall. intros t Ht Hti.
    rewrite Forall_forall in F. apply F.
    apply in_candidate_sub_sheets. tauto.
Qed.

(* ------------------------------------------------------------------ *)
(** ** The guillotine cut *)

(** Two rectangles lie at least [k] apart along the x axis or along the y
    axis. *)
Definition gap (k x1 y1 w1 h1 x2 y2 w2 h2 : Q) : Prop :=
  x1 + w1 + k <= x2 \/ x2 + w2 + k <= x1 \/
  y1 + h1 + k <= y2 \/ y2 + h2 + k <= y1.

Definition gap_to_panel (k : Q) (sub : SubSheet) (uw uh : Q) (c : SubSheet)
  : Prop :=
  gap k (ss_x sub) (ss_y sub) uw uh
        (ss_x c) (ss_y c) (ss_width c) (ss_height c).

Definition gap_between (k : Q) (c1 c2 : SubSheet) : Prop :=
  gap k (ss_x c1) (ss_y c1) (ss_width c1) (ss_height c1)
        (ss_x c2) (ss_y c2) (ss_width c2) (ss_height c2).

Definition ss_inside (sub c : SubSheet) : Prop :=
  ss_x sub <= ss_x c /\ ss_y sub <= ss_y c /\
  ss_x c + ss_width c <= ss_x sub + ss_width sub /\
  ss_y c + ss_height c <= ss_y sub + ss_height sub.

Definition child_of (sub c : SubSheet) : Prop :=
  level c = S (level sub) /\ ss_sheet_index c = ss_sheet_index sub /\
  (epsilon < ss_width c \/ epsilon < ss_height c).

(** Everything one cut does, case by case. *)
Lemma cut_children (a : BeamSawNestingAlgorithm) (sub : SubSheet)
  (uw uh : Q) :
  let a' := _perform_guillotine_cut a sub uw uh in
  let k := kerf_thickness a in
  exists new cuts,
    remaining_sub_sheets a' = remaining_sub_sheets a ++ new /\
    cut_lines a' = cut_lines a ++ cuts /\
    (length new <= 2)%nat /\
    next_cut_id a' = (next_cut_id a + length new)%nat /\
    map cut_id cuts = seq (next_cut_id a) (length new) /\
    map parent_cut_id new = map (fun c => Z.of_nat (cut_id c)) cuts /\
    Forall (child_of sub) new /\
    Forall (gap_to_panel k sub uw uh) new /\
    ForallOrdPairs (gap_between k) new /\
    (0 <= k -> 0 <= uw -> 0 <= uh ->
     uw <= ss_width sub -> uh <= ss_height sub ->
     Forall (ss_inside sub) new).
Proof.
  unfold _perform_guillotine_cut. cbv zeta.
  set (k := kerf_thickness a).
  set (rw := ss_width sub - uw - k). set (rh := ss_height sub - uh - k).
  generalize (if Qltb epsilon (Qabs (rw - rh)) then Qltb rw rh
              else match preferred_cut_orientation a with
                   | CUT_HORIZONTAL => true
                   | CUT_VERTICAL => false
                   end).
  intro hf.
  destruct hf; destruct (Qltb epsilon rh) eqn:Eh;
    destruct (Qltb epsilon rw) eqn:Ew;
    unfold record_cut, h_cut_top, v_cut_right, set_state; simpl;
    fold k; fold rw; fold rh;
    try (apply Qltb_lt in Eh); try (apply Qltb_lt in Ew);
    (eexists; eexists;
     split; [first [reflexivity | rewrite <- app_assoc; reflexivity
                   | symmetry; apply app_nil_r]|];
     split; [first [reflexivity | rewrite <- app_assoc; reflexivity
                   | symmetry; apply app_nil_r]|];
     split; [simpl; lia|];
     split; [simpl; lia|];
     split; [reflexivity|];
     split; [reflexivity|];
     split; [repeat constructor; simpl; auto|];
     split; [repeat constructor; unfold gap_to_panel, gap; simpl; lra|];
     split; [repeat constructor; unfold gap_between, gap; simpl; lra|];
     intros Hk Huw Huh Hw Hh;
     repeat constructor; unfold ss_inside; simpl; subst rw rh; lra).
Qed.

Definition int_sub (c : SubSheet) : Prop :=
  is_int (ss_x c) /\ is_int (ss_y c) /\
  is_int (ss_width c) /\ is_int (ss_height c).

(** On whole-number data the new sub-sheets are made of whole numbers. *)
Lemma cut_children_int (a : BeamSawNestingAlgorithm) (sub : SubSheet)
  (uw uh : Q) :
  let a' := _perform_guillotine_cut a sub uw uh in
  let k := kerf_thickness a in
  exists new,
    remaining_sub_sheets a' = remaining_sub_sheets a ++ new /\
    (is_int k -> int_sub sub -> is_int uw -> is_int uh ->
     Forall int_sub new).
Proof.
  unfold _perform_guillotine_cut. cbv zeta.
  set (k := kerf_thickness a).
  set (rw := ss_width sub - uw - k). set (rh := ss_height sub - uh - k).
  generalize (if Qltb epsilon (Qabs (rw - rh)) then Qltb rw rh
              else match preferred_cut_orientation a with
                   | CUT_HORIZONTAL => true
                   | CUT_VERTICAL => false
                   end).
  intro hf.
  destruct hf; destruct (Qltb epsilon rh) eqn:Eh;
    destruct (Qltb epsilon rw) eqn:Ew;
    unfold record_cut, h_cut_top, v_cut_right, set_state; simpl;
    fold k; fold rw; fold rh;
    (eexists;
     split; [first [reflexivity | rewrite <- app_assoc; reflexivity
                   | symmetry; apply app_nil_r]|];
     intros Ik (Ix & Iy & Iw & Ih) Iuw Iuh;
     repeat constructor; simpl; subst rw rh;
     auto using is_int_plus, is_int_minus).
Qed.

(** X17. One guillotine cut appends at most two sub-sheets and as many cut
    lines, numbered consecutively from [next_cut_id]; each new sub-sheet
    is one level below the cut sub-sheet, on the same sheet, and refers to
    its cut line; it lies at least the kerf away from the placed panel's
    rectangle, and two new sub-sheets lie at least the kerf away from each
    other. *)
Theorem guillotine_cut_children (a : BeamSawNestingAlgorithm)
  (sub : SubSheet) (uw uh : Q) :
  exists new cuts,
    remaining_sub_sheets (_perform_guillotine_cut a sub uw uh)
    = remaining_sub_sheets a ++ new /\
    cut_lines (_perform_guillotine_cut a sub uw uh) = cut_lines a ++ cuts /\
    (length new <= 2)%nat /\
    next_cut_id (_perform_guillotine_cut a sub uw uh)
    = (next_cut_id a + length new)%nat /\
    map cut_id cuts = seq (next_cut_id a) (length new) /\
    map parent_cut_id new = map (fun c => Z.of_nat (cut_id c)) cuts /\
    Forall (child_of sub) new /\
    Forall (gap_to_panel (kerf_thickness a) sub uw uh) new /\
    ForallOrdPairs (gap_between (kerf_thickness a)) new.
Proof.
  destruct (cut_children a sub uw uh)
    as (new & cuts & H1 & H2 & H3 & H4 & H5 & H6 & H7 & H8 & H9 & _).
  exists new, cuts. repeat split; assumption.
Qed.

(** X18. In exact arithmetic, when the kerf is not negative and the placed
    size lies within the cut sub-sheet, the sub-sheets a guillotine cut
    appends lie inside the sub-sheet that was cut.  The rationals of the
    model are exact; the source computes the far edge [x + width] of a new
    sub-sheet as a rounded float sum, which can pass the edge of the cut
    sub-sheet by one rounding error.  When the kerf, the cut sub-sheet and
    the placed size are whole numbers, so are the new sub-sheets: on such
    data the float sums and differences of the cut are exact (below 2^53)
    and the statement is about the values the source computes. *)
Theorem guillotine_cut_inside (a : BeamSawNestingAlgorithm)
  (sub : SubSheet) (uw uh : Q) :
  0 <= kerf_thickness a -> 0 <= uw -> 0 <= uh ->
  uw <= ss_width sub -> uh <= ss_height sub ->
  exists new,
    remaining_sub_sheets (_perform_guillotine_cut a sub uw uh)
    = remaining_sub_sheets a ++ new /\
    Forall (ss_inside sub) new /\
    (is_int (kerf_thickness a) -> int_sub sub -> is_int uw -> is_int uh ->
     Forall int_sub new).
Proof.
  intros Hk Huw Huh Hw Hh.
  destruct (cut_children a sub uw uh) as (new & cuts & H1 & H),
    H as (_ & _ & _ & _ & _ & _ & _ & _ & Hin).
  destruct (cut_children_int a sub uw uh) as (new' & H1' & Hint).
  assert (E : new' = new).
  { apply (app_inv_head (remaining_sub_sheets a)).
    rewrite <- H1'. exact H1. }
  subst new'.
  exists new. split; [exact H1|]. split; [now apply Hin | exact Hint].
Qed.

Lemma guillotine_cut_inside_witness :
  exists new,
    remaining_sub_sheets
      (_perform_guillotine_cut grain_algo whole_sheet 54 40)
    = remaining_sub_sheets grain_algo ++ new /\
    Forall (ss_inside whole_sheet) new /\
    (is_int (kerf_thickness grain_algo) -> int_sub whole_sheet ->
     is_int 54 -> is_int 40 -> Forall int_sub new).
Proof.
  apply (guillotine_cut_inside grain_algo whole_sheet 54 40);
    vm_compute; discriminate.
Defined.

End GuillotineRun.

(* ------------------------------------------------------------------ *)
(** ** The polygon tests of the shape-bearing engine *)

(** An edge that passes the height test is not horizontal, so the division
    is defined and [xinters] is bound when it is read. *)
Lemma pip_step_returns (x y : Q) (st : Point * bool * option Q) (p2 : Point) :
  exists st', pip_step x y st p2 = Ok st'.
Proof.
  destruct st as [[p1 inside] xi]. unfold pip_step.
  destruct (Qltb (Qmin (snd p1) (snd p2)) y
            && Qleb y (Qmax (snd p1) (snd p2))
            && Qleb x (Qmax (fst p1) (fst p2))) eqn:G;
    [|eexists; reflexivity].
  assert (Hne : ~ snd p1 == snd p2).
  { apply andb_true_iff in G. destruct G as [G _].
    apply andb_true_iff in G. destruct G as [G1 G2].
    apply Qltb_lt in G1. apply Qleb_le in G2. unfold Qmin, Qmax in *.
    destruct (Qltb (snd p2) (snd p1)) eqn:E1;
      destruct (Qltb (snd p1) (snd p2)) eqn:E2; qbool; lra. }
  replace (Qeqb (snd p1) (snd p2)) with false
    by (symmetry; now apply Qeqb_neq).
  cbn [negb]. rewrite py_div_ok by lra. cbn [bind].
  destruct (Qeqb (fst p1) (fst p2)); eexists; reflexivity.
Qed.

Lemma pip_loop_returns (x y : Q) (ends : list Point)
  (st : Point * bool * option Q) :
  exists b, pip_loop x y st ends = Ok b.
Proof.
  revert st. induction ends as [|p2 ends IH]; intro st; simpl.
  - eexists; reflexivity.
  - destruct (pip_step_returns x y st p2) as (st' & ->). cbn [bind].
    apply IH.
Qed.

Lemma point_in_polygon_returns (pt : Point) (poly : list Point) :
  poly <> [] -> exists b, _point_in_polygon pt poly = Ok b.
Proof.
  destruct poly as [|first others]; [congruence|]. intros _.
  apply pip_loop_returns.
Qed.

Lemma any_point_inside_returns (pts poly : list Point) :
  poly <> [] -> exists b, any_point_inside pts poly = Ok b.
Proof.
  intro Hp. induction pts as [|pt pts IH]; simpl; [eexists; reflexivity|].
  destruct (point_in_polygon_returns pt poly Hp) as (b & ->). cbn [bind].
  destruct b; [eexists; reflexivity | exact IH].
Qed.

Lemma any_point_inside_empty (pts : list Point) :
  any_point_inside pts []
  = match pts with
    | [] => Ok false
    | _ => Raise IndexError
    end.
Proof. destruct pts; reflexivity. Qed.

(** X19. The ray-casting test never divides by zero and never reads
    [xinters] before it is assigned: an edge that passes the height test
    [min(p1.Y, p2.Y) < y <= max(p1.Y, p2.Y)] is not horizontal.  So
    [_point_in_polygon] returns for every polygon that has a point, and
    raises [IndexError] on the empty polygon; and
    [_check_polygon_collision] returns for every two polygons that have a
    point. *)
Theorem polygon_tests_return :
  (forall pt : Point, _point_in_polygon pt [] = Raise IndexError) /\
  (forall (pt : Point) (poly : list Point),
      poly <> [] -> exists b, _point_in_polygon pt poly = Ok b) /\
  (forall poly1 poly2 : list Point,
      poly1 <> [] -> poly2 <> [] ->
      exists b, _check_polygon_collision poly1 poly2 = Ok b).
Proof.
  split; [reflexivity|]. split; [apply point_in_polygon_returns|].
  intros poly1 poly2 H1 H2. unfold _check_polygon_collision.
  destruct (any_point_inside_returns (firstn 5 poly1) poly2 H2) as (b1 & ->).
  cbn [bind]. destruct b1; [eexists; reflexivity|].
  destruct (any_point_inside_returns (firstn 5 poly2) poly1 H1) as (b2 & ->).
  cbn [bind]. destruct b2; eexists; reflexivity.
Qed.

Lemma Qltb_shift (a1 b1 a2 b2 : Q) :
  b1 - a1 == b2 - a2 -> Qltb a1 b1 = Qltb a2 b2.
Proof.
  intro H. destruct (Qltb a1 b1) eqn:E1; destruct (Qltb a2 b2) eqn:E2;
    try reflexivity; qbool; lra.
Qed.

(** The orientation test is the sign of a determinant, which a cyclic
    change of the three points leaves as it is. *)
Lemma ccw_cyclic (A B C : Point) : ccw A B C = ccw B C A.
Proof. unfold ccw. apply Qltb_shift. ring. Qed.

Lemma segments_intersect_sym (p1 p2 p3 p4 : Point) :
  _line_segments_intersect p1 p2 p3 p4 = _line_segments_intersect p3 p4 p1 p2.
Proof.
  unfold _line_segments_intersect.
  rewrite (ccw_cyclic p3 p1 p2), (ccw_cyclic p4 p1 p2).
  rewrite <- (ccw_cyclic p1 p3 p4), <- (ccw_cyclic p2 p3 p4).
  apply andb_comm.
Qed.

Lemma existsb_swap {A B : Type} (f : A -> B -> bool) (l1 : list A)
  (l2 : list B) :
  existsb (fun a => existsb (fun b => f a b) l2) l1
  = existsb (fun b => existsb (fun a => f a b) l1) l2.
Proof.
  apply eq_true_iff_eq. rewrite !existsb_exists. split.
  - intros (a & Ha & H). apply existsb_exists in H. destruct H as (b & Hb & H).
    exists b. split; [exact Hb|]. apply existsb_exists. eauto.
  - intros (b & Hb & H). apply existsb_exists in H. destruct H as (a & Ha & H).
    exists a. split; [exact Ha|]. apply existsb_exists. eauto.
Qed.

Lemma existsb_pointwise {A : Type} (f g : A -> bool) (l : list A) :
  (forall a, f a = g a) -> existsb f l = existsb g l.
Proof.
  intro H. induction l as [|a l IH]; simpl; [reflexivity|].
  now rewrite H, IH.
Qed.

Lemma edges_intersect_sym (poly1 poly2 : list Point) :
  _edges_intersect poly1 poly2 = _edges_intersect poly2 poly1.
Proof.
  unfold _edges_intersect. rewrite existsb_swap.
  apply existsb_pointwise. intros e2. apply existsb_pointwise. intros e1.
  apply segments_intersect_sym.
Qed.

(** X20. With exact arithmetic the collision test does not depend on the
    order of its two polygons: [_line_segments_intersect] gives the same
    answer when the two segments are exchanged, [_edges_intersect] when the
    two polygons are, and [_check_polygon_collision] returns the same
    answer, or raises the same exception, for [(a, b)] and [(b, a)]. *)
Theorem collision_test_symmetric :
  (forall p1 p2 p3 p4 : Point,
      _line_segments_intersect p1 p2 p3 p4
      = _line_segments_intersect p3 p4 p1 p2) /\
  (forall a b : list Point, _edges_intersect a b = _edges_intersect b a) /\
  (forall a b : list Point,
      _check_polygon_collision a b = _check_polygon_collision b a).
Proof.
  split; [apply segments_intersect_sym|]. split; [apply edges_intersect_sym|].
  intros a b. unfold _check_polygon_collision.
  rewrite (edges_intersect_sym b a).
  destruct a as [|pa a'], b as [|pb b'].
  - reflexivity.
  - cbn [firstn]. rewrite !any_point_inside_empty. reflexivity.
  - cbn [firstn]. rewrite !any_point_inside_empty. reflexivity.
  - destruct (any_point_inside_returns (firstn 5 (pa :: a')) (pb :: b'))
      as (b1 & ->); [discriminate|].
    destruct (any_point_inside_returns (firstn 5 (pb :: b')) (pa :: a'))
      as (b2 & ->); [discriminate|].
    cbn [bind]. destruct b1, b2; reflexivity.
Qed.

(* ------------------------------------------------------------------ *)
(** ** [Sheet.add] on the shape-bearing engine *)

Lemma Qopp_opp (q : Q) : - - q = q.
Proof. destruct q as [n d]. unfold Qopp. simpl. now rewrite Z.opp_involutive. Qed.

Lemma rotate_point_four (pt : Q * Q) :
  rotate_point (rotate_point (rotate_point (rotate_point pt))) = pt.
Proof.
  destruct pt as [a b]. unfold rotate_point. simpl. now rewrite !Qopp_opp.
Qed.

(** The panel is as its constructor leaves it: at angle 0. *)
Definition unrotated (p : PlanarPanel) : Prop :=
  rotation_angle p = 0%Z /\ pl_rotated p = false.

Lemma planar_rotate_four (p : PlanarPanel) :
  unrotated p -> Nat.iter 4 planar_rotate p = p.
Proof.
  destruct p as [w h ar ang rot pts i]. intros [Ha Hr]. simpl in Ha, Hr. subst.
  unfold planar_rotate. simpl. f_equal.
  rewrite !map_map. rewrite <- (map_id pts) at 2.
  apply map_ext. intro pt. apply rotate_point_four.
Qed.

Section PlanarAdd.

Variable kerf : Q.

Lemma planar_candidates_non_negative (s : PSheet) :
  Forall non_negative (planar_get_candidate_positions kerf s).
Proof.
  unfold planar_get_candidate_positions.
  destruct (panels s) as [|e ps].
  - repeat constructor; simpl; lra.
  - apply Forall_forall. intros pos H.
    apply (Permutation_in _ (Permutation_sym (sort_by_perm _ _))) in H.
    apply filter_In in H. destruct H as [_ H].
    unfold pos_valid in H. qbool. split; assumption.
Qed.

(** What the search has found so far: a candidate position and a number of
    quarter turns below [n] at which the panel passed [fits]. *)
Definition planar_best_inv (s : PSheet) (p0 : PlanarPanel) (n : nat)
  (b : PlanarBest) : Prop :=
  match pb_position b with
  | None => True
  | Some pos =>
      (pb_rotated b < n)%nat /\ non_negative pos /\
      planar_fits kerf s (Nat.iter (pb_rotated b) planar_rotate p0)
                  (fst pos) (snd pos) = Ok true
  end.

Lemma planar_best_inv_le (s : PSheet) (p0 : PlanarPanel) (n m : nat)
  (b : PlanarBest) :
  (n <= m)%nat -> planar_best_inv s p0 n b -> planar_best_inv s p0 m b.
Proof.
  unfold planar_best_inv. destruct (pb_position b); [|tauto].
  intros Hle (H1 & H2). split; [lia | exact H2].
Qed.

Lemma planar_scan_spec (s : PSheet) (p0 : PlanarPanel) (rc : nat)
  (positions : list Position) (b b' : PlanarBest) :
  Forall non_negative positions ->
  planar_best_inv s p0 (S rc) b ->
  planar_scan kerf s (Nat.iter rc planar_rotate p0) rc positions b = Ok b' ->
  planar_best_inv s p0 (S rc) b'.
Proof.
  intros Hpos. revert b.
  induction Hpos as [|pos rest Hp Hrest IH]; intros b Hb H; simpl in H.
  - inversion H; subst; exact Hb.
  - bind_inv H. apply IH in H; [exact H|].
    destruct a; [|exact Hb]. destruct (better _ _); [|exact Hb].
    unfold planar_best_inv; simpl. split; [lia|]. split; [exact Hp | exact Ha].
Qed.

Lemma planar_rotations_spec (s : PSheet) (p0 : PlanarPanel)
  (positions : list Position) (n rc : nat) (b b' : PlanarBest)
  (panel' : PlanarPanel) :
  Forall non_negative positions ->
  planar_best_inv s p0 rc b ->
  planar_rotations kerf s (Nat.iter rc planar_rotate p0) (seq rc n)
                   positions b = Ok (b', panel') ->
  panel' = Nat.iter (rc + n) planar_rotate p0 /\
  planar_best_inv s p0 (rc + n) b'.
Proof.
  intros Hpos. revert rc b.
  induction n as [|n IH]; intros rc b Hb H; simpl in H.
  - inversion H; subst. rewrite Nat.add_0_r. tauto.
  - bind_inv H.
    apply planar_scan_spec in Ha;
      [|exact Hpos | eapply planar_best_inv_le; [|exact Hb]; lia].
    change (planar_rotate (Nat.iter rc planar_rotate p0))
      with (Nat.iter (S rc) planar_rotate p0) in H.
    apply IH in H; [|exact Ha].
    rewrite Nat.add_succ_r. exact H.
Qed.

Lemma planar_try_add_panel_spec (s : PSheet) (p0 panel' : PlanarPanel)
  (success : bool) (x y : Q) (r : nat) :
  planar_try_add_panel kerf s p0 = Ok (success, x, y, r, panel') ->
  panel' = Nat.iter 4 planar_rotate p0 /\
  (success = true ->
   (r < 4)%nat /\ 0 <= x /\ 0 <= y /\
   planar_fits kerf s (Nat.iter r planar_rotate p0) x y = Ok true).
Proof.
  unfold planar_try_add_panel. intro H. bind_inv H. destruct a as [b p1].
  apply (planar_rotations_spec s p0 _ 4 0) in Ha.
  - destruct Ha as [-> Hb]. unfold planar_best_inv in Hb.
    destruct (pb_position b) as [pos|]; inversion H; subst.
    + split; [reflexivity|]. intros _.
      destruct Hb as (Hr & [Hx Hy] & Hf). tauto.
    + split; [reflexivity | discriminate].
  - apply Forall_forall. intros pos Hin. apply in_sample_positions in Hin.
    pose proof (planar_candidates_non_negative s) as Hc.
    rewrite Forall_forall in Hc. now apply Hc.
  - exact I.
Qed.

(** X21. On the shape-bearing engine, [Sheet.add] of a panel at rotation
    angle 0 either fails and leaves the sheet and the panel as they were,
    or appends one entry: the panel turned by fewer than four quarter
    turns, at a position with x >= 0 and y >= 0 where [fits] accepted that
    very orientation, so its bounding box ends within the sheet up to the
    tolerance. *)
Theorem planar_add_outcome (s s' : PSheet) (p p' : PlanarPanel) (ok : bool) :
  unrotated p ->
  planar_add kerf s p = Ok (ok, s', p') ->
  if ok then
    exists x y r,
      (r < 4)%nat /\ p' = Nat.iter r planar_rotate p /\
      0 <= x /\ 0 <= y /\
      planar_fits kerf s p' x y = Ok true /\
      x + planar_placed_width kerf p' <= s_w s + epsilon /\
      y + planar_placed_height kerf p' <= s_h s + epsilon /\
      panels s' = panels s ++ [(p', x, y)]
  else s' = s /\ p' = p.
Proof.
  intros Hu H. unfold planar_add in H. bind_inv H.
  destruct a as [[[[success x] y] r] p1].
  apply planar_try_add_panel_spec in Ha. destruct Ha as [Hp1 Hs].
  rewrite (planar_rotate_four p Hu) in Hp1. subst p1.
  destruct success.
  - bind_inv H. rename Ha into Hplace. inversion H; subst. clear H.
    destruct (Hs eq_refl) as (Hr & Hx & Hy & Hf).
    assert (E : Z.to_nat ((Z.of_nat r - rotation_angle p / 90) mod 4) = r).
    { destruct Hu as [-> _]. change (0 / 90)%Z with 0%Z.
      rewrite Z.sub_0_r, Z.mod_small by lia. apply Nat2Z.id. }
    rewrite E in *.
    exists x, y, r. split; [exact Hr|]. split; [reflexivity|].
    split; [exact Hx|]. split; [exact Hy|]. split; [exact Hf|].
    assert (Hb : out_of_bounds (s_w s) (s_h s) x y
                   (planar_placed_width kerf (Nat.iter r planar_rotate p))
                   (planar_placed_height kerf (Nat.iter r planar_rotate p))
                 = false).
    { unfold planar_fits in Hf.
      destruct (out_of_bounds _ _ _ _ _ _); [discriminate | reflexivity]. }
    unfold out_of_bounds in Hb. qbool.
    split; [assumption|]. split; [assumption|].
    apply planar_place_fields in Hplace. tauto.
  - inversion H; subst. split; reflexivity.
Qed.

End PlanarAdd.

(** The triangle of the 20 x 40 sheet, added with kerf 0. *)
Definition tri_added : PSheet :=
  match planar_add 0 tri_sheet tri_panel with
  | Ok (_, s', _) => s'
  | Raise _ => tri_sheet
  end.

Definition tri_placed : PlanarPanel :=
  match planar_add 0 tri_sheet tri_panel with
  | Ok (_, _, p') => p'
  | Raise _ => tri_panel
  end.

Lemma planar_add_outcome_witness :
  exists x y r,
    (r < 4)%nat /\ tri_placed = Nat.iter r planar_rotate tri_panel /\
    0 <= x /\ 0 <= y /\
    planar_fits 0 tri_sheet tri_placed x y = Ok true /\
    x + planar_placed_width 0 tri_placed <= s_w tri_sheet + epsilon /\
    y + planar_placed_height 0 tri_placed <= s_h tri_sheet + epsilon /\
    panels tri_added = panels tri_sheet ++ [(tri_placed, x, y)].
Proof.
  apply (planar_add_outcome 0 tri_sheet tri_added tri_panel tri_placed true).
  - split; reflexivity.
  - vm_compute. reflexivity.
Defined.

(** The angle hypothesis is needed.  A 10 x 30 rectangle turned once lies
    30 x 10 at angle 90.  On a 30 x 10 sheet [try_add_panel] accepts it as
    it lies (no further turn), but [add] then turns it (0 - 1) mod 4 = 3
    times and places it 10 x 30 at the origin, where [fits] rejects it. *)
Definition turned_panel : PlanarPanel :=
  planar_rotate
    (PlanarPanel_init 10 30 300 [(0, 0); (10, 0); (10, 30); (0, 30)] 0).

Definition wide_sheet : Sheet PlanarPanel := Sheet_init PlanarPanel 30 10 0 None.

Example planar_add_turned_input :
  exists s' p',
    planar_add 0 wide_sheet turned_panel = Ok (true, s', p') /\
    pl_w turned_panel == 30 /\ pl_h turned_panel == 10 /\
    pl_w p' == 10 /\ pl_h p' == 30 /\
    panels s' = [(p', 0, 0)] /\
    planar_fits 0 wide_sheet p' 0 0 = Ok false.
Proof.
  eexists. eexists. split; [vm_compute; reflexivity|].
  repeat split; vm_compute; reflexivity.
Qed.
